(** * backend-Metropolis: cache, single-flight queue and rate limiter

    A shallow embedding of the concurrency-and-freshness core of the
    Express backend:

    - [RateLimiter]  : src/middleware/rateLimiter.ts
    - [App]          : the middleware chain of src/index.ts
    - [LRUCache]     : the lru-cache package, as the cache uses it
    - [CacheManager] : src/config/cache.ts
    - [UserService]  : src/services/userService.ts
    - [Server]       : src/queue/requestQueue.ts and src/routes/users.ts

    Time is the millisecond clock read by [Date.now()]; every operation
    that reads the clock takes the reading as an argument [now : Z].
    Node runs each callback to completion, so a transition is one task
    of the event loop with the promise continuations it releases. *)

From stdpp Require Import gmap strings list fin_maps pretty sorting.
From Stdlib Require Import ZArith Lia.

Local Open Scope Z_scope.

(* ===================================================================== *)
(** * Definitions                                                         *)
(* ===================================================================== *)

(** ** src/middleware/rateLimiter.ts *)

Module RateLimiter.

Record RateLimitEntry := mkEntry {
  count : Z;
  resetTime : Z;
  burstCount : Z;
  burstResetTime : Z;
}.

(** The constant object [RATE_LIMIT]. *)
Definition maxRequests : Z := 10.
Definition windowMs : Z := 60 * 1000.
Definition burstMax : Z := 5.
Definition burstWindowMs : Z := 10 * 1000.

(** [rateLimitStore], a [Map<string, RateLimitEntry>]. *)
Abbreviation Store := (gmap string RateLimitEntry).

(** What the middleware does with the request: it calls [next()], or
    it answers 429 with a message and [retryAfter]. *)
Inductive Verdict :=
| Next
| TooMany (message : string) (retryAfter : Z).

Definition burstMessage : string :=
  "Too many requests in a short time. Please try again later.".
Definition sustainedMessage : string :=
  "Maximum requests per minute exceeded. Please try again later.".

(** [Math.ceil(ms / 1000)] on an integer number of milliseconds. *)
Definition ceilSeconds (ms : Z) : Z := - ((- ms) / 1000).

(** [req.ip || 'unknown']: an absent or empty address is 'unknown'. *)
Definition clientIdOf (ip : option string) : string :=
  match ip with
  | Some s => if decide (s = "") then "unknown" else s
  | None => "unknown"
  end.

(** The entry the middleware works on: the stored one, or a fresh one
    (which the source stores at once). *)
Definition fetchEntry (store : Store) (clientId : string) (now : Z)
  : RateLimitEntry :=
  match store !! clientId with
  | Some entry => entry
  | None => mkEntry 0 (now + windowMs) 0 (now + burstWindowMs)
  end.

(** The two [if (now > ...)] blocks that reset an expired window. *)
Definition resetSustained (now : Z) (entry : RateLimitEntry) : RateLimitEntry :=
  if resetTime entry <? now
  then mkEntry 0 (now + windowMs) (burstCount entry) (burstResetTime entry)
  else entry.

Definition resetBurst (now : Z) (entry : RateLimitEntry) : RateLimitEntry :=
  if burstResetTime entry <? now
  then mkEntry (count entry) (resetTime entry) 0 (now + burstWindowMs)
  else entry.

(** The entry of a client as a pass that starts at [now] sees it at its
    two limit checks: fetched or created, with the lazy resets done. *)
Definition windowsAt (store : Store) (clientId : string) (now : Z)
  : RateLimitEntry :=
  resetBurst now (resetSustained now (fetchEntry store clientId now)).

(** [rateLimiter(req, res, next)].  The entry is an object shared with
    the map, so each assignment to it is a write to the store; the
    store below holds the entry as it is when the middleware
    returns. *)
Definition rateLimiter (store : Store) (ip : option string) (now : Z)
  : Store * Verdict :=
  let clientId := clientIdOf ip in
  let entry := fetchEntry store clientId now in
  let entry := resetSustained now entry in
  let entry := resetBurst now entry in
  if burstMax <=? burstCount entry then
    (<[clientId := entry]> store,
     TooMany burstMessage (ceilSeconds (burstResetTime entry - now)))
  else if maxRequests <=? count entry then
    (<[clientId := entry]> store,
     TooMany sustainedMessage (ceilSeconds (resetTime entry - now)))
  else
    (<[clientId :=
         mkEntry (count entry + 1) (resetTime entry)
                 (burstCount entry + 1) (burstResetTime entry)]> store,
     Next).

(** [cleanupRateLimitStore()]: deletes, while iterating over the map,
    every entry whose two windows are both over. *)
Definition bothExpired (now : Z) (entry : RateLimitEntry) : bool :=
  (resetTime entry <? now) && (burstResetTime entry <? now).

Definition cleanupRateLimitStore (store : Store) (now : Z) : Store :=
  filter (λ kv, bothExpired now kv.2 = false) store.

(** The store under a stream of requests, each an address and the
    clock reading of its pass through the middleware; the verdicts come
    out in the order of the requests. *)
Fixpoint serve (store : Store) (reqs : list (option string * Z))
  : Store * list Verdict :=
  match reqs with
  | [] => (store, [])
  | (ip, now) :: reqs' =>
      let store1 := (rateLimiter store ip now).1 in
      let v := (rateLimiter store ip now).2 in
      ((serve store1 reqs').1, v :: (serve store1 reqs').2)
  end.

(** One client sending requests at the clock readings [ts]. *)
Definition requests (store : Store) (ip : option string) (ts : list Z)
  : Store * list Verdict :=
  serve store ((λ now, (ip, now)) <$> ts).

(** The requests of a stream that come from client [c], and the verdicts
    of a stream that went to client [c]. *)
Definition sentBy (c : string) (reqs : list (option string * Z))
  : list (option string * Z) :=
  filter (λ r, clientIdOf r.1 = c) reqs.

Definition verdictsFor (c : string) (reqs : list (option string * Z))
  (vs : list Verdict) : list Verdict :=
  (filter (λ rv, clientIdOf rv.1.1 = c) (zip reqs vs)).*2.

(** The schedule of the sustained scenario: any request and the fifth
    one after it lie further apart than the burst window. *)
Definition spaced (ts : list Z) : Prop :=
  ∀ (i : nat) (x y : Z),
    ts !! i = Some x → ts !! (i + 5)%nat = Some y → x + burstWindowMs < y.

(** What the store holds for a client after the requests [ts] of a
    spaced schedule, all let through: the sustained window is the one
    the first request opened, and the burst window was opened by one of
    the last five requests. *)
Definition windowsAfter (ts : list Z) (e : RateLimitEntry) : Prop :=
  count e = Z.of_nat (length ts) ∧
  (∃ t0, ts !! 0%nat = Some t0 ∧ resetTime e = t0 + windowMs) ∧
  (∃ (s : nat) (w : Z), ts !! s = Some w ∧
     burstResetTime e = w + burstWindowMs ∧
     burstCount e = Z.of_nat (length ts) - Z.of_nat s ∧ burstCount e ≤ burstMax).

(** What happens to the store: a request passes the middleware, or the
    background task of index.ts runs its sweep. *)
Inductive Activity :=
| Incoming (ip : option string) (now : Z)
| Cleanup (now : Z).

Definition act (store : Store) (a : Activity) : Store :=
  match a with
  | Incoming ip now => (rateLimiter store ip now).1
  | Cleanup now => cleanupRateLimitStore store now
  end.

(** The store of a process that started empty, after the activities. *)
Definition storeAfter (acts : list Activity) : Store := foldl act ∅ acts.

Definition clockOf (a : Activity) : Z :=
  match a with Incoming _ now | Cleanup now => now end.

(** The verdicts of the requests among the activities, from a store. *)
Fixpoint verdicts (store : Store) (acts : list Activity) : list Verdict :=
  match acts with
  | [] => []
  | Incoming ip now :: acts' =>
      (rateLimiter store ip now).2 :: verdicts (rateLimiter store ip now).1 acts'
  | Cleanup now :: acts' => verdicts (cleanupRateLimitStore store now) acts'
  end.

Definition isIncoming (a : Activity) : bool :=
  match a with Incoming _ _ => true | Cleanup _ => false end.

(** Two stores that differ only by entries whose windows both ended
    before [w] and that the first one has lost. *)
Definition sweptBefore (w : Z) (swept store : Store) : Prop :=
  ∀ c : string,
    swept !! c = store !! c ∨
    (swept !! c = None ∧
     ∃ e, store !! c = Some e ∧ resetTime e < w ∧ burstResetTime e < w).

(** Every counter stays within its limit. *)
Definition withinLimits (e : RateLimitEntry) : Prop :=
  0 ≤ count e ≤ maxRequests ∧ 0 ≤ burstCount e ≤ burstMax.

(** Whether an activity is a request of client [c], at a clock reading
    from [a] to [b], that the middleware lets through on the store it
    finds. *)
Definition passedIn (c : string) (a b : Z) (store : Store) (x : Activity)
  : bool :=
  match x with
  | Incoming ip now =>
      bool_decide (clientIdOf ip = c) && (a <=? now) && (now <=? b) &&
      match (rateLimiter store ip now).2 with
      | Next => true
      | TooMany _ _ => false
      end
  | Cleanup _ => false
  end.

(** How many requests of client [c] with a clock reading from [a] to
    [b] are let through, among the activities that start on [store]. *)
Fixpoint passed (c : string) (a b : Z) (store : Store) (acts : list Activity)
  : nat :=
  match acts with
  | [] => 0
  | x :: acts' =>
      ((if passedIn c a b store x then 1 else 0)
       + passed c a b (act store x) acts')%nat
  end.

(** What the store keeps true of the [n] requests of client [c] let
    through from [a] on, for a counter [cnt] with its reset time [rst],
    its [limit] and the length [window] of its window: the counter is
    within its limit, and the readings from [a] to [a + window] are
    over; or the requests all fell into the window that the entry is
    in, or into that one and the one before; or a sweep took the entry
    after the first of the two. *)
Definition withinBudget (cnt rst : RateLimitEntry → Z) (limit window : Z)
  (c : string) (a : Z) (acts : list Activity) (n : nat) (store : Store)
  : Prop :=
  (∀ e, store !! c = Some e → 0 ≤ cnt e ≤ limit) ∧
  Z.of_nat n ≤ 2 * limit ∧
  ((∃ t, t ∈ clockOf <$> acts ∧ a + window < t) ∨
   n = 0%nat ∨
   (∃ e, store !! c = Some e ∧ a ≤ rst e ≤ a + window ∧ Z.of_nat n ≤ cnt e) ∨
   (∃ e, store !! c = Some e ∧ a + window < rst e ∧
         Z.of_nat n ≤ limit + cnt e) ∨
   (store !! c = None ∧ Z.of_nat n ≤ limit ∧
    ∃ t, t ∈ clockOf <$> acts ∧ a < t)).

(** Clock readings that lie more than [gap] apart. *)
Definition apart (gap : Z) (ts : list Z) : Prop :=
  StronglySorted (λ x y, x + gap < y) ts.

(** The entry of a client whose requests so far, the last one at [t],
    came more than 6 s apart: each window has had room for its count. *)
Definition paced (e : RateLimitEntry) (t : Z) : Prop :=
  1 ≤ count e ∧ 1 ≤ burstCount e ∧
  resetTime e - windowMs + 6001 * (count e - 1) ≤ t ≤ resetTime e ∧
  burstResetTime e - burstWindowMs + 6001 * (burstCount e - 1) ≤ t
  ≤ burstResetTime e.

End RateLimiter.

(** ** src/index.ts: the middleware chain *)

Module App.
Import RateLimiter.

(** Where the mounts of index.ts send a request. *)
Inductive Mount := AuthRoutes | UserRoutes | CacheRoutes | Health.

(** The rate limiters on the way of a request: [app.use(rateLimiter)]
    is on every path, and [app.use('/auth', rateLimiter, authRoutes)]
    puts a second one in front of the auth router. *)
Definition limiters (m : Mount) : nat :=
  match m with
  | AuthRoutes => 2
  | UserRoutes | CacheRoutes | Health => 1
  end.

(** The limiters of a chain run one after the other, each reading the
    clock when it starts; one that answers 429 does not call [next()]
    and ends the chain. *)
Fixpoint throttle (store : Store) (ip : option string) (reads : list Z)
  : Store * Verdict :=
  match reads with
  | [] => (store, Next)
  | now :: reads' =>
      let r := rateLimiter store ip now in
      match r.2 with
      | Next => throttle r.1 ip reads'
      | TooMany _ _ => r
      end
  end.

(** A request under /auth, with the clock readings of its two passes. *)
Definition authRequest (store : Store) (ip : option string) (now1 now2 : Z)
  : Store * Verdict :=
  throttle store ip [now1; now2].

(** A request to any other mount. *)
Definition plainRequest (store : Store) (ip : option string) (now : Z)
  : Store * Verdict :=
  throttle store ip [now].

(** One client sending requests under /auth. *)
Fixpoint authRequests (store : Store) (ip : option string)
  (reads : list (Z * Z)) : Store * list Verdict :=
  match reads with
  | [] => (store, [])
  | (now1, now2) :: reads' =>
      let r := authRequest store ip now1 now2 in
      ((authRequests r.1 ip reads').1, r.2 :: (authRequests r.1 ip reads').2)
  end.

(** The clock readings of all the passes of a run of /auth requests. *)
Definition passes (reads : list (Z * Z)) : list Z :=
  flat_map (λ nn, [nn.1; nn.2]) reads.

End App.

(** ** src/types/index.ts *)

Module User.
(** [interface User]; [password] and [createdAt] are optional. *)
Record t := mk {
  id : Z;
  name : string;
  email : string;
  password : option string;
  createdAt : option string;
}.
End User.

Module UserResponse.
Record t := mk {
  id : Z;
  name : string;
  email : string;
  createdAt : option string;
}.
End UserResponse.

(** [interface CacheEntry]. *)
Record CacheEntry := mkCacheEntry {
  data : User.t;
  timestamp : Z;
}.

(** ** The lru-cache package, as src/config/cache.ts uses it

    The package is a dependency, not part of the repository.  The model
    follows its documented behaviour for the three options the source
    sets ([max], [ttl], [updateAgeOnGet]) and the defaults of the
    others: an entry is stale once its age exceeds [ttl]; [get] deletes
    a stale entry and returns nothing, and on a live entry makes it the
    most recently used and, under [updateAgeOnGet], resets its age;
    [set] restarts the age, and on a full cache first evicts the least
    recently used entry; [has] and the iterators skip stale entries.
    The clock of the package counts the same milliseconds as
    [Date.now()] from another origin; only differences of readings are
    used, so one clock serves both. *)

Module LRUCache.
Section WithValue.
Context {V : Type}.

Record Options := mkOptions {
  max : nat;
  ttl : Z;
  updateAgeOnGet : bool;
}.

(** An entry with the clock reading its age is counted from.  The
    cache is the list of its entries, from the least to the most
    recently used. *)
Record Slot := mkSlot {
  key : string;
  value : V;
  start : Z;
}.

Definition isStale (o : Options) (now : Z) (s : Slot) : bool :=
  negb (ttl o =? 0) && (ttl o <? now - start s).

Definition find (k : string) (c : list Slot) : option Slot :=
  List.find (λ s, bool_decide (key s = k)) c.

Definition delete (k : string) (c : list Slot) : list Slot :=
  filter (λ s, key s ≠ k) c.

(** The cache after [get], and the value it returns. *)
Definition get (o : Options) (now : Z) (k : string) (c : list Slot)
  : list Slot * option V :=
  match find k c with
  | None => (c, None)
  | Some s =>
      if isStale o now s then (delete k c, None)
      else
        (delete k c
           ++ [mkSlot k (value s) (if updateAgeOnGet o then now else start s)],
         Some (value s))
  end.

Definition set (o : Options) (now : Z) (k : string) (v : V) (c : list Slot)
  : list Slot :=
  match find k c with
  | Some _ => delete k c ++ [mkSlot k v now]
  | None =>
      (if Nat.eqb (length c) (max o) then tail c else c) ++ [mkSlot k v now]
  end.

Definition has (o : Options) (now : Z) (k : string) (c : list Slot) : bool :=
  match find k c with
  | Some s => negb (isStale o now s)
  | None => false
  end.

Definition clear (c : list Slot) : list Slot := [].

Definition size (c : list Slot) : nat := length c.

(** [entries()]: the live entries, the most recently used first. *)
Definition entries (o : Options) (now : Z) (c : list Slot)
  : list (string * V) :=
  (λ s, (key s, value s))
    <$> reverse (filter (λ s, isStale o now s = false) c).

(** The entries lie in the order of the clock readings their ages are
    counted from. *)
Definition usedInOrder (c : list Slot) : Prop :=
  StronglySorted (λ a b, start a ≤ start b) c.

End WithValue.
Arguments Slot : clear implicits.
End LRUCache.

(** ** src/config/cache.ts *)

Module CacheManager.

Definition CACHE_TTL : Z := 60 * 1000.

(** The options of [new LRUCache<string, CacheEntry>({...})]. *)
Definition options : LRUCache.Options :=
  LRUCache.mkOptions 1000 CACHE_TTL true.

Record Stats := mkStats {
  hits : Z;
  misses : Z;
  responseTimes : list Z;
}.

Record t := mk {
  cache : list (LRUCache.Slot CacheEntry);
  stats : Stats;
}.

Definition new : t := mk [] (mkStats 0 0 []).

Definition get (now : Z) (key : string) (m : t) : t * option User.t :=
  match LRUCache.get options now key (cache m) with
  | (c, Some entry) =>
      (mk c (mkStats (hits (stats m) + 1) (misses (stats m))
                     (responseTimes (stats m))),
       Some (data entry))
  | (c, None) =>
      (mk c (mkStats (hits (stats m)) (misses (stats m) + 1)
                     (responseTimes (stats m))),
       None)
  end.

Definition set (now : Z) (key : string) (data : User.t) (m : t) : t :=
  mk (LRUCache.set options now key (mkCacheEntry data now) (cache m)) (stats m).

Definition has (now : Z) (key : string) (m : t) : bool :=
  LRUCache.has options now key (cache m).

Definition clear (m : t) : t :=
  mk (LRUCache.clear (cache m)) (mkStats 0 0 []).

(** [push], then [shift] once more than 1000 times are kept. *)
Definition recordResponseTime (time : Z) (m : t) : t :=
  let times := responseTimes (stats m) ++ [time] in
  mk (cache m)
     (mkStats (hits (stats m)) (misses (stats m))
              (if (1000 <? length times)%nat then tail times else times)).

(** The loop of [cleanStaleEntries] over the pairs the iterator yields:
    it deletes the key of every pair stored more than [CACHE_TTL] ago. *)
Definition sweep (now : Z) (c : list (LRUCache.Slot CacheEntry))
  (live : list (string * CacheEntry)) : list (LRUCache.Slot CacheEntry) :=
  foldl (λ c kv, if CACHE_TTL <? now - timestamp kv.2
                 then LRUCache.delete kv.1 c else c) c live.

Definition cleanStaleEntries (now : Z) (m : t) : t :=
  mk (sweep now (cache m) (LRUCache.entries options now (cache m))) (stats m).

(** The fields [hits], [misses] and [size] of [getStats()]. *)
Definition getStats (m : t) : Z * Z * nat :=
  (hits (stats m), misses (stats m), LRUCache.size (cache m)).

(** The entry stored under a key, live or stale. *)
Definition stored (key : string) (m : t) : option CacheEntry :=
  LRUCache.value <$> LRUCache.find key (cache m).

(** The calls the rest of the program makes on the cache. *)
Inductive Op :=
| CallGet (now : Z) (key : string)
| CallSet (now : Z) (key : string) (data : User.t)
| CallHas (now : Z) (key : string)
| CallClear
| CallRecordResponseTime (time : Z)
| CallCleanStaleEntries (now : Z).

Definition step (m : t) (op : Op) : t :=
  match op with
  | CallGet now key => (get now key m).1
  | CallSet now key data => set now key data m
  | CallHas _ _ => m
  | CallClear => clear m
  | CallRecordResponseTime time => recordResponseTime time m
  | CallCleanStaleEntries now => cleanStaleEntries now m
  end.

Definition run (ops : list Op) : t := foldl step new ops.

(** The clock reading of a call, for the calls that read the clock. *)
Definition reading (op : Op) : option Z :=
  match op with
  | CallGet now _ | CallSet now _ _ | CallHas now _
  | CallCleanStaleEntries now => Some now
  | CallClear | CallRecordResponseTime _ => None
  end.

Definition readings (ops : list Op) : list Z := omap reading ops.

(** The reading at which a call uses the entry of [key]: a [set] of the
    key, or a [get] of the key that returns a value. *)
Definition uses (key : string) (m : t) (op : Op) : option Z :=
  match op with
  | CallSet now key' _ => if decide (key' = key) then Some now else None
  | CallGet now key' =>
      if decide (key' = key)
      then match (get now key' m).2 with Some _ => Some now | None => None end
      else None
  | CallHas _ _ | CallClear | CallRecordResponseTime _
  | CallCleanStaleEntries _ => None
  end.

(** The cache after the calls [ops], with the reading of the last use
    of [key] among them. *)
Definition track (key : string) (st : t * option Z) (op : Op) : t * option Z :=
  (step st.1 op,
   match uses key st.1 op with Some now => Some now | None => st.2 end).

Definition lastUse (key : string) (ops : list Op) : option Z :=
  (foldl (track key) (new, None) ops).2.

(** [n] entries stored under [n] different keys, one per millisecond. *)
Definition filled (n : nat) (user : User.t) : list Op :=
  (λ i : nat, CallSet (Z.of_nat i) (pretty i) user) <$> seq 0 n.

(** What every call keeps true of the cache: distinct keys, at most
    [max] entries, and ages counted from clock readings of past calls. *)
Definition cacheInv (ops : list Op) (m : t) : Prop :=
  NoDup (LRUCache.key <$> cache m) ∧
  (length (cache m) ≤ LRUCache.max options)%nat ∧
  (∀ s, s ∈ cache m → LRUCache.start s ∈ readings ops).

(** The answers of the [get] calls made since the last [clear], beside
    the cache the calls leave. *)
Definition log (st : t * list (option User.t)) (op : Op)
  : t * list (option User.t) :=
  (step st.1 op,
   match op with
   | CallGet now key => st.2 ++ [(get now key st.1).2]
   | CallClear => []
   | CallSet _ _ _ | CallHas _ _ | CallRecordResponseTime _
   | CallCleanStaleEntries _ => st.2
   end).

Definition answersSinceClear (ops : list Op) : list (option User.t) :=
  (foldl log (new, []) ops).2.

(** The times handed to [recordResponseTime] since the last [clear]. *)
Definition timesSinceClear (ops : list Op) : list Z :=
  foldl (λ ts op, match op with
                  | CallClear => []
                  | CallRecordResponseTime time => ts ++ [time]
                  | CallGet _ _ | CallSet _ _ _ | CallHas _ _
                  | CallCleanStaleEntries _ => ts
                  end) [] ops.

(** The calls that neither read nor write the entry of [key], nor empty
    the cache. *)
Definition untouched (key : string) (op : Op) : bool :=
  match op with
  | CallGet _ key' | CallSet _ key' _ => bool_decide (key' ≠ key)
  | CallClear => false
  | CallHas _ _ | CallRecordResponseTime _ | CallCleanStaleEntries _ => true
  end.

Definition isSet (op : Op) : bool :=
  match op with CallSet _ _ _ => true | _ => false end.

(** How many of the calls are [set] calls. *)
Definition setsIn (ops : list Op) : nat :=
  length (filter (λ op, isSet op = true) ops).

End CacheManager.

(** ** src/services/userService.ts

    [getUserById] and the callback of its timer, after the service has
    loaded its users.  A call runs without interruption from the test
    of [pendingRequests] to the [await] of the fetch promise, and the
    callback of the timer runs without interruption, so each is one
    transition.  The backing store is called when a fetch promise is
    created: its timer then looks the user up after [DB_DELAY_MS]. *)

Module UserService.

Definition DB_DELAY_MS : Z := 200.

(** How the promise that [getUserById] returned to a caller settles. *)
Inductive Outcome :=
| Returned (user : option User.t)
| Threw (message : string).

(** A fetch promise whose timer has not fired yet. *)
Record Fetch := mkFetch {
  promise : nat;
  fetched : Z;
}.

(** The two ways a caller is tied to a fetch promise: the caller that
    created it awaits it inside [try]/[catch]; a caller that found it in
    [pendingRequests] was handed the promise itself. *)
Inductive Role := Leader | Joiner.

Record Waiter := mkWaiter {
  caller : nat;
  awaited : nat;
  role : Role;
}.

Record t := mk {
  users : gmap Z User.t;
  pendingRequests : gmap Z nat;
  timers : list Fetch;
  waiters : list Waiter;
  storeCalls : nat;
}.

Definition init (users : gmap Z User.t) : t := mk users ∅ [] [] 0.

(** [getUserById(id)] up to its [await]; fetch promises are numbered in
    the order of their creation. *)
Definition getUserById (who : nat) (id : Z) (s : t) : t :=
  match pendingRequests s !! id with
  | Some p =>
      mk (users s) (pendingRequests s) (timers s)
         (waiters s ++ [mkWaiter who p Joiner]) (storeCalls s)
  | None =>
      let p := storeCalls s in
      mk (users s) (<[id := p]> (pendingRequests s))
         (timers s ++ [mkFetch p id])
         (waiters s ++ [mkWaiter who p Leader]) (S (storeCalls s))
  end.

(** What a waiter gets when its fetch promise is fulfilled with a user
    or rejected with [Error('User not found')]. *)
Definition deliver (found : option User.t) (w : Waiter) : nat * Outcome :=
  match found, role w with
  | Some user, _ => (caller w, Returned (Some user))
  | None, Leader => (caller w, Returned None)
  | None, Joiner => (caller w, Threw "User not found")
  end.

(** The callback of the timer of fetch promise [p]: it settles the
    promise from [this.users[id]], deletes the key from
    [pendingRequests], and the waiters of the promise resume. *)
Definition fire (p : nat) (s : t) : t * list (nat * Outcome) :=
  match List.find (λ f, bool_decide (promise f = p)) (timers s) with
  | None => (s, [])
  | Some f =>
      (mk (users s) (delete (fetched f) (pendingRequests s))
          (filter (λ f', promise f' ≠ p) (timers s))
          (filter (λ w, awaited w ≠ p) (waiters s))
          (storeCalls s),
       deliver (users s !! fetched f)
         <$> filter (λ w, awaited w = p) (waiters s))
  end.

(** [getUserResponse(user)]: the user without its password. *)
Definition getUserResponse (user : User.t) : UserResponse.t :=
  UserResponse.mk (User.id user) (User.name user) (User.email user)
                  (User.createdAt user).

(** The users of [initializeUsers], for a given password hash and
    creation date. *)
Definition defaultUsers (hashedPassword createdAt : string) : gmap Z User.t :=
  <[1 := User.mk 1 "John Doe" "john@example.com"
           (Some hashedPassword) (Some createdAt)]>
  (<[2 := User.mk 2 "Jane Smith" "jane@example.com"
            (Some hashedPassword) (Some createdAt)]>
   (<[3 := User.mk 3 "Alice Johnson" "alice@example.com"
             (Some hashedPassword) (Some createdAt)]> ∅)).

(** The default users with a bcrypt hash and a date filled in. *)
Definition sampleUsers : gmap Z User.t :=
  defaultUsers "$2a$10$N9qo8uLOickgx2ZMRZoMyeIjZAgcfl7p92ldGxad68LJZdL17lhWy"
               "2024-01-01T00:00:00.000Z".

(** Calls of [getUserById] and timers firing, in any order. *)
Inductive Event :=
| Call (who : nat) (id : Z)
| Fire (p : nat).

Definition step (st : t * list (nat * Outcome)) (ev : Event)
  : t * list (nat * Outcome) :=
  match ev with
  | Call who id => (getUserById who id st.1, st.2)
  | Fire p => ((fire p st.1).1, st.2 ++ (fire p st.1).2)
  end.

(** The service and the outcomes delivered so far, after the events. *)
Definition run (users : gmap Z User.t) (evs : list Event)
  : t * list (nat * Outcome) :=
  foldl step (init users, []) evs.

(** The backing-store calls for a key that are in flight. *)
Definition inFlight (id : Z) (s : t) : nat :=
  length (filter (λ f, fetched f = id) (timers s)).

(** While a fetch is in flight its key is registered, and no two
    fetches in flight have the same key. *)
Definition singleFlight (s : t) : Prop :=
  NoDup (fetched <$> timers s) ∧
  ∀ f, f ∈ timers s → is_Some (pendingRequests s !! fetched f).

(** What a caller of [getUserById(id)] is owed by the store: the user,
    or for an id without user null, which a caller that joined a
    pending fetch gets as the rejection of that fetch. *)
Definition owed (db : gmap Z User.t) (id : Z) (out : Outcome) : Prop :=
  out = Returned (db !! id) ∨
  (db !! id = None ∧ out = Threw "User not found").

(** What the calls and the timers keep true of the service: the fetch
    promises in flight are distinct and were created before, the ids
    registered as pending have their fetch in flight, and every waiter
    awaits the fetch of the id it called with. *)
Definition tracked (db : gmap Z User.t) (evs : list Event) (s : t) : Prop :=
  users s = db ∧
  NoDup (promise <$> timers s) ∧
  (∀ f, f ∈ timers s → (promise f < storeCalls s)%nat) ∧
  (∀ id p, pendingRequests s !! id = Some p → mkFetch p id ∈ timers s) ∧
  (∀ w, w ∈ waiters s →
        ∃ id, mkFetch (awaited w) id ∈ timers s ∧ Call (caller w) id ∈ evs).

Definition isCall (ev : Event) : bool :=
  match ev with Call _ _ => true | Fire _ => false end.

(** How many times [getUserById] was called. *)
Definition calls (evs : list Event) : nat :=
  length (filter (λ ev, isCall ev = true) evs).

(** ** The accounts: [getUserByEmail], [createUser] and [verifyLogin]

    [interface RegisterRequest] of src/types/index.ts. *)
Record RegisterRequest := mkRegisterRequest {
  name : string;
  email : string;
  password : string;
}.

(** [Object.values(this.users)]: the users in the ascending order of
    their keys, which is the order of the properties of an object whose
    keys are array indices, as the ids of the service are. *)
Definition byKey (a b : Z * User.t) : Prop := a.1 ≤ b.1.

Global Instance byKey_dec a b : Decision (byKey a b) := Z_le_dec a.1 b.1.

Definition values (users : gmap Z User.t) : list User.t :=
  (merge_sort byKey (map_to_list users)).*2.

(** The callback of the timer of [getUserByEmail]. *)
Definition getUserByEmail (email : string) (users : gmap Z User.t)
  : option User.t :=
  List.find (λ u, bool_decide (User.email u = email)) (values users).

(** [Math.max(0, ...Object.keys(this.users).map(Number)) + 1]. *)
Definition nextId (users : gmap Z User.t) : Z :=
  foldr Z.max 0 (map_to_list users).*1 + 1.

(** [createUser] runs in two transitions.  The first goes from the
    answer of [getUserByEmail] to the [await] of [hashPassword]: it
    throws, or has chosen the id of the new user. *)
Definition chooseId (req : RegisterRequest) (users : gmap Z User.t)
  : Z + string :=
  match getUserByEmail (email req) users with
  | Some _ => inr "Email already exists"
  | None => inl (nextId users)
  end.

(** The second follows [hashPassword], with the hash and the date of
    [new Date().toISOString()]: it writes the user under the id chosen
    before, and returns it without its password. *)
Definition storeUser (id : Z) (req : RegisterRequest)
  (hashedPassword createdAt : string) (users : gmap Z User.t)
  : gmap Z User.t * User.t :=
  (<[id := User.mk id (name req) (email req) (Some hashedPassword)
             (Some createdAt)]> users,
   User.mk id (name req) (email req) None (Some createdAt)).

(** A call of [createUser] that nothing interleaves with. *)
Definition createUser (req : RegisterRequest)
  (hashedPassword createdAt : string) (users : gmap Z User.t)
  : gmap Z User.t * Outcome :=
  match chooseId req users with
  | inr message => (users, Threw message)
  | inl id =>
      ((storeUser id req hashedPassword createdAt users).1,
       Returned (Some (storeUser id req hashedPassword createdAt users).2))
  end.

(** [verifyLogin], on the answer of [getUserByEmail]; [comparePassword]
    belongs to src/utils/auth.ts and is a parameter here.  A password
    that is missing or the empty string is falsy. *)
Definition verifyLogin (comparePassword : string → string → bool)
  (email password : string) (users : gmap Z User.t) : option User.t :=
  match getUserByEmail email users with
  | None => None
  | Some user =>
      match User.password user with
      | None => None
      | Some hash =>
          if bool_decide (hash = EmptyString) then None
          else if comparePassword password hash
               then Some (User.mk (User.id user) (User.name user)
                            (User.email user) None (User.createdAt user))
               else None
      end
  end.

(** No two users of the store have the same email. *)
Definition uniqueEmails (users : gmap Z User.t) : Prop :=
  ∀ i j u v, users !! i = Some u → users !! j = Some v →
             User.email u = User.email v → i = j.


End UserService.

(** ** src/queue/requestQueue.ts and src/routes/users.ts

    The handler of GET /users/:id, the queue it goes through and the
    service behind the queue.  A transition is the arrival of a
    request, the end of the 50 ms wait of a handler, or a fetch timer
    firing, each with the promise continuations it releases. *)

Module Server.

(** The body of a JSON response: the properties of the object given to
    [res.json], in their order. *)
Inductive JsonValue :=
| JNumber (n : Z)
| JString (s : string).

Record Response := mkResponse {
  status : Z;
  body : list (string * JsonValue);
}.

Definition optional (name : string) (v : option string)
  : list (string * JsonValue) :=
  match v with
  | Some s => [(name, JString s)]
  | None => []
  end.

(** [res.json(user)] for a [User] object as stored and cached. *)
Definition userJson (user : User.t) : list (string * JsonValue) :=
  [("id", JNumber (User.id user)); ("name", JString (User.name user));
   ("email", JString (User.email user))]
  ++ optional "password" (User.password user)
  ++ optional "createdAt" (User.createdAt user).

(** [res.json(userService.getUserResponse(user))]. *)
Definition userResponseJson (r : UserResponse.t) : list (string * JsonValue) :=
  [("id", JNumber (UserResponse.id r)); ("name", JString (UserResponse.name r));
   ("email", JString (UserResponse.email r))]
  ++ optional "createdAt" (UserResponse.createdAt r).

Definition errorJson (error message : string) : list (string * JsonValue) :=
  [("error", JString error); ("message", JString message)].

(** The template [`user:${userId}`]. *)
Definition cacheKey (userId : Z) : string := "user:" +:+ pretty userId.

(** An element of the queue: the id to look up, with the request whose
    handler holds the promise and the [startTime] of that handler. *)
Record QueuedRequest := mkQueued {
  request : nat;
  userId : Z;
  startTime : Z;
}.

Record t := mk {
  cache : CacheManager.t;
  userService : UserService.t;
  queue : list QueuedRequest;
  processing : bool;
  awaiting : option QueuedRequest;
  sleeping : list QueuedRequest;
  responses : list (nat * Response);
}.

Definition init (users : gmap Z User.t) : t :=
  mk CacheManager.new (UserService.init users) [] false None [] [].

Definition respond (r : nat) (resp : Response) (s : t) : t :=
  mk (cache s) (userService s) (queue s) (processing s) (awaiting s)
     (sleeping s) (responses s ++ [(r, resp)]).

Definition withCache (c : CacheManager.t) (s : t) : t :=
  mk c (userService s) (queue s) (processing s) (awaiting s)
     (sleeping s) (responses s).

(** One turn of the [while] loop of [processQueue]: it takes the first
    element and calls [getUserById], or ends the loop. *)
Definition nextInQueue (s : t) : t :=
  match queue s with
  | [] =>
      mk (cache s) (userService s) [] false None (sleeping s) (responses s)
  | q :: rest =>
      mk (cache s)
         (UserService.getUserById (request q) (userId q) (userService s))
         rest true (Some q) (sleeping s) (responses s)
  end.

Definition processQueue (s : t) : t :=
  if processing s || bool_decide (queue s = []) then s else nextInQueue s.

Definition enqueue (q : QueuedRequest) (s : t) : t :=
  processQueue
    (mk (cache s) (userService s) (queue s ++ [q]) (processing s)
        (awaiting s) (sleeping s) (responses s)).

(** The handler after [await requestQueue.enqueue(userId)]. *)
Definition afterEnqueue (q : QueuedRequest) (o : UserService.Outcome)
  (now : Z) (s : t) : t :=
  match o with
  | UserService.Returned None =>
      respond (request q)
        (mkResponse 404
           (errorJson "User not found"
              ("User with ID " +:+ pretty (userId q) +:+ " does not exist")))
        s
  | UserService.Returned (Some user) =>
      respond (request q)
        (mkResponse 200
           (userResponseJson (UserService.getUserResponse user)))
        (withCache
           (CacheManager.recordResponseTime (now - startTime q)
              (CacheManager.set now (cacheKey (userId q)) user (cache s)))
           s)
  | UserService.Threw _ =>
      respond (request q)
        (mkResponse 500
           (errorJson "Internal server error" "Failed to fetch user data"))
        (withCache
           (CacheManager.recordResponseTime (now - startTime q) (cache s)) s)
  end.

(** [processQueue] after its [await]: it resolves or rejects the
    promise of the element and goes on with the loop. *)
Definition resume (now : Z) (s : t) (co : nat * UserService.Outcome) : t :=
  match awaiting s with
  | Some q =>
      if bool_decide (request q = co.1)
      then nextInQueue (afterEnqueue q co.2 now s)
      else s
  | None => s
  end.

(** The handler from [cache.get] on, for a handler that started at
    [startTime] and reads the clock [now]. *)
Definition lookup (q : QueuedRequest) (now : Z) (s : t) : option t :=
  match CacheManager.get now (cacheKey (userId q)) (cache s) with
  | (c, Some user) =>
      Some (respond (request q) (mkResponse 200 (userJson user))
              (withCache
                 (CacheManager.recordResponseTime (now - startTime q) c) s))
  | (c, None) => None
  end.

Definition missed (q : QueuedRequest) (now : Z) (s : t) : t :=
  withCache (CacheManager.get now (cacheKey (userId q)) (cache s)).1 s.

Inductive Event :=
| Request (r : nat) (id : option Z) (now : Z)
| Wake (r : nat) (now : Z)
| Timer (p : nat) (now : Z).

Definition step (s : t) (ev : Event) : t :=
  match ev with
  | Request r None _ =>
      respond r
        (mkResponse 400
           (errorJson "Invalid user ID" "User ID must be a valid number")) s
  | Request r (Some id) now =>
      let q := mkQueued r id now in
      match lookup q now s with
      | Some answered => answered
      | None =>
          let s1 := missed q now s in
          if CacheManager.has now (cacheKey id) (cache s1)
          then mk (cache s1) (userService s1) (queue s1) (processing s1)
                  (awaiting s1) (sleeping s1 ++ [q]) (responses s1)
          else enqueue q s1
      end
  | Wake r now =>
      match List.find (λ q, bool_decide (request q = r)) (sleeping s) with
      | None => s
      | Some q =>
          let s1 := mk (cache s) (userService s) (queue s) (processing s)
                       (awaiting s)
                       (filter (λ q', request q' ≠ r) (sleeping s))
                       (responses s) in
          match lookup q now s1 with
          | Some answered => answered
          | None => enqueue q (missed q now s1)
          end
      end
  | Timer p now =>
      let fired := UserService.fire p (userService s) in
      foldl (resume now)
        (mk (cache s) fired.1 (queue s) (processing s) (awaiting s)
            (sleeping s) (responses s))
        fired.2
  end.

Definition run (users : gmap Z User.t) (evs : list Event) : t :=
  foldl step (init users) evs.

(** [n] requests for the same id that arrive together at [now], and the
    timers of the fetches that follow, [DB_DELAY_MS] apart. *)
Definition simultaneous (n : nat) (id : Z) (now : Z) : list Event :=
  ((λ r : nat, Request r (Some id) now) <$> seq 0 n)
  ++ ((λ p : nat, Timer p (now + UserService.DB_DELAY_MS * Z.of_nat (S p)))
        <$> seq 0 n).

(** The queue keeps the service serial: the loop is idle and nothing is
    pending, or the loop awaits one element and the only fetch in
    flight is the one it started for that element. *)
Definition serial (s : t) : Prop :=
  match awaiting s with
  | None =>
      processing s = false ∧ queue s = [] ∧
      UserService.timers (userService s) = [] ∧
      UserService.pendingRequests (userService s) = ∅ ∧
      UserService.waiters (userService s) = []
  | Some q =>
      processing s = true ∧
      ∃ p, UserService.timers (userService s)
           = [UserService.mkFetch p (userId q)] ∧
           UserService.pendingRequests (userService s) = {[userId q := p]} ∧
           UserService.waiters (userService s)
           = [UserService.mkWaiter (request q) p UserService.Leader]
  end.

(** The state while the loop of the queue awaits the fetch of request
    [k], of [n] requests for [id] that arrived together at [now]: the
    requests after [k] wait in the queue, those before it are answered
    with [resp]. *)
Definition fetching (db : gmap Z User.t) (id now : Z) (resp : Response)
  (n k : nat) (s : t) : Prop :=
  userService s
  = UserService.mk db {[id := k]} [UserService.mkFetch k id]
      [UserService.mkWaiter k k UserService.Leader] (S k) ∧
  queue s = (λ r : nat, mkQueued r id now) <$> seq (S k) (n - S k) ∧
  processing s = true ∧
  awaiting s = Some (mkQueued k id now) ∧
  (responses s).*2 = replicate k resp.

(** ** The other users of the cache: src/routes/cache.ts and src/index.ts

    The cache of the handler is the one that DELETE /cache clears and
    that the 30 s task of index.ts sweeps; both run between the
    transitions of the handlers.  The users of the store stay as they
    are: POST /users and the /auth routes are not among the tasks. *)
Inductive Task :=
| Handle (ev : Event)
| ClearCache
| CleanStale (now : Z).

Definition perform (s : t) (task : Task) : t :=
  match task with
  | Handle ev => step s ev
  | ClearCache => withCache (CacheManager.clear (cache s)) s
  | CleanStale now =>
      withCache (CacheManager.cleanStaleEntries now (cache s)) s
  end.

Definition runTasks (users : gmap Z User.t) (tasks : list Task) : t :=
  foldl perform (init users) tasks.

(** The responses of the handler for the [:id] of a request and the
    users of the store: 400 for an id that is no number, 404 for a
    number without user, and 200 with the user, as the cache or as the
    miss path sends it. *)
Definition answers (db : gmap Z User.t) (id : option Z) (resp : Response)
  : Prop :=
  match id with
  | None =>
      resp = mkResponse 400
               (errorJson "Invalid user ID" "User ID must be a valid number")
  | Some id =>
      match db !! id with
      | None =>
          resp = mkResponse 404
                   (errorJson "User not found"
                      ("User with ID " +:+ pretty id +:+ " does not exist"))
      | Some user =>
          resp = mkResponse 200 (userJson user) ∨
          resp = mkResponse 200
                   (userResponseJson (UserService.getUserResponse user))
      end
  end.

(** Request [r] arrived with [id] among the tasks. *)
Definition requested (tasks : list Task) (r : nat) (id : option Z) : Prop :=
  ∃ now, Handle (Request r id now) ∈ tasks.

Definition isRequest (task : Task) : bool :=
  match task with Handle (Request _ _ _) => true | _ => false end.

Definition isTimer (task : Task) : bool :=
  match task with Handle (Timer _ _) => true | _ => false end.

(** How many requests arrived, and how many of them are with the queue:
    in it, or the one whose fetch its loop awaits. *)
Definition arrivals (tasks : list Task) : nat :=
  length (filter (λ task, isRequest task = true) tasks).

Definition held (s : t) : nat :=
  (length (queue s) + match awaiting s with Some _ => 1 | None => 0 end)%nat.

(** Every entry of the cache is a user of the store under the key of
    its id. *)
Definition coherent (db : gmap Z User.t) (m : CacheManager.t) : Prop :=
  ∀ slot, slot ∈ CacheManager.cache m →
    ∃ id, LRUCache.key slot = cacheKey id ∧
          db !! id = Some (data (LRUCache.value slot)).

(** What the handlers, the queue and the cache keep true together. *)
Definition sound (db : gmap Z User.t) (tasks : list Task) (s : t) : Prop :=
  serial s ∧
  sleeping s = [] ∧
  UserService.users (userService s) = db ∧
  coherent db (cache s) ∧
  (∀ q, q ∈ queue s ∨ awaiting s = Some q →
        requested tasks (request q) (Some (userId q))) ∧
  (∀ r resp, (r, resp) ∈ responses s →
             ∃ id, requested tasks r id ∧ answers db id resp) ∧
  (length (responses s) + held s = arrivals tasks)%nat.

(** The request that a task sends to the queue: one with a number that
    misses the cache; and the requests answered when a task is a timer
    that fires. *)
Definition queuedBy (s : t) (task : Task) : list nat :=
  match task with
  | Handle (Request r (Some id) now) =>
      match (CacheManager.get now (cacheKey id) (cache s)).2 with
      | Some _ => []
      | None => [r]
      end
  | _ => []
  end.

Definition answeredBy (s : t) (task : Task) : list nat :=
  match task with
  | Handle (Timer p now) =>
      (drop (length (responses s)) (responses (step s (Timer p now)))).*1
  | _ => []
  end.

(** The server after the tasks, with the requests that went to the
    queue and those that the queue has answered, each in their order. *)
Definition follow (st : t * list nat * list nat) (task : Task)
  : t * list nat * list nat :=
  (perform st.1.1 task,
   st.1.2 ++ queuedBy st.1.1 task,
   st.2 ++ answeredBy st.1.1 task).

Definition sentToQueue (users : gmap Z User.t) (tasks : list Task) : list nat :=
  (foldl follow (init users, [], []) tasks).1.2.

Definition answeredByQueue (users : gmap Z User.t) (tasks : list Task)
  : list nat :=
  (foldl follow (init users, [], []) tasks).2.

(** The requests that the queue holds, the one whose fetch is awaited
    first. *)
Definition waiting (s : t) : list nat :=
  request <$> (match awaiting s with Some q => [q] | None => [] end ++ queue s).

End Server.

(* ===================================================================== *)
(** * Theorems                                                            *)
(* ===================================================================== *)

(** Turns the boolean tests of the source into arithmetic facts. *)
Ltac zbool :=
  repeat match goal with
  | H : (_ <? _) = true |- _ => apply Z.ltb_lt in H
  | H : (_ <? _) = false |- _ => apply Z.ltb_ge in H
  | H : (_ <=? _) = true |- _ => apply Z.leb_le in H
  | H : (_ <=? _) = false |- _ => apply Z.leb_gt in H
  end.

(** Splits on every test of the middleware and drops the cases the
    hypotheses exclude. *)
Ltac limiter_cases :=
  unfold RateLimiter.rateLimiter, RateLimiter.fetchEntry,
    RateLimiter.resetSustained, RateLimiter.resetBurst,
    RateLimiter.maxRequests, RateLimiter.burstMax,
    RateLimiter.windowMs, RateLimiter.burstWindowMs in *;
  repeat (case_match; simpl in * ); zbool; simpl in *; try lia.

Section RateLimiterFacts.
Import RateLimiter.

Implicit Types (store : Store) (ip : option string) (now : Z).

Lemma ceilSeconds_pos ms : 0 < ms → 0 < ceilSeconds ms.
Proof.
  intros H. unfold ceilSeconds.
  assert ((- ms) / 1000 < 0) by (apply Z.div_lt_upper_bound; lia).
  lia.
Qed.

Lemma ceilSeconds_zero : ceilSeconds 0 = 0.
Proof. reflexivity. Qed.

(** The middleware writes one key only. *)
Lemma rateLimiter_other store ip now c :
  c ≠ clientIdOf ip → (rateLimiter store ip now).1 !! c = store !! c.
Proof.
  intros Hne. unfold rateLimiter.
  repeat case_match; simpl; by rewrite lookup_insert_ne.
Qed.

(** Its verdict and the entry it leaves depend on that key only. *)
Lemma rateLimiter_local store1 store2 ip now :
  store1 !! clientIdOf ip = store2 !! clientIdOf ip →
  (rateLimiter store1 ip now).2 = (rateLimiter store2 ip now).2 ∧
  (rateLimiter store1 ip now).1 !! clientIdOf ip
  = (rateLimiter store2 ip now).1 !! clientIdOf ip.
Proof.
  intros Heq. unfold rateLimiter, fetchEntry. rewrite Heq.
  repeat case_match; simpl; by rewrite !lookup_insert_eq.
Qed.

Lemma serve_app store reqs1 reqs2 :
  serve store (reqs1 ++ reqs2)
  = ((serve (serve store reqs1).1 reqs2).1,
     (serve store reqs1).2 ++ (serve (serve store reqs1).1 reqs2).2).
Proof.
  revert store. induction reqs1 as [|[ip now] reqs1 IH]; intros store; simpl.
  - by destruct (serve store reqs2).
  - by rewrite IH.
Qed.

Lemma requests_app store ip ts1 ts2 :
  requests store ip (ts1 ++ ts2)
  = ((requests (requests store ip ts1).1 ip ts2).1,
     (requests store ip ts1).2 ++ (requests (requests store ip ts1).1 ip ts2).2).
Proof. unfold requests. by rewrite fmap_app, serve_app. Qed.

Lemma requests_one store ip now :
  requests store ip [now]
  = ((rateLimiter store ip now).1, [(rateLimiter store ip now).2]).
Proof. reflexivity. Qed.

(** A request inside the sustained window, below its limit, that finds
    the burst window over or below its limit, is let through. *)
Lemma rateLimiter_lets_through store ip now e :
  store !! clientIdOf ip = Some e →
  now ≤ resetTime e → count e < maxRequests →
  burstResetTime e < now ∨ burstCount e < burstMax →
  ∃ e', rateLimiter store ip now = (<[clientIdOf ip := e']> store, Next) ∧
        count e' = count e + 1 ∧ resetTime e' = resetTime e ∧
        ((now ≤ burstResetTime e ∧ burstCount e' = burstCount e + 1 ∧
          burstResetTime e' = burstResetTime e) ∨
         (burstResetTime e < now ∧ burstCount e' = 1 ∧
          burstResetTime e' = now + burstWindowMs)).
Proof.
  intros Hs Hr Hc Hb. unfold rateLimiter, fetchEntry. rewrite Hs.
  limiter_cases; eexists; (split; [reflexivity|]); simpl; lia.
Qed.

(** The first request of a client opens both windows and is let through. *)
Lemma rateLimiter_first store ip now :
  store !! clientIdOf ip = None →
  rateLimiter store ip now
  = (<[clientIdOf ip := mkEntry 1 (now + windowMs) 1 (now + burstWindowMs)]> store,
     Next).
Proof.
  intros Hs. unfold rateLimiter, fetchEntry. rewrite Hs.
  limiter_cases; reflexivity.
Qed.

(** A request inside a full burst window is turned away, and the entry
    stays as it is. *)
Lemma rateLimiter_burst_full store ip now e :
  store !! clientIdOf ip = Some e →
  now ≤ resetTime e → now ≤ burstResetTime e → burstMax ≤ burstCount e →
  rateLimiter store ip now
  = (<[clientIdOf ip := e]> store,
     TooMany burstMessage (ceilSeconds (burstResetTime e - now))).
Proof.
  intros Hs Hr Hb Hc. unfold rateLimiter, fetchEntry. rewrite Hs.
  limiter_cases; reflexivity.
Qed.

(** A request inside a full sustained window is turned away. *)
Lemma rateLimiter_rejects_full store ip now e :
  store !! clientIdOf ip = Some e →
  now ≤ resetTime e → maxRequests ≤ count e →
  ∃ msg r, (rateLimiter store ip now).2 = TooMany msg r.
Proof.
  intros Hs Hr Hc. unfold rateLimiter, fetchEntry. rewrite Hs.
  limiter_cases; eauto.
Qed.

(** A request inside both windows and below both limits is let through
    and adds one to each counter. *)
Lemma rateLimiter_inside store ip now e :
  store !! clientIdOf ip = Some e →
  now ≤ resetTime e → now ≤ burstResetTime e →
  count e < maxRequests → burstCount e < burstMax →
  rateLimiter store ip now
  = (<[clientIdOf ip :=
         mkEntry (count e + 1) (resetTime e) (burstCount e + 1) (burstResetTime e)]>
       store, Next).
Proof.
  intros Hs Hr Hb Hc Hbc. unfold rateLimiter, fetchEntry. rewrite Hs.
  limiter_cases; reflexivity.
Qed.

Lemma spaced_prefix ts t : spaced (ts ++ [t]) → spaced ts.
Proof.
  intros Hsp i x y Hx Hy. apply (Hsp i x y); by apply lookup_app_l_Some.
Qed.

Lemma requests_spaced store ip ts t0 :
  store !! clientIdOf ip = None →
  ts !! 0%nat = Some t0 →
  (∀ t, t ∈ ts → t ≤ t0 + windowMs) →
  (length ts ≤ 10)%nat →
  spaced ts →
  (requests store ip ts).2 = replicate (length ts) Next ∧
  ∃ e, (requests store ip ts).1 !! clientIdOf ip = Some e ∧ windowsAfter ts e.
Proof.
  intros Hnew. induction ts as [|t ts IH] using rev_ind; [done|].
  intros H0 Hwin Hlen Hsp. rewrite length_app in Hlen. simpl in Hlen.
  rewrite requests_app, requests_one. cbn [fst snd].
  destruct ts as [|t1 ts].
  - simpl in *. simplify_eq. rewrite rateLimiter_first by done. simpl.
    split; [done|]. rewrite lookup_insert_eq. eexists. split; [done|].
    unfold windowsAfter, burstMax. simpl. split_and!; [done|eauto|].
    exists 0%nat, t0. split_and!; done || lia.
  - assert ((t1 :: ts) !! 0%nat = Some t0) as H0' by done.
    destruct IH as (Hvs & e & He & Hcount & (t0' & Ht0' & Hreset) & (s & w & Hs & Hbr & Hbc & Hb5));
      [done| |lia|by eapply spaced_prefix|].
    { intros t' Hin. apply Hwin. apply elem_of_app. by left. }
    assert (t0' = t0) as -> by congruence.
    set (l := t1 :: ts) in *.
    assert (t ≤ t0 + windowMs) as Ht by (apply Hwin; set_solver).
    assert (burstResetTime e < t ∨ burstCount e < burstMax) as Hburst.
    { unfold burstMax in *.
      destruct (decide (burstCount e < 5)) as [|Hfull]; [by right|left].
      assert (length l = (s + 5)%nat) as Hl by lia.
      rewrite Hbr. apply (Hsp s w t).
      - by apply lookup_app_l_Some.
      - rewrite <- Hl. by rewrite list_lookup_middle. }
    destruct (rateLimiter_lets_through _ ip t e He) as (e' & -> & Hc' & Hr' & Hb');
      [lia|unfold maxRequests; lia|done|].
    cbn [fst snd]. rewrite Hvs, length_app. cbn [length].
    split.
    { rewrite Nat.add_1_r. by rewrite replicate_S_end. }
    rewrite lookup_insert_eq. exists e'. split; [done|].
    unfold windowsAfter. rewrite length_app. cbn [length].
    split_and!; [lia|exists t0; split; [done|congruence]|].
    destruct Hb' as [(Hin & Hb1 & Hb2)|(Hout & Hb1 & Hb2)].
    + exists s, w. split_and!.
      * by apply lookup_app_l_Some.
      * congruence.
      * lia.
      * unfold burstMax in *. destruct Hburst; lia.
    + exists (length l), t. split_and!.
      * by rewrite list_lookup_middle.
      * done.
      * lia.
      * unfold burstMax. lia.
Qed.

(** The verdicts a client gets do not depend on what the store holds for
    other clients, nor on their requests in between. *)
Lemma serve_isolated (c : string) reqs store1 store2 :
  store1 !! c = store2 !! c →
  verdictsFor c reqs (serve store1 reqs).2 = (serve store2 (sentBy c reqs)).2.
Proof.
  revert store1 store2. unfold verdictsFor, sentBy.
  induction reqs as [|[ip now] reqs IH]; intros store1 store2 Heq; [done|].
  simpl. destruct (decide (clientIdOf ip = c)) as [<-|Hne].
  - rewrite !filter_cons_True by done. simpl.
    destruct (rateLimiter_local store1 store2 ip now Heq) as [-> Hst].
    f_equal. by apply IH.
  - rewrite !filter_cons_False by done. apply IH.
    rewrite rateLimiter_other by done. done.
Qed.

(** Six requests of a new client inside the burst window that the first
    one opens: five are let through, the sixth is turned away by the
    burst limit with the seconds left to the end of that window. *)
Lemma requests_burst store ip (t1 t2 t3 t4 t5 t6 : Z) :
  store !! clientIdOf ip = None →
  t1 ≤ t2 ≤ t3 → t3 ≤ t4 ≤ t5 → t5 ≤ t6 ≤ t1 + burstWindowMs →
  (requests store ip [t1; t2; t3; t4; t5; t6]).2
  = [Next; Next; Next; Next; Next;
     TooMany burstMessage (ceilSeconds (t1 + burstWindowMs - t6))].
Proof.
  intros Hnew H12 H34 H56. unfold requests. unfold burstWindowMs in H56.
  cbn [fmap list_fmap serve fst snd].
  rewrite rateLimiter_first by done. cbn [fst snd].
  do 4 (erewrite rateLimiter_inside;
        [|apply lookup_insert_eq
         |unfold windowMs; cbn [resetTime]; lia
         |unfold burstWindowMs; cbn [burstResetTime]; lia
         |unfold maxRequests; cbn [count]; lia
         |unfold burstMax; cbn [burstCount]; lia];
        cbn [fst snd count resetTime burstCount burstResetTime]; rewrite insert_insert_eq).
  erewrite rateLimiter_burst_full;
    [|apply lookup_insert_eq
     |unfold windowMs; cbn [resetTime]; lia
     |unfold burstWindowMs; cbn [burstResetTime]; lia
     |unfold burstMax; cbn [burstCount]; lia].
  reflexivity.
Qed.

(** At the very end of the burst window the sixth request is still
    turned away, with no second left to wait. *)
Lemma requests_burst_boundary store ip (t : Z) :
  store !! clientIdOf ip = None →
  (requests store ip [t; t; t; t; t; t + burstWindowMs]).2
  = [Next; Next; Next; Next; Next; TooMany burstMessage 0].
Proof.
  intros Hnew. rewrite requests_burst by (done || unfold burstWindowMs; lia).
  by replace (t + burstWindowMs - (t + burstWindowMs)) with 0 by lia.
Qed.

(** C6. Starting from no window state for the client: (1) of six
    requests inside the 10 s that follow the first, five are let through
    and the sixth is turned away with a positive [retryAfter]; (2) of
    eleven requests inside the 60 s that follow the first, any one and
    the fifth after it being more than 10 s apart among the first ten,
    ten are let through and the eleventh is turned away; (3) in any
    stream of requests of several clients, the verdicts of one client
    are those it gets when its own requests are the only ones. *)
Theorem burst_and_sustained_admission
  store ip (t1 t2 t3 t4 t5 t6 : Z) (ts : list Z) (t0 t11 : Z) :
  store !! clientIdOf ip = None →
  t1 ≤ t2 ≤ t3 → t3 ≤ t4 ≤ t5 → t5 ≤ t6 < t1 + burstWindowMs →
  length ts = 10%nat → ts !! 0%nat = Some t0 →
  Forall (λ t, t0 ≤ t ≤ t0 + windowMs) (ts ++ [t11]) → spaced ts →
  ((requests store ip [t1; t2; t3; t4; t5; t6]).2
   = [Next; Next; Next; Next; Next;
      TooMany burstMessage (ceilSeconds (t1 + burstWindowMs - t6))] ∧
   0 < ceilSeconds (t1 + burstWindowMs - t6)) ∧
  (∃ msg r, (requests store ip (ts ++ [t11])).2
            = replicate 10 Next ++ [TooMany msg r]) ∧
  (∀ (c : string) reqs store',
     verdictsFor c reqs (serve store' reqs).2 = (serve store' (sentBy c reqs)).2).
Proof.
  intros Hnew H12 H34 H56 Hlen H0 Hwin Hsp. split_and!.
  - apply requests_burst; done || lia.
  - apply ceilSeconds_pos. lia.
  - rewrite Forall_app, Forall_singleton in Hwin. destruct Hwin as [Hts H11].
    rewrite Forall_forall in Hts.
    destruct (requests_spaced store ip ts t0) as (Hvs & e & He & Hinv);
      [done|done|intros t Ht; by apply Hts|lia|done|].
    destruct Hinv as (Hcount & (t0' & Ht0' & Hreset) & _).
    assert (t0' = t0) as -> by congruence.
    destruct (rateLimiter_rejects_full _ ip t11 e He) as (msg & r & Hrej);
      [lia|unfold maxRequests; lia|].
    exists msg, r. rewrite requests_app, requests_one. cbn [fst snd].
    by rewrite Hvs, Hlen, Hrej.
  - intros c reqs store'. by apply serve_isolated.
Qed.

Lemma burst_and_sustained_admission_witness :
  ((requests ∅ (Some "10.0.0.7") [1000; 2000; 3000; 4000; 5000; 6000]).2
   = [Next; Next; Next; Next; Next; TooMany burstMessage 5] ∧ 0 < 5) ∧
  (∃ msg r,
     (requests ∅ (Some "10.0.0.7")
        ([1000; 1001; 1002; 1003; 1004;
          12000; 12001; 12002; 12003; 12004] ++ [13000])).2
     = replicate 10 Next ++ [TooMany msg r]).
Proof.
  destruct (burst_and_sustained_admission ∅ (Some "10.0.0.7")
              1000 2000 3000 4000 5000 6000
              [1000; 1001; 1002; 1003; 1004; 12000; 12001; 12002; 12003; 12004]
              1000 13000) as (Hb & Hs & _).
  - reflexivity.
  - lia.
  - lia.
  - unfold burstWindowMs. lia.
  - reflexivity.
  - reflexivity.
  - unfold windowMs. repeat (constructor; [lia|]). constructor.
  - intros i x y Hx Hy. unfold burstWindowMs. rewrite Nat.add_comm in Hy.
    do 5 (destruct i as [|i]; [simpl in *; simplify_eq; lia|]).
    discriminate.
  - exact (conj Hb Hs).
Defined.

(** The entry a pass leaves in the store, from the entry it found. *)
Lemma rateLimiter_effect store ip now :
  let old := fetchEntry store (clientIdOf ip) now in
  let count0 := if resetTime old <? now then 0 else count old in
  let resetTime0 := if resetTime old <? now then now + windowMs else resetTime old in
  let burst0 := if burstResetTime old <? now then 0 else burstCount old in
  let burstResetTime0 :=
    if burstResetTime old <? now then now + burstWindowMs else burstResetTime old in
  match (rateLimiter store ip now).2 with
  | Next =>
      (rateLimiter store ip now).1 !! clientIdOf ip
      = Some (mkEntry (count0 + 1) resetTime0 (burst0 + 1) burstResetTime0)
  | TooMany _ _ =>
      (rateLimiter store ip now).1 !! clientIdOf ip
      = Some (mkEntry count0 resetTime0 burst0 burstResetTime0)
  end.
Proof.
  unfold rateLimiter, resetSustained, resetBurst.
  destruct (fetchEntry store (clientIdOf ip) now) as [c r b br]. simpl.
  repeat (case_match; simpl in * ); simplify_eq;
    by rewrite lookup_insert_eq.
Qed.

(** C7. A request the middleware lets through adds one to the
    sustained counter and one to the burst counter of its client; a
    request it turns away, for either window, changes neither.  In both
    cases the counters are taken after the lazy resets: a counter whose
    window is over at [now] restarts from 0 with a new reset time. *)
Theorem passed_increments_both_rejected_neither store ip now :
  let old := fetchEntry store (clientIdOf ip) now in
  let count0 := if resetTime old <? now then 0 else count old in
  let resetTime0 := if resetTime old <? now then now + windowMs else resetTime old in
  let burst0 := if burstResetTime old <? now then 0 else burstCount old in
  let burstResetTime0 :=
    if burstResetTime old <? now then now + burstWindowMs else burstResetTime old in
  match (rateLimiter store ip now).2 with
  | Next =>
      (rateLimiter store ip now).1 !! clientIdOf ip
      = Some (mkEntry (count0 + 1) resetTime0 (burst0 + 1) burstResetTime0)
  | TooMany _ _ =>
      (rateLimiter store ip now).1 !! clientIdOf ip
      = Some (mkEntry count0 resetTime0 burst0 burstResetTime0)
  end.
Proof. apply rateLimiter_effect. Qed.

(** C9. The sweep removes the state of a client exactly when its
    sustained and its burst reset time are both strictly before the time
    of the sweep; a client with a window still running keeps its state
    unchanged, and the sweep creates no state. *)
Theorem cleanup_removes_iff_both_expired store now (c : string) :
  match store !! c with
  | Some e =>
      (cleanupRateLimitStore store now !! c = None
       ↔ resetTime e < now ∧ burstResetTime e < now) ∧
      (cleanupRateLimitStore store now !! c = Some e
       ↔ now ≤ resetTime e ∨ now ≤ burstResetTime e)
  | None => cleanupRateLimitStore store now !! c = None
  end.
Proof.
  unfold cleanupRateLimitStore.
  destruct (store !! c) as [e|] eqn:Hc.
  - split.
    + rewrite map_lookup_filter_None. unfold bothExpired. simpl. split.
      * intros [?|Hall]; [congruence|]. specialize (Hall e Hc).
        destruct (resetTime e <? now) eqn:?, (burstResetTime e <? now) eqn:?;
          simpl in Hall; try done; zbool; lia.
      * intros [??]. right. intros x ?. simplify_eq.
        apply not_false_iff_true, andb_true_iff. split; by apply Z.ltb_lt.
    + rewrite map_lookup_filter_Some. unfold bothExpired. simpl.
      rewrite andb_false_iff, !Z.ltb_ge. split; [by intros [_ ?]|by split].
  - apply map_lookup_filter_None. by left.
Qed.

End RateLimiterFacts.

Section RateLimiterStoreFacts.
Import RateLimiter.

Implicit Types (store : Store) (ip : option string) (now : Z).

Lemma ceilSeconds_range ms k :
  0 ≤ ms ≤ 1000 * k → 0 ≤ ceilSeconds ms ≤ k.
Proof.
  intros [H0 Hk]. unfold ceilSeconds. split.
  - assert ((- ms) / 1000 ≤ 0); [|lia].
    apply Z.div_le_upper_bound; lia.
  - assert (- k ≤ (- ms) / 1000); [|lia].
    apply Z.div_le_lower_bound; lia.
Qed.

(** The verdict, read off the entry the request finds. *)
Lemma rateLimiter_verdict store ip now :
  let e := fetchEntry store (clientIdOf ip) now in
  (rateLimiter store ip now).2 = Next
  ↔ ¬ (now ≤ burstResetTime e ∧ burstMax ≤ burstCount e) ∧
    ¬ (now ≤ resetTime e ∧ maxRequests ≤ count e).
Proof.
  cbv zeta. unfold rateLimiter, resetSustained, resetBurst, burstMax, maxRequests.
  destruct (fetchEntry store (clientIdOf ip) now) as [c r b br].
  cbn [count resetTime burstCount burstResetTime].
  repeat (case_match; cbn [count resetTime burstCount burstResetTime snd] in * );
    zbool; split; try done; try lia; intros [H1 H2]; exfalso; lia.
Qed.

Lemma storeAfter_snoc acts a : storeAfter (acts ++ [a]) = act (storeAfter acts) a.
Proof. unfold storeAfter. by rewrite foldl_app. Qed.

(** What the store holds for a client after a pass, from what the pass
    found: the entry of the client is rewritten, the others stay. *)
Lemma rateLimiter_lookup store ip now (c : string) e' :
  (rateLimiter store ip now).1 !! c = Some e' →
  (c ≠ clientIdOf ip ∧ store !! c = Some e') ∨
  (c = clientIdOf ip ∧
   let e := windowsAt store c now in
   resetTime e' = resetTime e ∧ burstResetTime e' = burstResetTime e ∧
   ((count e' = count e ∧ burstCount e' = burstCount e) ∨
    (count e' = count e + 1 ∧ burstCount e' = burstCount e + 1 ∧
     count e < maxRequests ∧ burstCount e < burstMax))).
Proof.
  destruct (decide (c = clientIdOf ip)) as [->|Hne].
  - intros He'. right. split; [done|]. cbv zeta. revert He'.
    unfold rateLimiter, windowsAt, maxRequests, burstMax.
    destruct (resetBurst now (resetSustained now
                (fetchEntry store (clientIdOf ip) now))) as [cn r b br].
    cbn [count resetTime burstCount burstResetTime].
    repeat case_match; cbn [fst]; rewrite lookup_insert_eq; intros [= <-];
      cbn [count resetTime burstCount burstResetTime]; zbool;
      split_and!; try done; [left|left|right]; (done || lia).
  - rewrite rateLimiter_other by done. by left.
Qed.

Lemma windowsAt_withinLimits store (c : string) now :
  (∀ e, store !! c = Some e → withinLimits e) →
  withinLimits (windowsAt store c now).
Proof.
  intros Hs. unfold windowsAt, fetchEntry, resetBurst, resetSustained,
    withinLimits, maxRequests, burstMax in *.
  destruct (store !! c) as [e|]; [specialize (Hs e eq_refl)|];
    repeat (case_match; cbn [count resetTime burstCount burstResetTime] in * );
    lia.
Qed.

(** X1: in a process that started with an empty store, whatever
    requests and sweeps came, no stored counter leaves its range: the
    sustained count lies between 0 and 10, the burst count between 0
    and 5. *)
Theorem counters_within_limits acts (c : string) e :
  storeAfter acts !! c = Some e →
  0 ≤ count e ≤ maxRequests ∧ 0 ≤ burstCount e ≤ burstMax.
Proof.
  revert c e. induction acts as [|a acts IH] using rev_ind; intros c e.
  - unfold storeAfter. simpl. by rewrite lookup_empty.
  - rewrite storeAfter_snoc. destruct a as [ip now|now]; cbn [act].
    + intros [[_ Hold]|[-> Hnew]]%rateLimiter_lookup; [by apply (IH c)|].
      cbv zeta in Hnew.
      pose proof (windowsAt_withinLimits (storeAfter acts) (clientIdOf ip) now
                    (λ e0, IH (clientIdOf ip) e0)) as Hw.
      unfold withinLimits, maxRequests, burstMax in *. lia.
    + unfold cleanupRateLimitStore. intros [Hold _]%map_lookup_filter_Some.
      by apply (IH c).
Qed.

Lemma counters_within_limits_witness :
  0 ≤ 5 ≤ maxRequests ∧ 0 ≤ 5 ≤ burstMax.
Proof.
  apply (counters_within_limits
           ((λ now, Incoming (Some "10.0.0.7") now)
              <$> [1000; 1001; 1002; 1003; 1004; 1005; 1006])
           "10.0.0.7" (mkEntry 5 61000 5 11000)).
  by vm_compute.
Defined.

(** The reset times a pass works with: set by this pass, or stored and
    not yet passed. *)
Lemma windowsAt_resets store (c : string) now :
  (resetTime (windowsAt store c now) = now + windowMs ∨
   ∃ e, store !! c = Some e ∧ resetTime (windowsAt store c now) = resetTime e ∧
        now ≤ resetTime e) ∧
  (burstResetTime (windowsAt store c now) = now + burstWindowMs ∨
   ∃ e, store !! c = Some e ∧
        burstResetTime (windowsAt store c now) = burstResetTime e ∧
        now ≤ burstResetTime e).
Proof.
  unfold windowsAt, fetchEntry, resetBurst, resetSustained.
  destruct (store !! c) as [e|];
    repeat (case_match; cbn [count resetTime burstCount burstResetTime] in * );
    zbool; split; (by left) || (right; eexists; split_and!; done).
Qed.

(** The verdict of a rejection names the window and the time to its end. *)
Lemma rateLimiter_rejection store ip now msg r :
  (rateLimiter store ip now).2 = TooMany msg r →
  (msg = burstMessage ∧
   r = ceilSeconds (burstResetTime (windowsAt store (clientIdOf ip) now) - now)) ∨
  (msg = sustainedMessage ∧
   r = ceilSeconds (resetTime (windowsAt store (clientIdOf ip) now) - now)).
Proof.
  unfold rateLimiter, windowsAt.
  repeat case_match; cbn [snd]; intros [= <- <-] || intros [=]; eauto.
Qed.

(** Every reset time in the store is a past clock reading plus the
    length of its window. *)
Lemma resets_from_clock acts (c : string) e :
  storeAfter acts !! c = Some e →
  (∃ t, t ∈ clockOf <$> acts ∧ resetTime e = t + windowMs) ∧
  (∃ t, t ∈ clockOf <$> acts ∧ burstResetTime e = t + burstWindowMs).
Proof.
  revert c e. induction acts as [|a acts IH] using rev_ind; intros c e.
  - unfold storeAfter. simpl. by rewrite lookup_empty.
  - rewrite storeAfter_snoc, fmap_app.
    assert (∀ t, t ∈ clockOf <$> acts → t ∈ (clockOf <$> acts) ++ (clockOf <$> [a]))
      as Hin by (intros t ?; apply elem_of_app; by left).
    assert (clockOf a ∈ (clockOf <$> acts) ++ (clockOf <$> [a])) as Hlast
      by (apply elem_of_app; right; by apply list_elem_of_singleton).
    assert (∀ c e, storeAfter acts !! c = Some e →
              (∃ t, t ∈ (clockOf <$> acts) ++ (clockOf <$> [a]) ∧
                    resetTime e = t + windowMs) ∧
              (∃ t, t ∈ (clockOf <$> acts) ++ (clockOf <$> [a]) ∧
                    burstResetTime e = t + burstWindowMs)) as Hold.
    { intros c0 e0 [(t & ? & ?) (t' & ? & ?)]%IH. split; eauto. }
    destruct a as [ip now|now]; cbn [act].
    + intros [[_ Hc]|[-> Hnew]]%rateLimiter_lookup; [by apply (Hold c)|].
      cbv zeta in Hnew. destruct Hnew as (-> & -> & _).
      destruct (windowsAt_resets (storeAfter acts) (clientIdOf ip) now)
        as [[->|(e0 & He0 & -> & _)] [->|(e1 & He1 & -> & _)]];
        split; eauto; by eapply Hold.
    + unfold cleanupRateLimitStore. intros [Hc _]%map_lookup_filter_Some.
      by apply (Hold c).
Qed.

(** X2: when the clock never runs backwards, the [retryAfter] of a
    rejection is a number of seconds between 0 and the length of the
    window that rejected: at most 10 for the burst limit, at most 60 for
    the sustained one. *)
Theorem retryAfter_within_window acts ip now msg r :
  StronglySorted Z.le ((clockOf <$> acts) ++ [now]) →
  (rateLimiter (storeAfter acts) ip now).2 = TooMany msg r →
  (msg = burstMessage ∧ 0 ≤ r ≤ 10) ∨ (msg = sustainedMessage ∧ 0 ≤ r ≤ 60).
Proof.
  intros Hsorted Hrej. apply StronglySorted_app in Hsorted as (Hle & _ & _).
  assert (∀ t, t ∈ clockOf <$> acts → t ≤ now) as Hpast.
  { intros t Ht. apply (Hle t now Ht). by apply list_elem_of_singleton. }
  destruct (windowsAt_resets (storeAfter acts) (clientIdOf ip) now) as [Hs Hb].
  apply rateLimiter_rejection in Hrej as [[-> ->]|[-> ->]]; [left|right];
    (split; [done|]); apply ceilSeconds_range.
  - destruct Hb as [->|(e & He & -> & Hnow)]; [unfold burstWindowMs; lia|].
    apply resets_from_clock in He as [_ (t & Ht & Heq)].
    apply Hpast in Ht. unfold burstWindowMs in *. lia.
  - destruct Hs as [->|(e & He & -> & Hnow)]; [unfold windowMs; lia|].
    apply resets_from_clock in He as [(t & Ht & Heq) _].
    apply Hpast in Ht. unfold windowMs in *. lia.
Qed.

Lemma retryAfter_within_window_witness :
  (burstMessage = burstMessage ∧ 0 ≤ 9 ≤ 10) ∨
  (burstMessage = sustainedMessage ∧ 0 ≤ 9 ≤ 60).
Proof.
  apply (retryAfter_within_window
           ((λ now, Incoming (Some "10.0.0.7") now)
              <$> [1000; 1200; 1400; 1600; 1800])
           (Some "10.0.0.7") 2000 burstMessage 9).
  - apply (bool_decide_unpack _). by vm_compute.
  - by vm_compute.
Defined.

(** A pass treats a client whose two windows have ended as a new one. *)
Lemma rateLimiter_expired store ip now e :
  store !! clientIdOf ip = Some e →
  resetTime e < now → burstResetTime e < now →
  rateLimiter store ip now
  = (<[clientIdOf ip := mkEntry 1 (now + windowMs) 1 (now + burstWindowMs)]> store,
     Next).
Proof.
  intros Hs Hr Hb. unfold rateLimiter, fetchEntry. rewrite Hs.
  limiter_cases; reflexivity.
Qed.

Lemma rateLimiter_sweptBefore w swept store ip now :
  sweptBefore w swept store → w ≤ now →
  (rateLimiter swept ip now).2 = (rateLimiter store ip now).2 ∧
  sweptBefore w (rateLimiter swept ip now).1 (rateLimiter store ip now).1.
Proof.
  intros Hrel Hw.
  destruct (Hrel (clientIdOf ip)) as [Heq|(Hnone & e & He & Hr & Hb)].
  - destruct (rateLimiter_local swept store ip now Heq) as [Hv Hst].
    split; [done|]. intros c. destruct (decide (c = clientIdOf ip)) as [->|Hne].
    + by left.
    + rewrite !rateLimiter_other by done. apply Hrel.
  - rewrite (rateLimiter_first swept) by done.
    rewrite (rateLimiter_expired store ip now e) by (done || lia).
    split; [done|]. cbn [fst]. intros c.
    destruct (decide (c = clientIdOf ip)) as [->|Hne].
    + left. by rewrite !lookup_insert_eq.
    + rewrite !lookup_insert_ne by done. apply Hrel.
Qed.

Lemma cleanup_sweptBefore w swept store now :
  sweptBefore w swept store → w ≤ now →
  sweptBefore now (cleanupRateLimitStore swept now) store.
Proof.
  intros Hrel Hw c. unfold cleanupRateLimitStore.
  destruct (Hrel c) as [Heq|(Hnone & e & He & Hr & Hb)].
  - destruct (swept !! c) as [e|] eqn:Hc.
    + destruct (bothExpired now e) eqn:Hx.
      * right. split.
        -- apply map_lookup_filter_None. right. intros e' ?. simplify_eq.
           cbn. by rewrite Hx.
        -- exists e. unfold bothExpired in Hx.
           apply andb_true_iff in Hx as [?%Z.ltb_lt ?%Z.ltb_lt]. done.
      * left. rewrite <- Heq. by apply map_lookup_filter_Some.
    + left. rewrite <- Heq. apply map_lookup_filter_None. by left.
  - right. split.
    + apply map_lookup_filter_None. by left.
    + exists e. split_and!; [done|lia|lia].
Qed.

Lemma sweptBefore_later w w' swept store :
  sweptBefore w swept store → w ≤ w' → sweptBefore w' swept store.
Proof.
  intros Hrel Hw c. destruct (Hrel c) as [?|(? & e & ? & ? & ?)]; [by left|].
  right. split; [done|]. exists e. split_and!; [done|lia|lia].
Qed.

Lemma verdicts_sweptBefore acts w swept store :
  sweptBefore w swept store →
  StronglySorted Z.le (w :: (clockOf <$> acts)) →
  verdicts swept acts = verdicts store (List.filter isIncoming acts).
Proof.
  revert w swept store. induction acts as [|a acts IH]; intros w swept store Hrel Hs;
    [done|].
  rewrite fmap_cons in Hs. apply StronglySorted_inv in Hs as [Hs Hw].
  apply Forall_cons in Hw as [Hw _].
  destruct a as [ip now|now]; cbn [verdicts List.filter isIncoming clockOf] in *.
  - destruct (rateLimiter_sweptBefore w swept store ip now Hrel Hw) as [-> Hrel'].
    f_equal. apply (IH now); [|done].
    by apply (sweptBefore_later w).
  - apply (IH now); [|done]. by apply (cleanup_sweptBefore w).
Qed.

(** X3: the sweeps of the background task change no answer: from any
    store, with a clock that never runs backwards, the requests get the
    same verdicts whether the store is swept, at any moments, or never. *)
Theorem cleanup_changes_no_verdict store acts w :
  StronglySorted Z.le (w :: (clockOf <$> acts)) →
  verdicts (cleanupRateLimitStore store w) acts
  = verdicts store (List.filter isIncoming acts).
Proof.
  intros Hs. apply (verdicts_sweptBefore acts w); [|done].
  apply (cleanup_sweptBefore w); [|lia]. intros c. by left.
Qed.
Lemma cleanup_changes_no_verdict_witness :
  verdicts (cleanupRateLimitStore
              (storeAfter ((λ now, Incoming (Some "10.0.0.7") now)
                             <$> [1000; 1001; 1002; 1003; 1004]))
              11500)
    [Incoming (Some "10.0.0.7") 12000; Cleanup 61500;
     Incoming None 61600; Cleanup 80000; Incoming (Some "10.0.0.7") 80001]
  = verdicts (storeAfter ((λ now, Incoming (Some "10.0.0.7") now)
                            <$> [1000; 1001; 1002; 1003; 1004]))
      [Incoming (Some "10.0.0.7") 12000; Incoming None 61600;
       Incoming (Some "10.0.0.7") 80001].
Proof.
  apply (cleanup_changes_no_verdict
           (storeAfter ((λ now, Incoming (Some "10.0.0.7") now)
                          <$> [1000; 1001; 1002; 1003; 1004]))
           [Incoming (Some "10.0.0.7") 12000; Cleanup 61500;
            Incoming None 61600; Cleanup 80000;
            Incoming (Some "10.0.0.7") 80001]
           11500).
  apply (bool_decide_unpack _). by vm_compute.
Defined.

Lemma ceilSeconds_covers ms : ms ≤ 1000 * ceilSeconds ms.
Proof.
  unfold ceilSeconds. pose proof (Z.mul_div_le (- ms) 1000). lia.
Qed.

(** The entry a rejection leaves: no window of it is over, and the
    counter of the limit that rejected is full. *)
Lemma rateLimiter_rejected_entry store ip now msg r :
  (rateLimiter store ip now).2 = TooMany msg r →
  ∃ e, (rateLimiter store ip now).1 !! clientIdOf ip = Some e ∧
       now ≤ resetTime e ∧ now ≤ burstResetTime e ∧
       ((msg = burstMessage ∧ burstMax ≤ burstCount e ∧
         r = ceilSeconds (burstResetTime e - now)) ∨
        (msg = sustainedMessage ∧ burstCount e < burstMax ∧
         maxRequests ≤ count e ∧ r = ceilSeconds (resetTime e - now))).
Proof.
  unfold rateLimiter, resetSustained, resetBurst, burstMax, maxRequests,
    windowMs, burstWindowMs.
  destruct (fetchEntry store (clientIdOf ip) now) as [c rt b brt].
  repeat (case_match; cbn [count resetTime burstCount burstResetTime fst snd] in * );
    zbool; intros [= <- <-]; eexists; rewrite lookup_insert_eq;
    (split; [reflexivity|]);
    cbn [count resetTime burstCount burstResetTime];
    (split; [lia|]); (split; [lia|]);
    first [by left; split_and! | by right; split_and!; try lia].
Qed.

(** X4: [retryAfter] is enough for the sustained limit, and for the
    burst limit as far as that limit goes: the next request of a
    rejected client that comes more than [retryAfter] seconds after the
    rejection is let through if the sustained limit had rejected, and is
    not rejected by the burst limit again if the burst limit had. *)
Theorem request_after_retryAfter_passes_that_limit
  store store' ip now later msg r :
  (rateLimiter store ip now).2 = TooMany msg r →
  store' !! clientIdOf ip = (rateLimiter store ip now).1 !! clientIdOf ip →
  now + 1000 * r < later →
  (msg = sustainedMessage → (rateLimiter store' ip later).2 = Next) ∧
  (msg = burstMessage →
   (rateLimiter store' ip later).2 = Next ∨
   ∃ r', (rateLimiter store' ip later).2 = TooMany sustainedMessage r').
Proof.
  intros (e & He & Hrt & Hbrt & Hwhy)%rateLimiter_rejected_entry Hstore Hlater.
  rewrite He in Hstore.
  assert (burstMessage ≠ sustainedMessage) as Hmsg by discriminate.
  destruct Hwhy as [(-> & Hfull & ->)|(-> & Hroom & Hfull & ->)].
  - pose proof (ceilSeconds_covers (burstResetTime e - now)) as Hc.
    split; [done|]. intros _.
    unfold rateLimiter, fetchEntry. rewrite Hstore.
    unfold resetSustained, resetBurst, burstMax, maxRequests in *.
    destruct e as [c rt b brt];
      cbn [count resetTime burstCount burstResetTime] in *.
    repeat (case_match; cbn [count resetTime burstCount burstResetTime snd] in * );
      zbool; try lia; try (by left); right; by eexists.
  - pose proof (ceilSeconds_covers (resetTime e - now)) as Hc.
    split; [|done]. intros _.
    unfold rateLimiter, fetchEntry. rewrite Hstore.
    unfold resetSustained, resetBurst, burstMax, maxRequests in *.
    destruct e as [c rt b brt];
      cbn [count resetTime burstCount burstResetTime] in *.
    repeat (case_match; cbn [count resetTime burstCount burstResetTime snd] in * );
      zbool; try lia; done.
Qed.

Lemma request_after_retryAfter_passes_that_limit_witness :
  (burstMessage = sustainedMessage →
   (rateLimiter
      (storeAfter ((λ now, Incoming (Some "10.0.0.7") now)
                     <$> [1000; 1200; 1400; 1600; 1800; 2000]))
      (Some "10.0.0.7") 11001).2 = Next) ∧
  (burstMessage = burstMessage →
   (rateLimiter
      (storeAfter ((λ now, Incoming (Some "10.0.0.7") now)
                     <$> [1000; 1200; 1400; 1600; 1800; 2000]))
      (Some "10.0.0.7") 11001).2 = Next ∨
   ∃ r', (rateLimiter
            (storeAfter ((λ now, Incoming (Some "10.0.0.7") now)
                           <$> [1000; 1200; 1400; 1600; 1800; 2000]))
            (Some "10.0.0.7") 11001).2 = TooMany sustainedMessage r').
Proof.
  apply (request_after_retryAfter_passes_that_limit
           (storeAfter ((λ now, Incoming (Some "10.0.0.7") now)
                          <$> [1000; 1200; 1400; 1600; 1800]))
           (storeAfter ((λ now, Incoming (Some "10.0.0.7") now)
                          <$> [1000; 1200; 1400; 1600; 1800; 2000]))
           (Some "10.0.0.7") 2000 11001 burstMessage 9).
  - by vm_compute.
  - by vm_compute.
  - lia.
Defined.

End RateLimiterStoreFacts.

Section RateLimiterBudgetFacts.
Import RateLimiter.

Implicit Types (store : Store) (ip : option string) (now : Z)
  (acts : list Activity).

Lemma passed_snoc (c : string) a b store acts x :
  passed c a b store (acts ++ [x])
  = (passed c a b store acts
     + if passedIn c a b (foldl act store acts) x then 1 else 0)%nat.
Proof.
  revert store. induction acts as [|y acts IH]; intros store; simpl; [lia|].
  rewrite IH. lia.
Qed.

(** The sustained side of a pass: the window it leaves and its count. *)
Lemma rateLimiter_sustained store ip now :
  let e0 := fetchEntry store (clientIdOf ip) now in
  let through := match (rateLimiter store ip now).2 with
                 | Next => true | TooMany _ _ => false end in
  ∃ e', (rateLimiter store ip now).1 !! clientIdOf ip = Some e' ∧
        resetTime e'
        = (if resetTime e0 <? now then now + windowMs else resetTime e0) ∧
        count e'
        = (if resetTime e0 <? now then 0 else count e0)
          + (if through then 1 else 0) ∧
        (through = true → count e' ≤ maxRequests).
Proof.
  cbv zeta. unfold rateLimiter, resetSustained, resetBurst, maxRequests, burstMax.
  destruct (fetchEntry store (clientIdOf ip) now) as [c r b br].
  repeat (case_match; cbn [count resetTime burstCount burstResetTime fst snd] in * );
    zbool; eexists; rewrite lookup_insert_eq; (split; [reflexivity|]);
    cbn [count resetTime burstCount burstResetTime]; split_and!; try done; lia.
Qed.

(** The burst side of a pass. *)
Lemma rateLimiter_burst store ip now :
  let e0 := fetchEntry store (clientIdOf ip) now in
  let through := match (rateLimiter store ip now).2 with
                 | Next => true | TooMany _ _ => false end in
  ∃ e', (rateLimiter store ip now).1 !! clientIdOf ip = Some e' ∧
        burstResetTime e'
        = (if burstResetTime e0 <? now then now + burstWindowMs
           else burstResetTime e0) ∧
        burstCount e'
        = (if burstResetTime e0 <? now then 0 else burstCount e0)
          + (if through then 1 else 0) ∧
        (through = true → burstCount e' ≤ burstMax).
Proof.
  cbv zeta. unfold rateLimiter, resetSustained, resetBurst, maxRequests, burstMax.
  destruct (fetchEntry store (clientIdOf ip) now) as [c r b br].
  repeat (case_match; cbn [count resetTime burstCount burstResetTime fst snd] in * );
    zbool; eexists; rewrite lookup_insert_eq; (split; [reflexivity|]);
    cbn [count resetTime burstCount burstResetTime]; split_and!; try done; lia.
Qed.

Lemma cleanup_lookup store now (c : string) :
  cleanupRateLimitStore store now !! c = store !! c ∨
  (cleanupRateLimitStore store now !! c = None ∧
   ∃ e, store !! c = Some e ∧ resetTime e < now ∧ burstResetTime e < now).
Proof.
  unfold cleanupRateLimitStore. destruct (store !! c) as [e|] eqn:Hc.
  - destruct (bothExpired now e) eqn:Hx.
    + right. split.
      * apply map_lookup_filter_None. right. intros e' ?. simplify_eq.
        cbn. by rewrite Hx.
      * exists e. unfold bothExpired in Hx.
        apply andb_true_iff in Hx as [?%Z.ltb_lt ?%Z.ltb_lt]. done.
    + left. by apply map_lookup_filter_Some.
  - left. apply map_lookup_filter_None. by left.
Qed.

Section Budget.
Variables (cnt rst : RateLimitEntry → Z) (limit window : Z).
Hypothesis limit_pos : 0 ≤ limit.
Hypothesis window_pos : 0 ≤ window.
Hypothesis fresh : ∀ store (c : string) now,
  store !! c = None →
  cnt (fetchEntry store c now) = 0 ∧ rst (fetchEntry store c now) = now + window.
Hypothesis side : ∀ store ip now,
  let e0 := fetchEntry store (clientIdOf ip) now in
  let through := match (rateLimiter store ip now).2 with
                 | Next => true | TooMany _ _ => false end in
  ∃ e', (rateLimiter store ip now).1 !! clientIdOf ip = Some e' ∧
        rst e' = (if rst e0 <? now then now + window else rst e0) ∧
        cnt e' = (if rst e0 <? now then 0 else cnt e0)
                 + (if through then 1 else 0) ∧
        (through = true → cnt e' ≤ limit).
Hypothesis swept : ∀ store now (c : string) e,
  store !! c = Some e → cleanupRateLimitStore store now !! c = None →
  rst e < now.

Lemma act_withinBudget (c : string) a acts x n store :
  (∀ t, t ∈ clockOf <$> acts → t ≤ clockOf x) →
  withinBudget cnt rst limit window c a acts n store →
  withinBudget cnt rst limit window c a (acts ++ [x])
    (n + if passedIn c a (a + window) store x then 1 else 0) (act store x).
Proof.
  intros Hclock (Hbound & Hn & Hcases).
  assert (∀ t, t ∈ clockOf <$> acts → t ∈ clockOf <$> acts ++ [x]) as Hkeep.
  { intros t Ht. rewrite fmap_app. apply elem_of_app. by left. }
  assert (clockOf x ∈ clockOf <$> acts ++ [x]) as Hlast.
  { rewrite fmap_app. apply elem_of_app. right. by left. }
  unfold withinBudget.
  destruct x as [ip now|now]; cbn [act passedIn clockOf] in *.
  - (* a request *)
    destruct (decide (clientIdOf ip = c)) as [<-|Hne].
    2:{ rewrite bool_decide_eq_false_2 by done. cbn [andb].
        rewrite Nat.add_0_r, rateLimiter_other by done.
        split; [done|]. split; [done|].
        destruct Hcases as [(t & ? & ?)|[?|[?|[?|(? & ? & t & ? & ?)]]]];
          eauto 10. }
    rewrite bool_decide_eq_true_2 by done. cbn [andb].
    destruct (side store ip now) as (e' & He' & Hrst & Hcnt & Hlim).
    cbv zeta in *.
    set (through := match (rateLimiter store ip now).2 with
                    | Next => true | TooMany _ _ => false end) in *.
    set (e0 := fetchEntry store (clientIdOf ip) now) in *.
    assert (0 ≤ cnt e0 ≤ limit ∧
            (store !! clientIdOf ip = None → rst e0 = now + window ∧ cnt e0 = 0) ∧
            (∀ e, store !! clientIdOf ip = Some e → e0 = e)) as (Hc0 & Hnew & Hold).
    { unfold e0, fetchEntry.
      destruct (store !! clientIdOf ip) as [e|] eqn:He.
      - split; [by apply Hbound|]. split; [done|]. by intros ? [= <-].
      - destruct (fresh store (clientIdOf ip) now He) as [Hf0 Hf1].
        unfold fetchEntry in Hf0, Hf1. rewrite He in Hf0, Hf1.
        split; [lia|]. split; [done|]. done. }
    assert (0 ≤ cnt e' ≤ limit) as Hc'.
    { destruct (rst e0 <? now); destruct through; lia. }
    split. { intros e. rewrite He'. by intros [= <-]. }
    destruct ((a <=? now) && (now <=? a + window) && through) eqn:Hcounted.
    + (* let through, at a reading of the interval *)
      apply andb_true_iff in Hcounted as [[Ha%Z.leb_le Hb%Z.leb_le]%andb_true_iff Hthrough].
      rewrite Hthrough in *. rewrite Nat2Z.inj_add.
      change (Z.of_nat 1) with 1.
      assert (now ≤ rst e' ∧ 1 ≤ cnt e') as [Hnow Hone]
        by (destruct (Z.ltb_spec (rst e0) now); lia).
      destruct Hcases as
        [(t & Ht & Hover)
        |[->|[(e & He & Hr & Hc)|[(e & He & Hr & Hc)|(Hnone & Hc & t & Ht & Hat)]]]].
      * pose proof (Hclock t Ht). lia.
      * split; [simpl; lia|]. right. right.
        destruct (decide (rst e' ≤ a + window)).
        -- left. exists e'. split; [done|]. simpl. lia.
        -- right. left. exists e'. split; [done|]. simpl. lia.
      * rewrite (Hold e He) in *. destruct (Z.ltb_spec (rst e) now).
        -- split; [lia|]. right. right. right. left.
           exists e'. split; [done|]. pose proof (Hbound e He). lia.
        -- split; [lia|]. right. right. left.
           exists e'. split; [done|]. lia.
      * rewrite (Hold e He) in *. destruct (Z.ltb_spec (rst e) now); [lia|].
        split; [lia|]. right. right. right. left.
        exists e'. split; [done|]. lia.
      * destruct (Hnew Hnone) as [Hr0 Hc00]. pose proof (Hclock t Ht).
        destruct (Z.ltb_spec (rst e0) now); [lia|].
        split; [lia|]. right. right. right. left.
        exists e'. split; [done|]. lia.
    + (* not counted *)
      rewrite Nat.add_0_r. split; [done|].
      assert (0 ≤ (if through then 1 else 0) ≤ 1) as Hd by (destruct through; lia).
      destruct Hcases as
        [(t & Ht & Hover)
        |[->|[(e & He & Hr & Hc)|[(e & He & Hr & Hc)|(Hnone & Hc & t & Ht & Hat)]]]].
      * left. exists t. by split; [apply Hkeep|].
      * right. by left.
      * rewrite (Hold e He) in *. destruct (Z.ltb_spec (rst e) now).
        -- right. right. right. left. exists e'. split; [done|].
           pose proof (Hbound e He). lia.
        -- right. right. left. exists e'. split; [done|]. lia.
      * rewrite (Hold e He) in *. destruct (Z.ltb_spec (rst e) now).
        -- left. exists now. split; [exact Hlast|lia].
        -- right. right. right. left. exists e'. split; [done|]. lia.
      * destruct (Hnew Hnone) as [Hr0 Hc00]. pose proof (Hclock t Ht).
        destruct (Z.ltb_spec (rst e0) now); [lia|].
        right. right. right. left. exists e'. split; [done|]. lia.
  - (* a sweep *)
    rewrite Nat.add_0_r.
    destruct (cleanup_lookup store now c) as [Heq|[Heq _]].
    { unfold withinBudget. rewrite Heq. split; [done|]. split; [done|].
      destruct Hcases as [(t & ? & ?)|[?|[?|[?|(? & ? & t & ? & ?)]]]];
        eauto 10. }
    split. { intros e. by rewrite Heq. }
    split; [done|].
    destruct Hcases as
      [(t & Ht & Hover)
      |[->|[(e & He & Hr & Hc)|[(e & He & Hr & Hc)|(Hnone & Hc & t & Ht & Hat)]]]].
    + left. exists t. by split; [apply Hkeep|].
    + right. by left.
    + right. right. right. right. split; [done|].
      pose proof (Hbound e He). split; [lia|].
      exists now. split; [exact Hlast|].
      pose proof (swept store now c e He Heq). lia.
    + left. exists now. split; [exact Hlast|].
      pose proof (swept store now c e He Heq). lia.
    + right. right. right. right. split; [done|].
      split; [done|]. exists t. by split; [apply Hkeep|].
Qed.

Lemma passed_withinBudget (c : string) a acts :
  StronglySorted Z.le (clockOf <$> acts) →
  withinBudget cnt rst limit window c a acts
    (passed c a (a + window) ∅ acts) (storeAfter acts).
Proof.
  induction acts as [|x acts IH] using rev_ind; intros Hsorted.
  - split; [by intros e ?|]. split; [simpl; lia|]. right. by left.
  - rewrite fmap_app in Hsorted.
    apply StronglySorted_app in Hsorted as (Hle & Hacts & _).
    rewrite passed_snoc, storeAfter_snoc. apply act_withinBudget; [|by apply IH].
    intros t Ht. apply (Hle t _ Ht). by left.
Qed.

End Budget.

(** X5: with a clock that never runs backwards, in a process that
    started with an empty store, the middleware lets through at most 20
    requests of a client in any 60 s, and at most 10 in any 10 s: twice
    the limit of the window, since the requests can fall into two
    successive windows. *)
Theorem requests_let_through_in_any_interval (c : string) a acts :
  StronglySorted Z.le (clockOf <$> acts) →
  Z.of_nat (passed c a (a + windowMs) ∅ acts) ≤ 2 * maxRequests ∧
  Z.of_nat (passed c a (a + burstWindowMs) ∅ acts) ≤ 2 * burstMax.
Proof.
  intros Hsorted. split.
  - apply (passed_withinBudget count resetTime maxRequests windowMs);
      try done.
    + intros store c0 now Hnone. unfold fetchEntry. by rewrite Hnone.
    + apply rateLimiter_sustained.
    + intros store now c0 e He Hafter.
      destruct (cleanup_lookup store now c0) as [Heq|(_ & e1 & He1 & ? & _)];
        congruence.
  - apply (passed_withinBudget burstCount burstResetTime burstMax burstWindowMs);
      try done.
    + intros store c0 now Hnone. unfold fetchEntry. by rewrite Hnone.
    + apply rateLimiter_burst.
    + intros store now c0 e He Hafter.
      destruct (cleanup_lookup store now c0) as [Heq|(_ & e1 & He1 & _ & ?)];
        congruence.
Qed.

Lemma requests_let_through_in_any_interval_witness :
  Z.of_nat
    (passed "10.0.0.7" 115000 (115000 + windowMs) ∅
       ((λ now, Incoming (Some "10.0.0.7") now)
          <$> [8000; 67000; 67001; 67002; 67003; 67004; 70000;
               115000; 115001; 115002; 115003; 115004;
               125001; 125002; 125003; 125004; 125005;
               135002; 135003; 135004; 135005; 135006;
               145003; 145004; 145005; 145006; 145007; 145008]))
  ≤ 2 * maxRequests ∧
  Z.of_nat
    (passed "10.0.0.7" 115000 (115000 + burstWindowMs) ∅
       ((λ now, Incoming (Some "10.0.0.7") now)
          <$> [8000; 67000; 67001; 67002; 67003; 67004; 70000;
               115000; 115001; 115002; 115003; 115004;
               125001; 125002; 125003; 125004; 125005;
               135002; 135003; 135004; 135005; 135006;
               145003; 145004; 145005; 145006; 145007; 145008]))
  ≤ 2 * burstMax.
Proof.
  apply (requests_let_through_in_any_interval "10.0.0.7" 115000
           ((λ now, Incoming (Some "10.0.0.7") now)
              <$> [8000; 67000; 67001; 67002; 67003; 67004; 70000;
                   115000; 115001; 115002; 115003; 115004;
                   125001; 125002; 125003; 125004; 125005;
                   135002; 135003; 135004; 135005; 135006;
                   145003; 145004; 145005; 145006; 145007; 145008])).
  apply (bool_decide_unpack _). by vm_compute.
Defined.

(** The bound of 20 is reached: a request that the burst limit rejects
    at 70000 opens a sustained window with its count at 0; ten requests
    pass at the end of that window, from 115000 on, and ten more at the
    start of the next, all within 31 s. *)
Example twenty_requests_pass_within_a_minute :
  passed "10.0.0.7" 115000 (115000 + windowMs) ∅
    ((λ now, Incoming (Some "10.0.0.7") now)
       <$> [8000; 67000; 67001; 67002; 67003; 67004; 70000;
            115000; 115001; 115002; 115003; 115004;
            125001; 125002; 125003; 125004; 125005;
            135002; 135003; 135004; 135005; 135006;
            145003; 145004; 145005; 145006; 145007; 145008])
  = 20%nat.
Proof. by vm_compute. Qed.

End RateLimiterBudgetFacts.

Section RateLimiterPaceFacts.
Import RateLimiter.

Implicit Types (store : Store) (ip : option string) (now : Z).

Lemma rateLimiter_paced store ip now :
  (store !! clientIdOf ip = None ∨
   ∃ e t, store !! clientIdOf ip = Some e ∧ paced e t ∧ t + 6000 < now) →
  (rateLimiter store ip now).2 = Next ∧
  ∃ e', (rateLimiter store ip now).1 !! clientIdOf ip = Some e' ∧ paced e' now.
Proof.
  intros [Hnone|(e & t & He & (Hc & Hb & Hs & Hbs) & Hgap)].
  - rewrite rateLimiter_first by done. split; [done|]. cbn [fst].
    eexists. rewrite lookup_insert_eq. split; [reflexivity|].
    unfold paced, windowMs, burstWindowMs. cbn. lia.
  - unfold rateLimiter, fetchEntry. rewrite He.
    unfold resetSustained, resetBurst, maxRequests, burstMax, windowMs,
      burstWindowMs in *.
    destruct e as [c r b br];
      cbn [count resetTime burstCount burstResetTime] in *.
    repeat (case_match; cbn [count resetTime burstCount burstResetTime fst snd] in * );
      zbool; try lia;
      (split; [done|]); eexists; rewrite lookup_insert_eq;
      (split; [reflexivity|]); unfold paced, windowMs, burstWindowMs;
      cbn [count resetTime burstCount burstResetTime]; lia.
Qed.

Lemma serve_paced (c : string) reqs store :
  Forall (λ r, clientIdOf r.1 = c) reqs →
  apart 6000 reqs.*2 →
  (store !! c = None ∨
   ∃ e t, store !! c = Some e ∧ paced e t ∧
          Forall (λ now, t + 6000 < now) reqs.*2) →
  (serve store reqs).2 = replicate (length reqs) Next.
Proof.
  revert store. induction reqs as [|[ip now] reqs IH]; intros store Hc Hapart Hs;
    [done|].
  apply Forall_cons in Hc as [Hip Hc]. cbn in Hip. subst c.
  rewrite fmap_cons in Hapart. apply StronglySorted_inv in Hapart as [Hapart Hnow].
  cbn [serve snd length replicate].
  destruct (rateLimiter_paced store ip now) as [-> (e' & He' & Hpaced)].
  { destruct Hs as [?|(e & t & He & Hp & Hall)]; [by left|].
    right. exists e, t. split_and!; [done..|].
    rewrite fmap_cons in Hall. by apply Forall_cons in Hall as [? _]. }
  f_equal. apply IH; [done|done|].
  right. exists e', now. by split_and!.
Qed.

(** X6: a client whose requests come more than 6 s apart is never
    turned away, whatever the other clients send in between: of ten
    requests in a sustained window the eleventh then falls behind its
    end.  (At exactly 6 s apart the eleventh request comes at the last
    millisecond of the window and is rejected.) *)
Theorem client_more_than_6s_apart_is_never_rejected (c : string) reqs store :
  store !! c = None →
  apart 6000 (sentBy c reqs).*2 →
  verdictsFor c reqs (serve store reqs).2
  = replicate (length (sentBy c reqs)) Next.
Proof.
  intros Hnone Hapart. rewrite (serve_isolated c reqs store store) by done.
  apply (serve_paced c); [|done|by left].
  unfold sentBy. apply Forall_forall. by intros r [? _]%list_elem_of_filter.
Qed.

Lemma client_more_than_6s_apart_is_never_rejected_witness :
  verdictsFor "10.0.0.7"
    (((λ now, (Some "10.0.0.7", now))
        <$> [0; 6001; 12002; 18003; 24004; 30005; 36006; 42007; 48008;
             54009; 60010; 66011])
     ++ [(Some "10.0.0.8", 66012)])
    (serve ∅
       (((λ now, (Some "10.0.0.7", now))
           <$> [0; 6001; 12002; 18003; 24004; 30005; 36006; 42007; 48008;
                54009; 60010; 66011])
        ++ [(Some "10.0.0.8", 66012)])).2
  = replicate
      (length
         (sentBy "10.0.0.7"
            (((λ now, (Some "10.0.0.7", now))
                <$> [0; 6001; 12002; 18003; 24004; 30005; 36006; 42007;
                     48008; 54009; 60010; 66011])
             ++ [(Some "10.0.0.8", 66012)])))
      Next.
Proof.
  apply (client_more_than_6s_apart_is_never_rejected "10.0.0.7"
           (((λ now, (Some "10.0.0.7", now))
               <$> [0; 6001; 12002; 18003; 24004; 30005; 36006; 42007;
                    48008; 54009; 60010; 66011])
            ++ [(Some "10.0.0.8", 66012)])
           ∅).
  - done.
  - unfold apart. apply (bool_decide_unpack _). by vm_compute.
Defined.

(** At exactly 6 s apart the eleventh request is rejected. *)
Example eleventh_request_at_6s_apart_is_rejected :
  (requests ∅ (Some "10.0.0.7")
     [0; 6000; 12000; 18000; 24000; 30000; 36000; 42000; 48000; 54000;
      60000]).2
  = replicate 10 Next ++ [TooMany sustainedMessage 0].
Proof. by vm_compute. Qed.

End RateLimiterPaceFacts.

Section AppFacts.
Import RateLimiter App.

Implicit Types (store : Store) (ip : option string).

(** The entry the two passes of an /auth request leave, when no window
    of the client ends between the two clock readings. *)
Lemma authRequest_effect store ip now1 now2 :
  let old := fetchEntry store (clientIdOf ip) now1 in
  let count0 := if resetTime old <? now1 then 0 else count old in
  let resetTime0 := if resetTime old <? now1 then now1 + windowMs else resetTime old in
  let burst0 := if burstResetTime old <? now1 then 0 else burstCount old in
  let burstResetTime0 :=
    if burstResetTime old <? now1 then now1 + burstWindowMs else burstResetTime old in
  now2 ≤ resetTime0 → now2 ≤ burstResetTime0 →
  match (authRequest store ip now1 now2).2 with
  | Next =>
      (authRequest store ip now1 now2).1 !! clientIdOf ip
      = Some (mkEntry (count0 + 2) resetTime0 (burst0 + 2) burstResetTime0)
  | TooMany _ _ =>
      (authRequest store ip now1 now2).1 !! clientIdOf ip
      = Some (mkEntry count0 resetTime0 burst0 burstResetTime0) ∨
      (authRequest store ip now1 now2).1 !! clientIdOf ip
      = Some (mkEntry (count0 + 1) resetTime0 (burst0 + 1) burstResetTime0)
  end.
Proof.
  intros old count0 resetTime0 burst0 burstResetTime0 Hr Hb.
  unfold authRequest. cbn [throttle].
  pose proof (rateLimiter_effect store ip now1) as H1. cbv zeta in H1.
  fold old in H1. fold count0 resetTime0 burst0 burstResetTime0 in H1.
  destruct (rateLimiter store ip now1) as [store1 v1]. cbn [fst snd] in *.
  destruct v1 as [|msg r]; [|by left].
  pose proof (rateLimiter_effect store1 ip now2) as H2. cbv zeta in H2.
  unfold fetchEntry in H2. rewrite H1 in H2. cbn [count resetTime burstCount burstResetTime] in H2.
  destruct (resetTime0 <? now2) eqn:?; [zbool; lia|].
  destruct (burstResetTime0 <? now2) eqn:?; [zbool; lia|].
  destruct (rateLimiter store1 ip now2) as [store2 v2]. cbn [fst snd] in *.
  destruct v2; cbn [throttle fst snd]; [|by right].
  rewrite H2. do 2 f_equal; lia.
Qed.

Lemma verdicts_cons (v v' : Verdict) (vs vs' : list Verdict) :
  v :: vs = v' :: vs' → v = v' ∧ vs = vs'.
Proof. intros H. by inversion H. Qed.

Lemma authRequest_passes store ip now1 now2 :
  (rateLimiter store ip now1).2 = Next →
  authRequest store ip now1 now2
  = rateLimiter (rateLimiter store ip now1).1 ip now2.
Proof.
  intros H1. unfold authRequest. cbn [throttle]. rewrite H1.
  destruct (rateLimiter (rateLimiter store ip now1).1 ip now2) as [s2 []];
    reflexivity.
Qed.

Lemma authRequest_stopped store ip now1 now2 msg r :
  (rateLimiter store ip now1).2 = TooMany msg r →
  (authRequest store ip now1 now2).2 = TooMany msg r.
Proof. intros H1. unfold authRequest. cbn [throttle]. by rewrite H1. Qed.

Lemma authRequests_snoc store ip reads now1 now2 :
  authRequests store ip (reads ++ [(now1, now2)])
  = ((authRequest (authRequests store ip reads).1 ip now1 now2).1,
     (authRequests store ip reads).2
     ++ [(authRequest (authRequests store ip reads).1 ip now1 now2).2]).
Proof.
  revert store. induction reads as [|[a b] reads IH]; intros store.
  - reflexivity.
  - cbn [app authRequests fst snd]. by rewrite IH.
Qed.

(** While every pass is let through, a run of /auth requests is the run
    of its passes. *)
Lemma authRequests_let_through store ip reads :
  (requests store ip (passes reads)).2 = replicate (length (passes reads)) Next →
  authRequests store ip reads
  = ((requests store ip (passes reads)).1, replicate (length reads) Next).
Proof.
  revert store. induction reads as [|[a b] reads IH]; intros store Hall.
  - reflexivity.
  - unfold requests in *. cbn [passes flat_map app fst snd] in *.
    fold (passes reads) in *.
    cbn [fmap list_fmap serve fst snd length replicate] in *.
    apply verdicts_cons in Hall as [Ha Hall].
    apply verdicts_cons in Hall as [Hb Hrest]. cbn [authRequests fst snd].
    rewrite (authRequest_passes _ _ _ _ Ha). rewrite Hb.
    rewrite IH by exact Hrest. reflexivity.
Qed.

(** Three /auth requests of a new client inside the burst window that
    the first one opens: the second pass of the third is the sixth pass
    of the window. *)
Lemma authRequests_burst store ip (t1 t2 t3 t4 t5 t6 : Z) :
  store !! clientIdOf ip = None →
  t1 ≤ t2 ≤ t3 → t3 ≤ t4 ≤ t5 → t5 ≤ t6 ≤ t1 + burstWindowMs →
  (authRequests store ip [(t1, t2); (t3, t4); (t5, t6)]).2
  = [Next; Next; TooMany burstMessage (ceilSeconds (t1 + burstWindowMs - t6))].
Proof.
  intros Hnew H12 H34 H56.
  pose proof (requests_burst store ip t1 t2 t3 t4 t5 t6 Hnew H12 H34 H56) as H.
  unfold requests in H. cbn [fmap list_fmap serve fst snd] in H.
  apply verdicts_cons in H as [H1 H]. apply verdicts_cons in H as [H2 H].
  apply verdicts_cons in H as [H3 H]. apply verdicts_cons in H as [H4 H].
  apply verdicts_cons in H as [H5 H]. apply verdicts_cons in H as [H6 _].
  cbn [authRequests fst snd].
  rewrite (authRequest_passes _ _ _ _ H1), H2.
  rewrite (authRequest_passes _ _ _ _ H3), H4.
  rewrite (authRequest_passes _ _ _ _ H5), H6.
  reflexivity.
Qed.

Lemma passes_length reads : length (passes reads) = (2 * length reads)%nat.
Proof. induction reads as [|[a b] reads IH]; simpl; [done|]. rewrite IH. lia. Qed.

Lemma authRequest_twice store ip now1 now2 :
  let w := windowsAt store (clientIdOf ip) now1 in
  now2 ≤ resetTime w → now2 ≤ burstResetTime w →
  (authRequest store ip now1 now2).2 = Next →
  (authRequest store ip now1 now2).1 !! clientIdOf ip
  = Some (mkEntry (count w + 2) (resetTime w) (burstCount w + 2) (burstResetTime w)).
Proof.
  intros w Hr Hb Hv.
  pose proof (authRequest_effect store ip now1 now2) as H. cbv zeta in H.
  rewrite Hv in H. subst w. unfold windowsAt, resetBurst, resetSustained in *.
  destruct (fetchEntry store (clientIdOf ip) now1) as [c r b br].
  cbn [count resetTime burstCount burstResetTime] in *.
  destruct (r <? now1);
    cbn [count resetTime burstCount burstResetTime] in *;
    destruct (br <? now1);
    cbn [count resetTime burstCount burstResetTime] in *; by apply H.
Qed.

(** C10. A request under /auth meets the rate limiter twice, a request
    to another mount once.  (1) When both passes let an /auth request
    through, and no window of the client ends between their two clock
    readings, each of the two counters ends 2 above its value at the
    first pass.  (2) A new client gets two /auth requests through in a
    burst window, where the same five readings get five requests
    through on another route.  (3) It gets five /auth requests through,
    and not a sixth, in a sustained window whose ten passes would all
    be let through. *)
Theorem auth_requests_pass_limiter_twice
  (store fresh : Store) ip (now1 now2 : Z) (t1 t2 t3 t4 t5 t6 : Z)
  (reads : list (Z * Z)) (t0 a b : Z) :
  now2 ≤ resetTime (windowsAt store (clientIdOf ip) now1) →
  now2 ≤ burstResetTime (windowsAt store (clientIdOf ip) now1) →
  (authRequest store ip now1 now2).2 = Next →
  fresh !! clientIdOf ip = None →
  t1 ≤ t2 ≤ t3 → t3 ≤ t4 ≤ t5 → t5 ≤ t6 ≤ t1 + burstWindowMs →
  length reads = 5%nat → passes reads !! 0%nat = Some t0 →
  Forall (λ t, t0 ≤ t ≤ t0 + windowMs) (passes reads ++ [a]) →
  spaced (passes reads) →
  (limiters AuthRoutes = 2%nat ∧ limiters UserRoutes = 1%nat ∧
   limiters CacheRoutes = 1%nat ∧ limiters Health = 1%nat) ∧
  (let w := windowsAt store (clientIdOf ip) now1 in
   (authRequest store ip now1 now2).1 !! clientIdOf ip
   = Some (mkEntry (count w + 2) (resetTime w)
                   (burstCount w + 2) (burstResetTime w))) ∧
  ((authRequests fresh ip [(t1, t2); (t3, t4); (t5, t6)]).2
   = [Next; Next;
      TooMany burstMessage (ceilSeconds (t1 + burstWindowMs - t6))] ∧
   (requests fresh ip [t1; t2; t3; t4; t5]).2 = replicate 5 Next) ∧
  ((∃ msg r, (authRequests fresh ip (reads ++ [(a, b)])).2
             = replicate 5 Next ++ [TooMany msg r]) ∧
   (requests fresh ip (passes reads)).2 = replicate 10 Next).
Proof.
  intros Hr Hb Hv Hnew H12 H34 H56 Hlen H0 Hwin Hsp. split_and!; try done.
  - by apply authRequest_twice.
  - by apply authRequests_burst.
  - assert (t5 ≤ t5 ≤ t1 + burstWindowMs) as H55 by lia.
    pose proof (requests_burst fresh ip t1 t2 t3 t4 t5 t5 Hnew H12 H34 H55) as H.
    change [t1; t2; t3; t4; t5; t5] with ([t1; t2; t3; t4; t5] ++ [t5]) in H.
    rewrite requests_app, requests_one in H. cbn [fst snd] in H.
    change [Next; Next; Next; Next; Next;
            TooMany burstMessage (ceilSeconds (t1 + burstWindowMs - t5))]
      with (replicate 5 Next
            ++ [TooMany burstMessage (ceilSeconds (t1 + burstWindowMs - t5))]) in H.
    apply app_inj_2 in H; [by destruct H|done].
  - rewrite Forall_app, Forall_singleton in Hwin. destruct Hwin as [Hts Ha].
    rewrite Forall_forall in Hts.
    destruct (requests_spaced fresh ip (passes reads) t0) as (Hvs & e & He & Hinv);
      [done|done|intros t Ht; by apply Hts|rewrite passes_length; lia|done|].
    destruct Hinv as (Hcount & (t0' & Ht0' & Hreset) & _).
    assert (t0' = t0) as -> by congruence.
    rewrite passes_length, Hlen in Hcount.
    destruct (rateLimiter_rejects_full _ ip a e He) as (msg & r & Hrej);
      [lia|unfold maxRequests; lia|].
    exists msg, r. rewrite authRequests_snoc. cbn [fst snd].
    rewrite authRequests_let_through by exact Hvs. cbn [fst snd].
    rewrite Hlen. f_equal. f_equal. by apply authRequest_stopped.
  - destruct (requests_spaced fresh ip (passes reads) t0) as (Hvs & _);
      [done|done| |rewrite passes_length; lia|done|].
    + rewrite Forall_app, Forall_forall in Hwin. intros t Ht. by apply Hwin.
    + rewrite Hvs, passes_length, Hlen. reflexivity.
Qed.

Lemma auth_requests_pass_limiter_twice_witness :
  (authRequest ∅ (Some "10.0.0.7") 5000 5000).1 !! "10.0.0.7"
  = Some (mkEntry 2 65000 2 15000) ∧
  (authRequests ∅ (Some "10.0.0.7") [(1000, 2000); (3000, 4000); (5000, 6000)]).2
  = [Next; Next; TooMany burstMessage 5] ∧
  (∃ msg r,
     (authRequests ∅ (Some "10.0.0.7")
        ([(1000, 1000); (1001, 1001); (12000, 12000); (12001, 12001);
          (23000, 23000)] ++ [(23001, 23001)])).2
     = replicate 5 Next ++ [TooMany msg r]).
Proof.
  destruct (auth_requests_pass_limiter_twice ∅ ∅ (Some "10.0.0.7")
              5000 5000 1000 2000 3000 4000 5000 6000
              [(1000, 1000); (1001, 1001); (12000, 12000); (12001, 12001);
               (23000, 23000)]
              1000 23001 23001) as (_ & Htwice & (Hburst & _) & (Hsust & _)).
  - by vm_compute.
  - by vm_compute.
  - by vm_compute.
  - reflexivity.
  - lia.
  - lia.
  - unfold burstWindowMs. lia.
  - reflexivity.
  - reflexivity.
  - unfold windowMs, passes. simpl. repeat (constructor; [lia|]). constructor.
  - intros i x y Hx Hy. unfold burstWindowMs, passes in *. simpl in Hx, Hy.
    rewrite Nat.add_comm in Hy.
    do 5 (destruct i as [|i]; [simpl in *; simplify_eq; lia|]).
    discriminate.
  - exact (conj Htwice (conj Hburst Hsust)).
Defined.

End AppFacts.

Section LRUCacheFacts.
Import LRUCache.
Context {V : Type}.

Implicit Types (c : list (Slot V)) (s : Slot V) (k : string) (o : Options).

Lemma find_Some k c s : find k c = Some s → s ∈ c ∧ key s = k.
Proof.
  unfold find. intros H. apply find_some in H as [Hin Hk].
  split; [by apply list_elem_of_In|]. by apply bool_decide_eq_true in Hk.
Qed.

Lemma find_None k c : find k c = None ↔ k ∉ key <$> c.
Proof.
  unfold find. induction c as [|s c IH]; simpl.
  - split; [intros _; apply not_elem_of_nil|done].
  - rewrite not_elem_of_cons. case_bool_decide as Hk.
    + split; [done|]. by intros [? _].
    + rewrite IH. split; [by split|by intros [_ ?]].
Qed.

Lemma find_elem c s : NoDup (key <$> c) → s ∈ c → find (key s) c = Some s.
Proof.
  unfold find. induction c as [|x c IH]; [by intros _ ?%elem_of_nil|].
  rewrite fmap_cons. intros [Hx Hc]%NoDup_cons [->|Hs]%elem_of_cons; simpl.
  - by rewrite bool_decide_eq_true_2.
  - rewrite bool_decide_eq_false_2; [by apply IH|].
    intros Hk. apply Hx. rewrite Hk. by apply list_elem_of_fmap_2.
Qed.

Lemma find_app k c1 c2 :
  find k (c1 ++ c2) = match find k c1 with Some s => Some s | None => find k c2 end.
Proof.
  unfold find. induction c1 as [|s c1 IH]; simpl; [done|].
  by case_bool_decide.
Qed.

Lemma find_snoc k c s :
  find k c = None → key s = k → find k (c ++ [s]) = Some s.
Proof.
  intros Hc Hk. rewrite find_app, Hc. unfold find. simpl.
  by rewrite bool_decide_eq_true_2.
Qed.

Lemma keys_delete k c : key <$> delete k c = filter (λ k', k' ≠ k) (key <$> c).
Proof.
  unfold delete. induction c as [|s c IH]; [done|].
  rewrite fmap_cons. destruct (decide (key s ≠ k)).
  - rewrite (filter_cons_True (λ s, key s ≠ k)) by done.
    rewrite (filter_cons_True (λ k', k' ≠ k)) by done.
    rewrite fmap_cons. f_equal. exact IH.
  - rewrite (filter_cons_False (λ s, key s ≠ k)) by done.
    rewrite (filter_cons_False (λ k', k' ≠ k)) by done. exact IH.
Qed.

Lemma find_delete k c : find k (delete k c) = None.
Proof.
  apply find_None. rewrite keys_delete, list_elem_of_filter. by intros [? _].
Qed.

Lemma find_delete_ne k k' c : k ≠ k' → find k' (delete k c) = find k' c.
Proof.
  intros Hne. unfold find, delete. induction c as [|s c IH]; [done|].
  rewrite filter_cons. destruct (decide (key s ≠ k)) as [Hk|Hk]; simpl.
  - by rewrite IH.
  - rewrite IH. rewrite bool_decide_eq_false_2; [done|].
    intros Heq. apply Hk. congruence.
Qed.

Lemma delete_length k c : (length (delete k c) ≤ length c)%nat.
Proof. apply length_filter. Qed.

Lemma delete_length_found k c s :
  find k c = Some s → (length (delete k c) < length c)%nat.
Proof.
  intros [Hin Hk]%find_Some. apply (length_filter_lt _ _ s); [done|].
  by intros Hne.
Qed.

Lemma delete_absent k c : find k c = None → delete k c = c.
Proof.
  rewrite find_None. unfold delete. induction c as [|s c IH]; [done|].
  rewrite fmap_cons, not_elem_of_cons. intros [Hs Hc].
  rewrite filter_cons_True by done. by rewrite IH.
Qed.

(** The size never passes [max]. *)
Lemma get_length o now k c : (length (get o now k c).1 ≤ length c)%nat.
Proof.
  unfold get. destruct (find k c) as [s|] eqn:Hf; [|done].
  pose proof (delete_length_found _ _ _ Hf).
  destruct (isStale o now s); simpl; [lia|]. rewrite length_app. simpl. lia.
Qed.

Lemma set_length o now k v c :
  (0 < max o)%nat → (length c ≤ max o)%nat →
  (length (set o now k v c) ≤ max o)%nat.
Proof.
  intros Hpos Hle. unfold set. destruct (find k c) as [s|] eqn:Hf.
  - pose proof (delete_length_found _ _ _ Hf). rewrite length_app. simpl. lia.
  - destruct (Nat.eqb_spec (length c) (max o)) as [Heq|Hne];
      rewrite length_app; simpl.
    + destruct c; simpl in *; lia.
    + lia.
Qed.

(** The keys stay distinct. *)
Lemma delete_NoDup k c : NoDup (key <$> c) → NoDup (key <$> delete k c).
Proof. intros H. rewrite keys_delete. by apply NoDup_filter. Qed.

Lemma snoc_NoDup k v t c :
  NoDup (key <$> c) → k ∉ key <$> c → NoDup (key <$> c ++ [mkSlot k v t]).
Proof.
  intros Hnd Hk. rewrite fmap_app. apply NoDup_app. split_and!; [done| |].
  - intros k' Hin [->|[]%elem_of_nil]%elem_of_cons. done.
  - apply NoDup_singleton.
Qed.

Lemma get_NoDup o now k c : NoDup (key <$> c) → NoDup (key <$> (get o now k c).1).
Proof.
  intros Hnd. unfold get. destruct (find k c) as [s|] eqn:Hf; [|done].
  destruct (isStale o now s); simpl; [by apply delete_NoDup|].
  apply snoc_NoDup; [by apply delete_NoDup|]. apply find_None, find_delete.
Qed.

Lemma tail_NoDup c : NoDup (key <$> c) → NoDup (key <$> tail c).
Proof. destruct c; simpl; [done|]. by intros [_ ?]%NoDup_cons. Qed.

Lemma set_NoDup o now k v c : NoDup (key <$> c) → NoDup (key <$> set o now k v c).
Proof.
  intros Hnd. unfold set. destruct (find k c) as [s|] eqn:Hf.
  - apply snoc_NoDup; [by apply delete_NoDup|]. apply find_None, find_delete.
  - apply find_None in Hf. destruct (length c =? max o)%nat.
    + apply snoc_NoDup; [by apply tail_NoDup|].
      destruct c; simpl in *; [done|]. by apply not_elem_of_cons in Hf as [_ ?].
    + by apply snoc_NoDup.
Qed.

(** Under [updateAgeOnGet], an entry is used at the reading its age
    is counted from, so the order of use is the order of these
    readings as long as the clock does not go back. *)
Lemma filter_StronglySorted {A} (R : relation A) (P : A → Prop)
    `{∀ x, Decision (P x)} (l : list A) :
  StronglySorted R l → StronglySorted R (filter P l).
Proof.
  induction 1 as [|x l Hl IH Hx]; [constructor|].
  rewrite filter_cons. case_decide; [|done].
  constructor; [done|]. rewrite Forall_forall in *.
  intros y [_ Hy]%list_elem_of_filter. by apply Hx.
Qed.

Lemma delete_usedInOrder k c : usedInOrder c → usedInOrder (delete k c).
Proof. apply filter_StronglySorted. Qed.

Lemma delete_subseteq k c : delete k c ⊆ c.
Proof. intros s [_ ?]%list_elem_of_filter. done. Qed.

Lemma snoc_usedInOrder c s :
  usedInOrder c → (∀ s', s' ∈ c → start s' ≤ start s) → usedInOrder (c ++ [s]).
Proof.
  intros Hc Hle. apply StronglySorted_app. split_and!; [|exact Hc|].
  - intros s1 s2 H1 ->%list_elem_of_singleton. by apply Hle.
  - repeat constructor.
Qed.

Lemma tail_usedInOrder c : usedInOrder c → usedInOrder (tail c).
Proof. destruct c; [done|]. by intros [? _]%StronglySorted_inv. Qed.

Lemma tail_subseteq c : tail c ⊆ c.
Proof. destruct c as [|s0 c]; [done|]. intros s ?. by apply elem_of_cons; right. Qed.

Lemma get_usedInOrder o now k c :
  updateAgeOnGet o = true →
  usedInOrder c → (∀ s, s ∈ c → start s ≤ now) →
  usedInOrder (get o now k c).1.
Proof.
  intros Hup Hc Hnow. unfold get. destruct (find k c) as [s|]; [|done].
  destruct (isStale o now s); simpl; [by apply delete_usedInOrder|].
  rewrite Hup. apply snoc_usedInOrder; [by apply delete_usedInOrder|].
  intros s' Hs'. simpl. by apply Hnow, (delete_subseteq k).
Qed.

Lemma set_usedInOrder o now k v c :
  usedInOrder c → (∀ s, s ∈ c → start s ≤ now) →
  usedInOrder (set o now k v c).
Proof.
  intros Hc Hnow. unfold set. destruct (find k c) as [s|].
  - apply snoc_usedInOrder; [by apply delete_usedInOrder|].
    intros s' Hs'. simpl. by apply Hnow, (delete_subseteq k).
  - destruct (length c =? max o)%nat.
    + apply snoc_usedInOrder; [by apply tail_usedInOrder|].
      intros s' Hs'. simpl. by apply Hnow, tail_subseteq.
    + by apply snoc_usedInOrder.
Qed.

(** The readings the ages of the entries are counted from. *)
Lemma get_starts o now k c s :
  s ∈ (get o now k c).1 → start s = now ∨ ∃ s', s' ∈ c ∧ start s = start s'.
Proof.
  unfold get. destruct (find k c) as [s0|] eqn:Hf; [|by eauto].
  destruct (isStale o now s0); simpl.
  - intros Hin%delete_subseteq. eauto.
  - intros [Hin%delete_subseteq| ->%list_elem_of_singleton]%elem_of_app; [by eauto|].
    simpl. destruct (updateAgeOnGet o); [by left|right].
    apply find_Some in Hf as [? _]. eauto.
Qed.

Lemma set_starts o now k v c s :
  s ∈ set o now k v c → start s = now ∨ s ∈ c.
Proof.
  unfold set. destruct (find k c) as [s0|].
  - intros [Hin%delete_subseteq| ->%list_elem_of_singleton]%elem_of_app; eauto.
  - destruct (length c =? max o)%nat.
    + intros [Hin%tail_subseteq| ->%list_elem_of_singleton]%elem_of_app; eauto.
    + intros [Hin| ->%list_elem_of_singleton]%elem_of_app; eauto.
Qed.

End LRUCacheFacts.

Section CacheManagerFacts.
Import LRUCache CacheManager.

Implicit Types (m : CacheManager.t) (ops : list Op) (c : list (Slot CacheEntry)).

Lemma get_cache now k m :
  cache (CacheManager.get now k m).1 = (LRUCache.get options now k (cache m)).1.
Proof.
  unfold CacheManager.get.
  by destruct (LRUCache.get options now k (cache m)) as [c [entry|]].
Qed.

Lemma get_result now k m :
  (CacheManager.get now k m).2
  = data <$> (LRUCache.get options now k (cache m)).2.
Proof.
  unfold CacheManager.get.
  by destruct (LRUCache.get options now k (cache m)) as [c [entry|]].
Qed.

Lemma run_snoc ops op : run (ops ++ [op]) = step (run ops) op.
Proof. unfold run. by rewrite foldl_app. Qed.

Lemma readings_snoc ops op :
  readings (ops ++ [op])
  = readings ops ++ match reading op with Some now => [now] | None => [] end.
Proof. unfold readings. rewrite omap_app. simpl. by destruct (reading op). Qed.

(** The deletions of the sweep only take entries away. *)
Lemma sweep_subseteq now c live : sweep now c live ⊆ c.
Proof.
  revert c. induction live as [|kv live IH]; intros c; simpl; [done|].
  etrans; [apply IH|]. case_match; [apply delete_subseteq|done].
Qed.

Lemma sweep_length now c live : (length (sweep now c live) ≤ length c)%nat.
Proof.
  revert c. induction live as [|kv live IH]; intros c; simpl; [done|].
  etrans; [apply IH|]. case_match; [apply delete_length|done].
Qed.

Lemma sweep_NoDup now c live :
  NoDup (key <$> c) → NoDup (key <$> sweep now c live).
Proof.
  revert c. induction live as [|kv live IH]; intros c Hnd; simpl; [done|].
  apply IH. case_match; [by apply delete_NoDup|done].
Qed.

Lemma sweep_usedInOrder now c live :
  usedInOrder c → usedInOrder (sweep now c live).
Proof.
  revert c. induction live as [|kv live IH]; intros c Hc; simpl; [done|].
  apply IH. case_match; [by apply delete_usedInOrder|done].
Qed.

Lemma run_invariant ops : cacheInv ops (run ops).
Proof.
  induction ops as [|op ops IH] using rev_ind.
  - split_and!; [constructor|simpl; lia|]. by intros s ?%elem_of_nil.
  - destruct IH as (Hnd & Hlen & Hst). rewrite run_snoc.
    unfold cacheInv. rewrite readings_snoc.
    destruct op as [now k|now k u|now k| |time|now]; simpl.
    + rewrite get_cache. split_and!.
      * by apply get_NoDup.
      * etrans; [apply get_length|done].
      * intros s [->|(s' & Hs' & ->)]%get_starts; apply elem_of_app.
        -- right. by apply list_elem_of_singleton.
        -- left. by apply Hst.
    + split_and!.
      * by apply set_NoDup.
      * apply set_length; [simpl; lia|done].
      * intros s [->|Hin]%set_starts; apply elem_of_app.
        -- right. by apply list_elem_of_singleton.
        -- left. by apply Hst.
    + split_and!; [done|done|]. intros s Hs. apply elem_of_app. left. by apply Hst.
    + split_and!; [constructor|lia|]. by intros s ?%elem_of_nil.
    + split_and!; [done|done|]. rewrite app_nil_r. done.
    + split_and!.
      * by apply sweep_NoDup.
      * etrans; [apply sweep_length|done].
      * intros s Hs%sweep_subseteq. apply elem_of_app. left. by apply Hst.
Qed.

(** With a clock that does not go back, the entries lie in the order
    of their last use. *)
Lemma run_usedInOrder ops :
  StronglySorted Z.le (readings ops) → usedInOrder (cache (run ops)).
Proof.
  induction ops as [|op ops IH] using rev_ind; [constructor|].
  rewrite readings_snoc, run_snoc. intros Hsorted.
  apply StronglySorted_app in Hsorted as (Hle & Hops & _).
  specialize (IH Hops). destruct (run_invariant ops) as (_ & _ & Hst).
  destruct op as [now k|now k u|now k| |time|now]; simpl in *; try done.
  - rewrite get_cache. apply get_usedInOrder; [done|done|].
    intros s Hs. apply Hle; [by apply Hst|by apply list_elem_of_singleton].
  - apply set_usedInOrder; [done|].
    intros s Hs. apply Hle; [by apply Hst|by apply list_elem_of_singleton].
  - constructor.
  - by apply sweep_usedInOrder.
Qed.

Lemma track_run k ops : (foldl (track k) (new, None) ops).1 = run ops.
Proof.
  induction ops as [|op ops IH] using rev_ind; [done|].
  rewrite foldl_app, run_snoc. simpl. by rewrite IH.
Qed.

Lemma lastUse_snoc k ops op :
  lastUse k (ops ++ [op])
  = match uses k (run ops) op with Some now => Some now | None => lastUse k ops end.
Proof. unfold lastUse. rewrite foldl_app. simpl. by rewrite track_run. Qed.

Lemma find_sweep now k c live s :
  find k (sweep now c live) = Some s → find k c = Some s.
Proof.
  revert c. induction live as [|kv live IH]; intros c; simpl; [done|].
  intros H%IH. case_match; [|done].
  destruct (decide (kv.1 = k)) as [<-|Hne].
  - by rewrite find_delete in H.
  - by rewrite find_delete_ne in H.
Qed.

Lemma find_tail k c s :
  NoDup (key <$> c) → find k (tail c) = Some s → find k c = Some s.
Proof.
  destruct c as [|v c]; [done|]. simpl. intros [Hv _]%NoDup_cons Hf.
  unfold find. simpl. rewrite bool_decide_eq_false_2; [done|].
  intros Hk. apply find_Some in Hf as [Hin Hs]. apply Hv.
  rewrite Hk, <- Hs. by apply list_elem_of_fmap_2.
Qed.

Lemma find_snoc_ne k c s :
  key s ≠ k → find k (c ++ [s]) = find k c.
Proof.
  intros Hne. rewrite find_app. destruct (find k c); [done|].
  unfold find. simpl. by rewrite bool_decide_eq_false_2.
Qed.

(** The entry found under a key after a call was put there by this
    call, which used the key at its reading, or was there before. *)
Lemma step_slot k m op s :
  NoDup (key <$> cache m) →
  find k (cache (step m op)) = Some s →
  uses k m op = Some (start s) ∨ (uses k m op = None ∧ find k (cache m) = Some s).
Proof.
  intros Hnd. destruct op as [now k'|now k' u|now k'| |time|now]; simpl.
  - rewrite get_cache. case_decide as Hk.
    + subst k'. rewrite get_result. unfold LRUCache.get.
      destruct (find k (cache m)) as [s0|] eqn:Hf; simpl; [|congruence].
      destruct (isStale options now s0); simpl.
      * by rewrite find_delete.
      * rewrite find_snoc by (done || apply find_delete).
        intros [= <-]. by left.
    + intros Hs. right. split; [done|]. revert Hs. unfold LRUCache.get.
      destruct (find k' (cache m)) as [s0|]; [|done].
      destruct (isStale options now s0); simpl.
      * by rewrite find_delete_ne.
      * rewrite find_snoc_ne by done. by rewrite find_delete_ne.
  - unfold LRUCache.set. case_decide as Hk.
    + subst k'. intros Hs. left. revert Hs.
      destruct (find k (cache m)) as [s0|] eqn:Hf.
      * rewrite find_snoc by (done || apply find_delete). by intros [= <-].
      * assert (find k (tail (cache m)) = None) as Ht.
        { apply find_None. apply find_None in Hf.
          destruct (cache m); simpl in *; [done|].
          by apply not_elem_of_cons in Hf as [_ ?]. }
        destruct (length (cache m) =? max options)%nat;
          rewrite find_snoc by done; by intros [= <-].
    + intros Hs. right. split; [done|]. revert Hs.
      destruct (find k' (cache m)) as [s0|].
      * rewrite find_snoc_ne by done. by rewrite find_delete_ne.
      * destruct (length (cache m) =? max options)%nat;
          rewrite find_snoc_ne by done; [by apply find_tail|done].
  - by right.
  - done.
  - by right.
  - intros Hs%find_sweep. by right.
Qed.

Lemma lastUse_start k ops s :
  find k (cache (run ops)) = Some s → lastUse k ops = Some (start s).
Proof.
  revert s. induction ops as [|op ops IH] using rev_ind; intros s; [done|].
  rewrite run_snoc, lastUse_snoc. intros Hs.
  destruct (run_invariant ops) as (Hnd & _ & _).
  destruct (step_slot k (run ops) op s Hnd Hs) as [->|[-> Hold]]; [done|].
  by apply IH.
Qed.

(** A [get] that returns a value found a live entry under the key. *)
Lemma get_hit now k m user :
  (CacheManager.get now k m).2 = Some user →
  ∃ s, find k (cache m) = Some s ∧ data (value s) = user ∧
       now - start s ≤ CACHE_TTL ∧
       cache (CacheManager.get now k m).1
       = delete k (cache m) ++ [mkSlot k (value s) now] ∧
       hits (stats (CacheManager.get now k m).1) = hits (stats m) + 1.
Proof.
  unfold CacheManager.get, LRUCache.get.
  destruct (find k (cache m)) as [s|] eqn:Hf; [|done].
  unfold isStale. simpl.
  destruct (CACHE_TTL <? now - start s) eqn:Hage; simpl; [done|].
  intros [= <-]. exists s. apply Z.ltb_ge in Hage. done.
Qed.

(** After a [get] that returned nothing, [has] is false for the key:
    the entry is not there, or was stale and has been deleted.  The
    50 ms wait of the handler is never taken. *)
Lemma get_miss_has now later k m :
  (CacheManager.get now k m).2 = None →
  CacheManager.has later k (CacheManager.get now k m).1 = false.
Proof.
  unfold CacheManager.get, CacheManager.has, LRUCache.get, LRUCache.has.
  destruct (find k (cache m)) as [s|] eqn:Hf; simpl.
  - destruct (isStale options now s); simpl; [|done].
    intros _. by rewrite find_delete.
  - intros _. by rewrite Hf.
Qed.

(** The hit counter never goes down on a [get]. *)
Lemma get_hits_monotone now k m :
  hits (stats m) ≤ hits (stats (CacheManager.get now k m).1).
Proof.
  unfold CacheManager.get.
  destruct (LRUCache.get options now k (cache m)) as [c [entry|]]; simpl; lia.
Qed.

(** C1, as the code has it.  A value that [get] returns is at most
    [CACHE_TTL] old counted from the last use of its key, which is the
    last [set] of the key or the last [get] that returned it, not from
    its insertion.  This [get] is then the last use: the entry becomes
    the most recently used one and stays live for [CACHE_TTL] from
    [now], with the value and the insertion timestamp it had. *)
Theorem get_value_fresh_since_last_use ops now k user :
  (CacheManager.get now k (run ops)).2 = Some user →
  (∃ used, lastUse k ops = Some used ∧ now - used ≤ CACHE_TTL) ∧
  lastUse k (ops ++ [CallGet now k]) = Some now ∧
  (∃ entry, stored k (run ops) = Some entry ∧ data entry = user ∧
            last (cache (CacheManager.get now k (run ops)).1)
            = Some (mkSlot k entry now)) ∧
  (∀ later, CacheManager.has later k (CacheManager.get now k (run ops)).1
            = bool_decide (later - now ≤ CACHE_TTL)).
Proof.
  intros Hget.
  destruct (get_hit _ _ _ _ Hget) as (s & Hf & Hdata & Hage & Hcache & _).
  split_and!.
  - exists (start s). split; [by apply lastUse_start|done].
  - rewrite lastUse_snoc. simpl. rewrite decide_True by done. by rewrite Hget.
  - exists (value s). unfold stored. rewrite Hf, Hcache, last_snoc. done.
  - intros later. unfold CacheManager.has, LRUCache.has. rewrite Hcache.
    rewrite find_snoc by (done || apply find_delete).
    unfold isStale. simpl. case_bool_decide as Hl.
    + apply Z.ltb_ge in Hl. by rewrite Hl.
    + apply Z.nle_gt, Z.ltb_lt in Hl. by rewrite Hl.
Qed.

Lemma get_value_fresh_since_last_use_witness :
  lastUse "user:1"
    ([CallSet 1000 "user:1" (User.mk 1 "John Doe" "john@example.com" None None);
      CallCleanStaleEntries 30000;
      CallGet 50000 "user:1";
      CallCleanStaleEntries 60000] ++ [CallGet 70000 "user:1"])
  = Some 70000.
Proof.
  apply (get_value_fresh_since_last_use
           [CallSet 1000 "user:1" (User.mk 1 "John Doe" "john@example.com" None None);
            CallCleanStaleEntries 30000;
            CallGet 50000 "user:1";
            CallCleanStaleEntries 60000]
           70000 "user:1" (User.mk 1 "John Doe" "john@example.com" None None)).
  vm_compute. reflexivity.
Defined.

(** C1 as stated fails: stored at 1000 and read at 50000, with the
    sweeps of the background task at 30000 and 60000, the entry is
    returned again at 70000, 69 s after its insertion; and the read at
    50000 moved the end of its life from 61000 to 110000. *)
Lemma get_returns_entry_older_than_ttl :
  ¬ (∀ ops now k user,
       StronglySorted Z.le (readings ops ++ [now]) →
       (CacheManager.get now k (run ops)).2 = Some user →
       ∃ entry, stored k (run ops) = Some entry ∧ data entry = user ∧
                now - timestamp entry ≤ CACHE_TTL) ∧
  ¬ (∀ ops now k user later,
       (CacheManager.get now k (run ops)).2 = Some user →
       CacheManager.has later k (CacheManager.get now k (run ops)).1
       = CacheManager.has later k (run ops)).
Proof.
  split.
  - intros H.
    destruct (H [CallSet 1000 "user:1"
                   (User.mk 1 "John Doe" "john@example.com" None None);
                 CallCleanStaleEntries 30000;
                 CallGet 50000 "user:1";
                 CallCleanStaleEntries 60000]
                70000 "user:1"
                (User.mk 1 "John Doe" "john@example.com" None None))
      as (entry & Hst & _ & Hage).
    + apply (bool_decide_unpack _). vm_compute. exact I.
    + vm_compute. reflexivity.
    + vm_compute in Hst. injection Hst as <-. vm_compute in Hage. by apply Hage.
  - intros H.
    specialize (H [CallSet 1000 "user:1"
                     (User.mk 1 "John Doe" "john@example.com" None None)]
                  50000 "user:1"
                  (User.mk 1 "John Doe" "john@example.com" None None) 61001).
    vm_compute in H. by specialize (H eq_refl).
Qed.

Lemma stored_None k m : stored k m = None → find k (cache m) = None.
Proof. unfold stored. by destruct (find k (cache m)). Qed.

(** C8. Whatever calls were made, the cache holds at most 1000 entries.
    When it holds 1000 and [set] is called with a key it does not hold,
    the entry at the least recently used end is the one that goes: the
    other 999 stay as they are, in their order, and the new entry joins
    them at the most recently used end.  With a clock that does not go
    back, the last use of the evicted key (its last [set], or the last
    [get] that returned it) is not after the last use of any key that
    stays. *)
Theorem cache_bounded_and_evicts_least_recent ops now k user :
  StronglySorted Z.le (readings ops ++ [now]) →
  size (cache (run ops)) = 1000%nat →
  stored k (run ops) = None →
  (∀ ops', (size (cache (run ops')) ≤ 1000)%nat) ∧
  ∃ victim rest,
    cache (run ops) = victim :: rest ∧
    cache (CacheManager.set now k user (run ops))
    = rest ++ [mkSlot k (mkCacheEntry user now) now] ∧
    (∀ s, s ∈ rest →
       ∃ usedVictim used,
         lastUse (key victim) ops = Some usedVictim ∧
         lastUse (key s) ops = Some used ∧ usedVictim ≤ used) ∧
    stored (key victim) (CacheManager.set now k user (run ops)) = None ∧
    size (cache (CacheManager.set now k user (run ops))) = 1000%nat.
Proof.
  intros Hsorted Hsize Hnew%stored_None. split.
  { intros ops'. by destruct (run_invariant ops') as (_ & ? & _). }
  apply StronglySorted_app in Hsorted as (_ & Hops & _).
  pose proof (run_usedInOrder ops Hops) as Hord.
  destruct (run_invariant ops) as (Hnd & _ & _).
  pose proof (λ s, lastUse_start (key s) ops s) as Hlast.
  pose proof (find_elem (cache (run ops))) as Helem.
  unfold size in *. unfold CacheManager.set, stored. cbn [cache].
  destruct (cache (run ops)) as [|victim rest]; [discriminate|].
  exists victim, rest. unfold LRUCache.set. rewrite Hnew, Hsize.
  change (1000 =? max options)%nat with true. cbn [tail].
  split_and!; [done|done| | |].
  - apply StronglySorted_inv in Hord as [_ Hle].
    rewrite Forall_forall in Hle. intros s Hs.
    exists (start victim), (start s). split_and!.
    + apply Hlast, Helem; [done|left].
    + apply Hlast, Helem; [done|by right].
    + by apply Hle.
  - assert (find (key victim) (rest ++ [mkSlot k (mkCacheEntry user now) now])
            = None) as ->; [|done].
    apply find_None. rewrite fmap_app. simpl.
    rewrite fmap_cons in Hnd. apply NoDup_cons in Hnd as [Hv _].
    apply find_None in Hnew. rewrite fmap_cons in Hnew.
    apply not_elem_of_cons in Hnew as [Hk _].
    rewrite elem_of_app, list_elem_of_singleton. intros [?|?]; congruence.
  - rewrite length_app. simpl in *. lia.
Qed.

Lemma cache_bounded_and_evicts_least_recent_witness :
  ∃ victim rest,
    cache (run (filled 1000 (User.mk 1 "John Doe" "john@example.com" None None)))
    = victim :: rest ∧
    cache (CacheManager.set 1000 "1000"
             (User.mk 1 "John Doe" "john@example.com" None None)
             (run (filled 1000 (User.mk 1 "John Doe" "john@example.com" None None))))
    = rest ++ [mkSlot "1000"
                 (mkCacheEntry (User.mk 1 "John Doe" "john@example.com" None None)
                    1000) 1000].
Proof.
  destruct (cache_bounded_and_evicts_least_recent
              (filled 1000 (User.mk 1 "John Doe" "john@example.com" None None))
              1000 "1000" (User.mk 1 "John Doe" "john@example.com" None None))
    as (_ & victim & rest & Hc & Hset & _).
  - apply (bool_decide_unpack _). vm_compute. exact I.
  - vm_compute. reflexivity.
  - vm_compute. reflexivity.
  - exists victim, rest. split; assumption.
Defined.

(** The first of the 1000 entries stored is the one evicted. *)
Example filled_cache_evicts_first :
  key <$> head (cache (run (filled 1000 (User.mk 1 "John Doe" "john@example.com" None None))))
  = Some "0" ∧
  stored "0"
    (CacheManager.set 1000 "1000"
       (User.mk 1 "John Doe" "john@example.com" None None)
       (run (filled 1000 (User.mk 1 "John Doe" "john@example.com" None None))))
  = None ∧
  is_Some (stored "1"
    (CacheManager.set 1000 "1000"
       (User.mk 1 "John Doe" "john@example.com" None None)
       (run (filled 1000 (User.mk 1 "John Doe" "john@example.com" None None))))).
Proof. split_and!; [by vm_compute|by vm_compute|]. vm_compute. eauto. Qed.

End CacheManagerFacts.

Section CacheManagerStoreFacts.
Import LRUCache CacheManager.

Implicit Types (m : CacheManager.t) (ops : list Op) (c : list (Slot CacheEntry)).

Lemma log_run ops : (foldl log (new, []) ops).1 = run ops.
Proof.
  induction ops as [|op ops IH] using rev_ind; [done|].
  rewrite foldl_app, run_snoc. simpl. by rewrite IH.
Qed.

Lemma answersSinceClear_snoc ops op :
  answersSinceClear (ops ++ [op])
  = match op with
    | CallGet now k => answersSinceClear ops ++ [(CacheManager.get now k (run ops)).2]
    | CallClear => []
    | _ => answersSinceClear ops
    end.
Proof.
  unfold answersSinceClear. rewrite foldl_app. simpl. rewrite log_run.
  by destruct op.
Qed.

(** X7: [hits] is the number of [get] calls since the last [clear] that
    returned a user, and [misses] the number of those that returned
    null. *)
Theorem hits_and_misses_count_answers ops :
  hits (stats (run ops))
  = Z.of_nat (length (filter is_Some (answersSinceClear ops))) ∧
  misses (stats (run ops))
  = Z.of_nat (length (filter (λ a, a = None) (answersSinceClear ops))).
Proof.
  induction ops as [|op ops [IHh IHm]] using rev_ind; [done|].
  rewrite run_snoc, answersSinceClear_snoc.
  destruct op as [now k|now k u|now k| |time|now]; simpl; try done.
  rewrite !filter_app, !length_app, !Nat2Z.inj_add, <- IHh, <- IHm.
  unfold CacheManager.get.
  destruct (LRUCache.get options now k (cache (run ops))) as [c [entry|]]; simpl.
  - lia.
  - lia.
Qed.

Lemma timesSinceClear_snoc ops op :
  timesSinceClear (ops ++ [op])
  = match op with
    | CallClear => []
    | CallRecordResponseTime time => timesSinceClear ops ++ [time]
    | _ => timesSinceClear ops
    end.
Proof. unfold timesSinceClear. rewrite foldl_app. by destruct op. Qed.

(** X8: the statistics keep the last 1000 response times recorded since
    the last [clear], in the order they came. *)
Theorem responseTimes_are_last_1000 ops :
  responseTimes (stats (run ops))
  = drop (length (timesSinceClear ops) - 1000) (timesSinceClear ops).
Proof.
  induction ops as [|op ops IH] using rev_ind; [done|].
  rewrite run_snoc, timesSinceClear_snoc.
  destruct op as [now k|now k u|now k| |time|now]; simpl; try done.
  - rewrite <- IH. unfold CacheManager.get.
    by destruct (LRUCache.get options now k (cache (run ops))) as [c [entry|]].
  - rewrite IH. set (ts := timesSinceClear ops).
    rewrite !length_app, length_drop. simpl.
    destruct (decide (length ts < 1000)%nat) as [Hlt|Hge].
    + replace (length ts - 1000)%nat with 0%nat by lia.
      replace (length ts + 1 - 1000)%nat with 0%nat by lia.
      rewrite !drop_0. replace (length ts - 0 + 1)%nat with (S (length ts)) by lia.
      destruct (Nat.ltb_spec 1000 (S (length ts))); [lia|done].
    + replace (length ts - (length ts - 1000) + 1)%nat with 1001%nat by lia.
      change (1000 <? 1001)%nat with true. cbv iota.
      rewrite <- (drop_app_le ts [time]) by lia.
      change (tail ?l) with (drop 1 l). rewrite drop_drop.
      f_equal. lia.
Qed.

(** The pairs the iterator yields are the live entries. *)
Lemma entries_elem now c k v :
  (k, v) ∈ entries options now c
  ↔ ∃ s, s ∈ c ∧ key s = k ∧ value s = v ∧ isStale options now s = false.
Proof.
  unfold entries. rewrite list_elem_of_fmap. split.
  - intros (s & [= -> ->] & Hs). exists s.
    apply elem_of_reverse, list_elem_of_filter in Hs as [Hlive Hs]. done.
  - intros (s & Hs & <- & <- & Hlive). exists s. split; [done|].
    apply elem_of_reverse, list_elem_of_filter. done.
Qed.

(** An entry that the sweep leaves was not found old in any pair. *)
Lemma sweep_found now k c live s :
  find k (sweep now c live) = Some s →
  ∀ e, (k, e) ∈ live → now - timestamp e ≤ CACHE_TTL.
Proof.
  revert c. induction live as [|kv live IH]; intros c Hf e;
    [by intros ?%elem_of_nil|].
  simpl in Hf. intros [<-|He]%elem_of_cons; [|by apply (IH _ Hf)].
  simpl in Hf. destruct (CACHE_TTL <? now - timestamp e) eqn:Hold;
    [|by apply Z.ltb_ge].
  apply find_sweep in Hf. by rewrite find_delete in Hf.
Qed.

(** The sweep leaves alone a key none of whose pairs is old. *)
Lemma sweep_keeps now k c live :
  (∀ e, (k, e) ∈ live → now - timestamp e ≤ CACHE_TTL) →
  find k (sweep now c live) = find k c.
Proof.
  revert c. induction live as [|[k' e'] live IH]; intros c Hlive; [done|].
  simpl. rewrite IH by (intros e He; apply Hlive; by right).
  destruct (CACHE_TTL <? now - timestamp e') eqn:Hold; [|done].
  apply find_delete_ne. intros ->. apply Z.ltb_lt in Hold.
  assert ((k, e') ∈ (k, e') :: live) as He by left. apply Hlive in He. lia.
Qed.

Lemma isStale_false now (s : Slot CacheEntry) :
  isStale options now s = false ↔ now - start s ≤ CACHE_TTL.
Proof.
  unfold isStale. simpl. rewrite Z.ltb_ge. done.
Qed.

(** X9: [cleanStaleEntries] removes exactly the entries that the cache
    still counts as live and whose data was stored more than
    [CACHE_TTL] before; every other entry stays as it was, the entries
    that the cache counts as stale among them. *)
Theorem cleanStaleEntries_removes_live_entries_with_old_data ops now k s :
  find k (cache (cleanStaleEntries now (run ops))) = Some s
  ↔ find k (cache (run ops)) = Some s ∧
    (now - start s ≤ CACHE_TTL → now - timestamp (value s) ≤ CACHE_TTL).
Proof.
  destruct (run_invariant ops) as (Hnd & _ & _).
  unfold cleanStaleEntries. cbn [cache]. split.
  - intros Hf. split; [by apply find_sweep in Hf|].
    intros Hlive. apply (sweep_found _ _ _ _ _ Hf).
    apply find_sweep, find_Some in Hf as [Hin Hk].
    apply entries_elem. exists s. by rewrite isStale_false.
  - intros [Hf Hrecent]. rewrite sweep_keeps; [done|].
    intros e (s' & Hin & Hk & <- & Hlive%isStale_false)%entries_elem.
    rewrite <- Hk in Hf. rewrite (find_elem _ _ Hnd Hin) in Hf.
    injection Hf as ->. by apply Hrecent.
Qed.

(** X10: after [cleanStaleEntries] at [swept], a [get] at a later reading
    [now] only returns data that was stored at most [CACHE_TTL] before
    the sweep, however often the entry had been read in between. *)
Theorem get_after_sweep_returns_data_stored_within_ttl m swept now k user :
  swept ≤ now →
  (CacheManager.get now k (cleanStaleEntries swept m)).2 = Some user →
  ∃ entry, stored k m = Some entry ∧ data entry = user ∧
           now - timestamp entry ≤ CACHE_TTL + (now - swept).
Proof.
  intros Hclock (s & Hf & Hdata & Hlive & _)%get_hit.
  exists (value s). unfold stored. cbn [cleanStaleEntries cache] in Hf.
  pose proof (find_sweep _ _ _ _ _ Hf) as Hfm. rewrite Hfm.
  split; [done|]. split; [done|].
  assert (swept - timestamp (value s) ≤ CACHE_TTL); [|lia].
  apply (sweep_found _ _ _ _ _ Hf). apply find_Some in Hfm as [Hin Hk].
  apply entries_elem. exists s. rewrite isStale_false. split_and!; [done..|lia].
Qed.

Lemma get_after_sweep_returns_data_stored_within_ttl_witness :
  ∃ entry,
    stored "user:1"
      (run [CallSet 1000 "user:1"
              (User.mk 1 "John Doe" "john@example.com" None None);
            CallGet 50000 "user:1"]) = Some entry ∧
    data entry = User.mk 1 "John Doe" "john@example.com" None None ∧
    70000 - timestamp entry ≤ CACHE_TTL + (70000 - 60000).
Proof.
  apply (get_after_sweep_returns_data_stored_within_ttl
           (run [CallSet 1000 "user:1"
                   (User.mk 1 "John Doe" "john@example.com" None None);
                 CallGet 50000 "user:1"])
           60000 70000 "user:1").
  - lia.
  - by vm_compute.
Defined.

Lemma setsIn_snoc ops op :
  setsIn (ops ++ [op]) = (setsIn ops + if isSet op then 1 else 0)%nat.
Proof.
  unfold setsIn. rewrite filter_app, length_app. f_equal.
  by destruct op.
Qed.

(** The cache never holds more entries than [set] was called. *)
Lemma run_length ops : (length (cache (run ops)) ≤ setsIn ops)%nat.
Proof.
  induction ops as [|op ops IH] using rev_ind; [done|].
  rewrite run_snoc, setsIn_snoc.
  destruct op as [now k|now k u|now k| |time|now]; simpl.
  - rewrite get_cache. etrans; [apply get_length|lia].
  - unfold LRUCache.set. destruct (find k (cache (run ops))) as [s|] eqn:Hf.
    + rewrite length_app. simpl.
      pose proof (delete_length_found _ _ _ Hf). lia.
    + rewrite length_app. simpl. case_match; [|lia].
      destruct (cache (run ops)); simpl in *; lia.
  - lia.
  - lia.
  - lia.
  - etrans; [apply sweep_length|lia].
Qed.

Lemma find_set now k (v : CacheEntry) c :
  find k (LRUCache.set options now k v c) = Some (mkSlot k v now).
Proof.
  unfold LRUCache.set. destruct (find k c) as [s|] eqn:Hf.
  - by rewrite find_snoc by (done || apply find_delete).
  - apply find_snoc; [|done].
    destruct (length c =? max options)%nat; [|done].
    apply find_None. apply find_None in Hf.
    destruct c; simpl in *; [done|].
    by apply not_elem_of_cons in Hf as [_ ?].
Qed.

(** A call that does not touch the key leaves the entry that no read
    has refreshed, as long as the cache is not full when it stores. *)
Lemma step_untouched k m op s :
  NoDup (key <$> cache m) →
  untouched k op = true →
  (isSet op = true → (length (cache m) < max options)%nat) →
  start s = timestamp (value s) →
  find k (cache m) = Some s →
  find k (cache (step m op)) = Some s.
Proof.
  intros Hnd Hop Hroom Hfresh Hf.
  destruct op as [now k'|now k' u|now k'| |time|now]; simpl in *; try done.
  - apply bool_decide_eq_true in Hop. rewrite get_cache. unfold LRUCache.get.
    destruct (find k' (cache m)) as [s0|]; [|done].
    destruct (isStale options now s0); simpl.
    + by rewrite find_delete_ne.
    + rewrite find_snoc_ne by done. by rewrite find_delete_ne.
  - apply bool_decide_eq_true in Hop. unfold LRUCache.set.
    destruct (find k' (cache m)) as [s0|].
    + rewrite find_snoc_ne by done. by rewrite find_delete_ne.
    + specialize (Hroom eq_refl).
      case_match eqn:Hfull; [apply Nat.eqb_eq in Hfull; simpl in *; lia|].
      by rewrite find_snoc_ne.
  - rewrite sweep_keeps; [done|].
    intros e (s' & Hin & Hk & <- & Hlive%isStale_false)%entries_elem.
    rewrite <- Hk in Hf. rewrite (find_elem _ _ Hnd Hin) in Hf.
    injection Hf as ->. lia.
Qed.

(** X11: what [set] stores under a key, [get] returns for [CACHE_TTL]
    from the [set]: whatever calls came in between on other keys, and
    whatever sweeps, as long as the cache was not emptied and, [set]
    having been called at most 1000 times, nothing was evicted; later
    than that [get] returns null. *)
Theorem get_returns_what_set_stored ops1 ops2 stored_at now k user :
  Forall (λ op, untouched k op = true) ops2 →
  (setsIn (ops1 ++ CallSet stored_at k user :: ops2) ≤ 1000)%nat →
  (CacheManager.get now k (run (ops1 ++ CallSet stored_at k user :: ops2))).2
  = if bool_decide (now - stored_at ≤ CACHE_TTL) then Some user else None.
Proof.
  intros Hops Hsets.
  assert (find k (cache (run (ops1 ++ CallSet stored_at k user :: ops2)))
          = Some (mkSlot k (mkCacheEntry user stored_at) stored_at)) as Hf.
  { induction ops2 as [|op ops2 IH] using rev_ind.
    - rewrite run_snoc. simpl. apply find_set.
    - apply Forall_app in Hops as [Hops2 [Hop _]%Forall_cons].
      rewrite app_comm_cons, app_assoc in Hsets |- *.
      rewrite setsIn_snoc in Hsets. rewrite run_snoc.
      destruct (run_invariant (ops1 ++ CallSet stored_at k user :: ops2))
        as (Hnd & _ & _).
      apply step_untouched; [done|done| |done|].
      + intros Hset. rewrite Hset in Hsets.
        pose proof (run_length (ops1 ++ CallSet stored_at k user :: ops2)).
        simpl. lia.
      + apply IH; [done|]. lia. }
  unfold CacheManager.get, LRUCache.get. rewrite Hf. unfold isStale. simpl.
  case_bool_decide as Hage.
  - apply Z.ltb_ge in Hage. by rewrite Hage.
  - apply Z.nle_gt, Z.ltb_lt in Hage. by rewrite Hage.
Qed.

Lemma get_returns_what_set_stored_witness :
  (CacheManager.get 61000 "user:1"
     (run ([CallSet 500 "user:2"
              (User.mk 2 "Jane Smith" "jane@example.com" None None)]
           ++ CallSet 1000 "user:1"
                (User.mk 1 "John Doe" "john@example.com" None None)
           :: [CallGet 2000 "user:2"; CallCleanStaleEntries 30000;
               CallSet 40000 "user:3"
                 (User.mk 3 "Alice Johnson" "alice@example.com" None None);
               CallCleanStaleEntries 60000]))).2
  = if bool_decide (61000 - 1000 ≤ CACHE_TTL)
    then Some (User.mk 1 "John Doe" "john@example.com" None None) else None.
Proof.
  apply (get_returns_what_set_stored
           [CallSet 500 "user:2"
              (User.mk 2 "Jane Smith" "jane@example.com" None None)]
           [CallGet 2000 "user:2"; CallCleanStaleEntries 30000;
            CallSet 40000 "user:3"
              (User.mk 3 "Alice Johnson" "alice@example.com" None None);
            CallCleanStaleEntries 60000]
           1000 61000 "user:1"
           (User.mk 1 "John Doe" "john@example.com" None None)).
  - repeat constructor.
  - vm_compute. lia.
Defined.

End CacheManagerStoreFacts.

Section UserServiceFacts.
Import UserService.

Implicit Types (s : UserService.t) (f : Fetch) (id : Z) (p who : nat).

Lemma fetched_NoDup_inj (l : list Fetch) f f' :
  NoDup (fetched <$> l) → f ∈ l → f' ∈ l → fetched f = fetched f' → f = f'.
Proof.
  induction l as [|x l IH]; [by intros _ ?%elem_of_nil|].
  rewrite fmap_cons. intros [Hx Hl]%NoDup_cons.
  intros [->|Hf]%elem_of_cons [->|Hf']%elem_of_cons Heq; [done| | |by apply IH].
  - exfalso. apply Hx. rewrite Heq. by apply list_elem_of_fmap_2.
  - exfalso. apply Hx. rewrite <- Heq. by apply list_elem_of_fmap_2.
Qed.

Lemma filter_NoDup_fetched (P : Fetch → Prop) `{∀ f, Decision (P f)} (l : list Fetch) :
  NoDup (fetched <$> l) → NoDup (fetched <$> filter P l).
Proof.
  induction l as [|x l IH]; [done|]. rewrite fmap_cons.
  intros [Hx Hl]%NoDup_cons. rewrite filter_cons. case_decide; [|by apply IH].
  rewrite fmap_cons. apply NoDup_cons. split; [|by apply IH].
  intros (f & Hf & [_ Hin]%list_elem_of_filter)%list_elem_of_fmap.
  apply Hx. rewrite Hf. by apply list_elem_of_fmap_2.
Qed.

Lemma filter_none {A} (P : A → Prop) `{∀ x, Decision (P x)} (l : list A) :
  (∀ x, x ∈ l → ¬ P x) → filter P l = [].
Proof.
  induction l as [|x l IH]; intros Hl; [done|].
  rewrite filter_cons_False by (apply Hl; left). apply IH.
  intros y Hy. apply Hl. by right.
Qed.

Lemma inFlight_NoDup id (l : list Fetch) :
  NoDup (fetched <$> l) → (length (filter (λ f, fetched f = id) l) ≤ 1)%nat.
Proof.
  induction l as [|x l IH]; [simpl; lia|]. rewrite fmap_cons.
  intros [Hx Hl]%NoDup_cons. rewrite filter_cons. case_decide as Hid; [|by apply IH].
  rewrite filter_none; [simpl; lia|].
  intros f Hf Hfid. apply Hx. rewrite Hid, <- Hfid. by apply list_elem_of_fmap_2.
Qed.

Lemma singleFlight_init (users : gmap Z User.t) : singleFlight (init users).
Proof. split; [constructor|]. by intros f ?%elem_of_nil. Qed.

(** A call registers the key of the fetch it starts, and starts none
    for a key that is registered. *)
Lemma getUserById_singleFlight who id s :
  singleFlight s → singleFlight (getUserById who id s).
Proof.
  intros [Hnd Hreg]. unfold getUserById.
  destruct (pendingRequests s !! id) as [p|] eqn:Hp; [done|].
  split; simpl.
  - rewrite fmap_app. apply NoDup_app. split_and!; [done| |apply NoDup_singleton].
    intros id' (f & Hid & Hf)%list_elem_of_fmap Hid'%list_elem_of_singleton.
    destruct (Hreg f Hf) as [p' Hp']. subst id'. simpl in Hid'.
    rewrite Hid', Hp in Hp'. discriminate.
  - intros f [Hf| ->%list_elem_of_singleton]%elem_of_app; simpl.
    + destruct (decide (fetched f = id)) as [->|Hne].
      * rewrite lookup_insert_eq. eauto.
      * rewrite lookup_insert_ne by done. by apply Hreg.
    + rewrite lookup_insert_eq. eauto.
Qed.

Lemma find_timer p (l : list Fetch) f :
  List.find (λ f, bool_decide (promise f = p)) l = Some f → f ∈ l ∧ promise f = p.
Proof.
  intros [Hin Hp]%find_some. split; [by apply list_elem_of_In|].
  by apply bool_decide_eq_true in Hp.
Qed.

(** The timer of a fetch takes the fetch and its key away together. *)
Lemma fire_singleFlight p s : singleFlight s → singleFlight (fire p s).1.
Proof.
  intros [Hnd Hreg]. unfold fire.
  destruct (List.find _ (timers s)) as [f|] eqn:Hfind; [|done].
  apply find_timer in Hfind as [Hf Hp]. split; simpl.
  - by apply filter_NoDup_fetched.
  - intros f' [Hne Hf']%list_elem_of_filter.
    rewrite lookup_delete_ne; [by apply Hreg|].
    intros Heq. apply Hne. rewrite <- Hp. f_equal.
    by apply (fetched_NoDup_inj (timers s)).
Qed.

Lemma service_run_snoc (users : gmap Z User.t) evs ev :
  run users (evs ++ [ev]) = step (run users evs) ev.
Proof. unfold run. by rewrite foldl_app. Qed.

Lemma run_singleFlight (users : gmap Z User.t) evs :
  singleFlight (run users evs).1.
Proof.
  induction evs as [|ev evs IH] using rev_ind; [apply singleFlight_init|].
  rewrite service_run_snoc. destruct ev as [who id|p]; simpl.
  - by apply getUserById_singleFlight.
  - by apply fire_singleFlight.
Qed.

Lemma singleFlight_inFlight id s : singleFlight s → (inFlight id s ≤ 1)%nat.
Proof. intros [Hnd _]. by apply inFlight_NoDup. Qed.

(** Three overlapping calls for user 2 share one fetch, and a call
    after its timer starts the next one. *)
Example overlapping_calls_share_fetch :
  inFlight 2 (run sampleUsers [Call 0 2; Call 1 2; Call 2 2]).1 = 1%nat ∧
  storeCalls (run sampleUsers [Call 0 2; Call 1 2; Call 2 2]).1 = 1%nat ∧
  inFlight 2 (run sampleUsers [Call 0 2; Call 1 2; Call 2 2; Fire 0]).1 = 0%nat ∧
  storeCalls (run sampleUsers [Call 0 2; Call 1 2; Call 2 2; Fire 0; Call 3 2]).1
  = 2%nat.
Proof. split_and!; by vm_compute. Qed.

End UserServiceFacts.

Section UserServiceOutcomeFacts.
Import UserService.

Implicit Types (s : UserService.t) (db : gmap Z User.t) (evs : list Event).

Lemma timer_of_promise (l : list Fetch) f g :
  NoDup (promise <$> l) → f ∈ l → g ∈ l →
  promise f = promise g → f = g.
Proof.
  intros Hnd Hf Hg Hp.
  apply list_elem_of_lookup in Hf as [i Hi]. apply list_elem_of_lookup in Hg as [j Hj].
  assert (i = j) as ->; [|congruence].
  apply (NoDup_lookup _ i j (promise f) Hnd).
  - by rewrite list_lookup_fmap, Hi.
  - by rewrite list_lookup_fmap, Hj, Hp.
Qed.

Lemma deliver_owed db id (found : option User.t) w :
  found = db !! id → owed db id (deliver found w).2.
Proof.
  intros ->. unfold owed, deliver.
  destruct (db !! id) as [user|]; [by left|].
  destruct (role w); [by left|by right].
Qed.

Lemma deliver_caller (found : option User.t) w : (deliver found w).1 = caller w.
Proof. unfold deliver. destruct found; [done|]. by destruct (role w). Qed.

Lemma getUserById_tracked db evs who id s :
  tracked db evs s → tracked db (evs ++ [Call who id]) (getUserById who id s).
Proof.
  intros (Hu & Hnd & Hlt & Hp & Hw). unfold tracked, getUserById.
  destruct (pendingRequests s !! id) as [p|] eqn:Hid; cbv zeta;
    cbn [users timers storeCalls pendingRequests waiters].
  - split_and!; [done..|].
    intros w [Hin| ->%list_elem_of_singleton]%elem_of_app.
    + destruct (Hw w Hin) as (id' & ? & ?). exists id'.
      split; [done|]. apply elem_of_app. by left.
    + exists id. split; [by apply Hp|].
      apply elem_of_app. right. by apply list_elem_of_singleton.
  - split_and!.
    + done.
    + rewrite fmap_app. apply NoDup_app. split_and!; [done| |apply NoDup_singleton].
      intros p (f & -> & Hf)%list_elem_of_fmap Heq%list_elem_of_singleton.
      apply Hlt in Hf. cbn in Heq. lia.
    + intros f [Hf| ->%list_elem_of_singleton]%elem_of_app.
      * apply Hlt in Hf. lia.
      * cbn. lia.
    + intros id' p. destruct (decide (id' = id)) as [->|Hne].
      * rewrite lookup_insert_eq. intros [= <-].
        apply elem_of_app. right. by apply list_elem_of_singleton.
      * rewrite lookup_insert_ne by done. intros H%Hp.
        apply elem_of_app. by left.
    + intros w [Hin| ->%list_elem_of_singleton]%elem_of_app.
      * destruct (Hw w Hin) as (id' & ? & ?). exists id'.
        split; apply elem_of_app; by left.
      * exists id. split; apply elem_of_app; right;
          by apply list_elem_of_singleton.
Qed.

Lemma fire_tracked db evs p s :
  tracked db evs s →
  tracked db (evs ++ [Fire p]) (fire p s).1 ∧
  ∀ who out, (who, out) ∈ (fire p s).2 →
             ∃ id, Call who id ∈ evs ∧ owed db id out.
Proof.
  intros (Hu & Hnd & Hlt & Hp & Hw). unfold tracked, fire.
  destruct (List.find _ (timers s)) as [f|] eqn:Hfind; cbn [fst snd].
  - apply find_some in Hfind as [Hf%list_elem_of_In Hpf%bool_decide_eq_true].
    split.
    + split_and!; cbn [users timers storeCalls pendingRequests waiters].
      * done.
      * apply NoDup_fmap_2_strong; [|by apply NoDup_filter, (NoDup_fmap_1 promise)].
        intros g h [_ Hg]%list_elem_of_filter [_ Hh]%list_elem_of_filter.
        by apply (timer_of_promise (timers s)).
      * intros g [_ Hg]%list_elem_of_filter. by apply Hlt.
      * intros id p'. intros [Hne Hid]%lookup_delete_Some.
        apply Hp in Hid. apply list_elem_of_filter. split; [|done].
        cbn. intros Hpp. apply Hne.
        assert (f = mkFetch p' id) as ->; [|done].
        apply (timer_of_promise (timers s)); [done..|]. cbn. congruence.
      * intros w [Hne Hin]%list_elem_of_filter.
        destruct (Hw w Hin) as (id & Ht & Hc). exists id. split.
        -- apply list_elem_of_filter. by split.
        -- apply elem_of_app. by left.
    + intros who out (w & Heq & [Haw Hin]%list_elem_of_filter)%list_elem_of_fmap.
      destruct (Hw w Hin) as (id & Ht & Hc).
      assert (f = mkFetch (awaited w) id) as Hfw.
      { apply (timer_of_promise (timers s)); [done..|]. cbn. congruence. }
      exists id. split.
      * replace who with (caller w); [done|].
        by rewrite <- (deliver_caller (users s !! fetched f) w), <- Heq.
      * replace out with (deliver (users s !! fetched f) w).2 by (by rewrite <- Heq).
        apply deliver_owed. by rewrite Hfw, Hu.
  - split; [|by intros who out ?%elem_of_nil].
    split_and!; [done..|].
    intros w Hin. destruct (Hw w Hin) as (id & ? & ?). exists id.
    split; [done|]. apply elem_of_app. by left.
Qed.

Lemma calls_snoc evs ev :
  calls (evs ++ [ev]) = (calls evs + if isCall ev then 1 else 0)%nat.
Proof.
  unfold calls. rewrite filter_app, length_app. f_equal. by destruct ev.
Qed.

Lemma getUserById_waiters who id s :
  length (waiters (getUserById who id s)) = S (length (waiters s)).
Proof.
  unfold getUserById. destruct (pendingRequests s !! id);
    cbv zeta; cbn [waiters]; rewrite length_app; simpl; lia.
Qed.

Lemma fire_waiters p s :
  (length (fire p s).2 + length (waiters (fire p s).1))%nat
  = length (waiters s).
Proof.
  unfold fire. destruct (List.find _ (timers s)); cbn [fst snd waiters]; [|done].
  rewrite length_fmap.
  induction (waiters s) as [|w ws IH]; [done|].
  rewrite !filter_cons. destruct (decide (awaited w = p)).
  - rewrite decide_False by tauto. simpl. lia.
  - rewrite decide_True by done. simpl. lia.
Qed.

(** The service after any calls and timers: the book-keeping is
    consistent, every outcome delivered is the one owed, and every call
    has its outcome or its waiter. *)
Lemma run_tracked db evs :
  tracked db evs (UserService.run db evs).1 ∧
  (∀ who out, (who, out) ∈ (UserService.run db evs).2 →
              ∃ id, Call who id ∈ evs ∧ owed db id out) ∧
  (length (UserService.run db evs).2
   + length (waiters (UserService.run db evs).1))%nat = calls evs.
Proof.
  induction evs as [|ev evs (IHt & IHo & IHn)] using rev_ind.
  - split_and!; [|by intros who out ?%elem_of_nil|done].
    split_and!; [done|constructor|by intros f ?%elem_of_nil|
                 by intros id p ?|by intros w ?%elem_of_nil].
  - rewrite service_run_snoc, calls_snoc.
    destruct ev as [who id|p]; cbn [UserService.step fst snd isCall].
    + split_and!; [by apply getUserById_tracked| |].
      * intros who' out Hin. destruct (IHo who' out Hin) as (id' & ? & ?).
        exists id'. split; [|done]. apply elem_of_app. by left.
      * rewrite getUserById_waiters. lia.
    + destruct (fire_tracked db evs p _ IHt) as [Ht Ho]. split_and!; [done| |].
      * intros who out [Hin|Hin]%elem_of_app.
        -- destruct (IHo who out Hin) as (id' & ? & ?).
           exists id'. split; [|done]. apply elem_of_app. by left.
        -- destruct (Ho who out Hin) as (id' & ? & ?).
           exists id'. split; [|done]. apply elem_of_app. by left.
      * rewrite length_app.
        pose proof (fire_waiters p (UserService.run db evs).1). lia.
Qed.

(** X12: whatever the order of the calls of [getUserById] and of the
    timers, every caller is answered about the id it called with: it
    gets the user the store has under that id; for an id without user
    it gets null, or the rejection [User not found] when it had joined
    a pending fetch. *)
Theorem getUserById_answers_with_user_of_its_id db evs who out :
  (who, out) ∈ (UserService.run db evs).2 →
  ∃ id, Call who id ∈ evs ∧ owed db id out.
Proof.
  destruct (run_tracked db evs) as (_ & Howed & _). apply Howed.
Qed.

Lemma getUserById_answers_with_user_of_its_id_witness :
  ∃ id, Call 1 id ∈ [Call 0 2; Call 1 7; Call 2 2; Fire 1; Fire 0] ∧
        owed sampleUsers id (Returned None).
Proof.
  apply (getUserById_answers_with_user_of_its_id sampleUsers
           [Call 0 2; Call 1 7; Call 2 2; Fire 1; Fire 0] 1 (Returned None)).
  assert (∀ x (l : list (nat * Outcome)), x ∈ x :: l) as Hhere by (by left).
  vm_compute. apply Hhere.
Defined.

(** X13: nothing is left behind: once no fetch timer is in flight, no id
    is registered as pending, no caller is waiting, and every call of
    [getUserById] has been answered, once. *)
Theorem every_call_is_answered_once_timers_fired db evs :
  timers (UserService.run db evs).1 = [] →
  pendingRequests (UserService.run db evs).1 = ∅ ∧
  waiters (UserService.run db evs).1 = [] ∧
  length (UserService.run db evs).2 = calls evs.
Proof.
  destruct (run_tracked db evs) as ((_ & _ & _ & Hp & Hw) & _ & Hn).
  intros Hidle. rewrite Hidle in Hp, Hw.
  assert (waiters (UserService.run db evs).1 = []) as Hnone.
  { destruct (waiters (UserService.run db evs).1) as [|w ws]; [done|].
    destruct (Hw w) as (id & Hin & _); [by left|]. by apply elem_of_nil in Hin. }
  split_and!; [|done|].
  - apply map_empty. intros id.
    destruct (pendingRequests (UserService.run db evs).1 !! id) as [p|] eqn:Hid;
      [|done].
    apply Hp in Hid. by apply elem_of_nil in Hid.
  - rewrite Hnone in Hn. simpl in Hn. lia.
Qed.

Lemma every_call_is_answered_once_timers_fired_witness :
  pendingRequests
    (UserService.run sampleUsers [Call 0 2; Call 1 7; Call 2 2; Fire 1; Fire 0]).1
  = ∅ ∧
  waiters
    (UserService.run sampleUsers [Call 0 2; Call 1 7; Call 2 2; Fire 1; Fire 0]).1
  = [] ∧
  length
    (UserService.run sampleUsers [Call 0 2; Call 1 7; Call 2 2; Fire 1; Fire 0]).2
  = calls [Call 0 2; Call 1 7; Call 2 2; Fire 1; Fire 0].
Proof.
  apply (every_call_is_answered_once_timers_fired sampleUsers
           [Call 0 2; Call 1 7; Call 2 2; Fire 1; Fire 0]).
  by vm_compute.
Defined.

End UserServiceOutcomeFacts.

Section UserAccountsFacts.
Import UserService.

Implicit Types (users : gmap Z User.t) (req : RegisterRequest).

Lemma values_elem users u : u ∈ values users ↔ ∃ k, users !! k = Some u.
Proof.
  unfold values. rewrite list_elem_of_fmap. split.
  - intros ([k u'] & -> & Hin). exists k.
    rewrite merge_sort_Permutation in Hin. by apply elem_of_map_to_list in Hin.
  - intros [k Hk]. exists (k, u). split; [done|].
    rewrite merge_sort_Permutation. by apply elem_of_map_to_list.
Qed.

Lemma getUserByEmail_None e users :
  getUserByEmail e users = None
  ↔ ∀ k u, users !! k = Some u → User.email u ≠ e.
Proof.
  unfold getUserByEmail. split.
  - intros Hnone k u Hk He.
    assert (u ∈ values users) as Hin by (apply values_elem; by exists k).
    apply list_elem_of_In in Hin.
    pose proof (find_none _ _ Hnone u Hin) as Hu. cbv beta in Hu.
    by apply bool_decide_eq_false in Hu.
  - intros Hall. destruct (List.find _ _) as [u|] eqn:Hf; [|done].
    apply find_some in Hf as [Hin He%bool_decide_eq_true].
    apply list_elem_of_In, values_elem in Hin as [k Hk].
    by destruct (Hall k u Hk).
Qed.

Lemma getUserByEmail_Some e users u :
  getUserByEmail e users = Some u →
  ∃ k, users !! k = Some u ∧ User.email u = e.
Proof.
  unfold getUserByEmail. intros [Hin He%bool_decide_eq_true]%find_some.
  apply list_elem_of_In, values_elem in Hin as [k Hk]. by exists k.
Qed.

(** The only user with an email is the one that is found. *)
Lemma getUserByEmail_only e users k u :
  users !! k = Some u → User.email u = e →
  (∀ k' u', users !! k' = Some u' → User.email u' = e → u' = u) →
  getUserByEmail e users = Some u.
Proof.
  intros Hk He Honly. destruct (getUserByEmail e users) as [u'|] eqn:Hf.
  - apply getUserByEmail_Some in Hf as (k' & Hk' & He').
    f_equal. by apply (Honly k').
  - by destruct (proj1 (getUserByEmail_None e users) Hf k u Hk).
Qed.







(** X15: a [createUser] with an email that a user of the store has
    throws [Email already exists] and leaves the store as it was. *)
Theorem createUser_rejects_registered_email req hashed createdAt users k u :
  users !! k = Some u → User.email u = email req →
  createUser req hashed createdAt users = (users, Threw "Email already exists").
Proof.
  intros Hk He. unfold createUser, chooseId.
  destruct (getUserByEmail (email req) users) as [u'|] eqn:Hf; [done|].
  by destruct (proj1 (getUserByEmail_None _ _) Hf k u Hk).
Qed.

Lemma createUser_rejects_registered_email_witness :
  createUser (mkRegisterRequest "Johnny" "john@example.com" "secret1")
    "$2a$10$hash" "2024-02-02T00:00:00.000Z" sampleUsers
  = (sampleUsers, Threw "Email already exists").
Proof.
  apply (createUser_rejects_registered_email
           (mkRegisterRequest "Johnny" "john@example.com" "secret1")
           "$2a$10$hash" "2024-02-02T00:00:00.000Z" sampleUsers 1
           (User.mk 1 "John Doe" "john@example.com"
              (Some "$2a$10$N9qo8uLOickgx2ZMRZoMyeIjZAgcfl7p92ldGxad68LJZdL17lhWy")
              (Some "2024-01-01T00:00:00.000Z"))).
  - by vm_compute.
  - reflexivity.
Defined.

(** X16: calls of [createUser] that do not overlap keep the emails of
    the store distinct. *)
Theorem createUser_keeps_emails_unique req hashed createdAt users :
  uniqueEmails users →
  uniqueEmails (createUser req hashed createdAt users).1.
Proof.
  intros Huniq. unfold createUser, chooseId.
  destruct (getUserByEmail (email req) users) as [u'|] eqn:Hf; [done|].
  cbn [storeUser fst]. pose proof (proj1 (getUserByEmail_None _ _) Hf) as Hnone.
  intros i j u v.
  destruct (decide (i = nextId users)) as [->|Hi];
    destruct (decide (j = nextId users)) as [->|Hj];
    rewrite ?lookup_insert_eq, ?lookup_insert_ne by done.
  - done.
  - intros [= <-] Hv He. cbn in He. by destruct (Hnone j v Hv).
  - intros Hu [= <-] He. cbn in He. by destruct (Hnone i u Hu).
  - apply Huniq.
Qed.

Lemma createUser_keeps_emails_unique_witness :
  uniqueEmails
    (createUser (mkRegisterRequest "Bob Lee" "bob@example.com" "secret1")
       "$2a$10$hash" "2024-02-02T00:00:00.000Z" sampleUsers).1.
Proof.
  apply (createUser_keeps_emails_unique
           (mkRegisterRequest "Bob Lee" "bob@example.com" "secret1")
           "$2a$10$hash" "2024-02-02T00:00:00.000Z" sampleUsers).
  intros i j u v Hu Hv He.
  assert (i = 1 ∨ i = 2 ∨ i = 3) as Hi.
  { destruct (decide (i = 1)); [tauto|]. destruct (decide (i = 2)); [tauto|].
    destruct (decide (i = 3)); [tauto|].
    unfold sampleUsers, defaultUsers in Hu.
    rewrite !lookup_insert_ne, lookup_empty in Hu by done. done. }
  assert (j = 1 ∨ j = 2 ∨ j = 3) as Hj.
  { destruct (decide (j = 1)); [tauto|]. destruct (decide (j = 2)); [tauto|].
    destruct (decide (j = 3)); [tauto|].
    unfold sampleUsers, defaultUsers in Hv.
    rewrite !lookup_insert_ne, lookup_empty in Hv by done. done. }
  destruct Hi as [-> | [-> | ->]]; destruct Hj as [-> | [-> | ->]]; try done;
    vm_compute in Hu, Hv; simplify_eq; discriminate.
Defined.

(** X17: two calls of [createUser] that overlap, the second checking its
    email before the first has written, choose the same id: both
    callers are returned a user with that id, the second write replaces
    the first, and the email of the first caller is not in the store. *)
Theorem overlapping_createUser_calls_share_id
  req1 req2 hashed1 hashed2 createdAt1 createdAt2 users :
  getUserByEmail (email req1) users = None →
  getUserByEmail (email req2) users = None →
  email req1 ≠ email req2 →
  ∃ id,
    chooseId req1 users = inl id ∧ chooseId req2 users = inl id ∧
    User.id (storeUser id req1 hashed1 createdAt1 users).2 = id ∧
    User.id (storeUser id req2 hashed2 createdAt2
               (storeUser id req1 hashed1 createdAt1 users).1).2 = id ∧
    (storeUser id req2 hashed2 createdAt2
       (storeUser id req1 hashed1 createdAt1 users).1).1
    = <[id := User.mk id (name req2) (email req2) (Some hashed2)
                 (Some createdAt2)]> users ∧
    getUserByEmail (email req1)
      (storeUser id req2 hashed2 createdAt2
         (storeUser id req1 hashed1 createdAt1 users).1).1 = None.
Proof.
  intros H1 H2 Hne. exists (nextId users). unfold chooseId. rewrite H1, H2.
  cbn [storeUser fst snd User.id]. rewrite insert_insert_eq.
  split_and!; try done.
  apply getUserByEmail_None. intros k u.
  destruct (decide (k = nextId users)) as [->|Hk].
  - rewrite lookup_insert_eq. intros [= <-]. cbn. congruence.
  - rewrite lookup_insert_ne by done.
    apply (proj1 (getUserByEmail_None _ _) H1).
Qed.

Lemma overlapping_createUser_calls_share_id_witness :
  ∃ id,
    chooseId (mkRegisterRequest "Bob Lee" "bob@example.com" "secret1")
      sampleUsers = inl id ∧
    chooseId (mkRegisterRequest "Eve Ray" "eve@example.com" "secret2")
      sampleUsers = inl id ∧
    User.id (storeUser id (mkRegisterRequest "Bob Lee" "bob@example.com" "secret1")
               "$2a$10$hash1" "2024-02-02T00:00:00.000Z" sampleUsers).2 = id ∧
    User.id (storeUser id (mkRegisterRequest "Eve Ray" "eve@example.com" "secret2")
               "$2a$10$hash2" "2024-02-02T00:00:00.100Z"
               (storeUser id
                  (mkRegisterRequest "Bob Lee" "bob@example.com" "secret1")
                  "$2a$10$hash1" "2024-02-02T00:00:00.000Z" sampleUsers).1).2
    = id ∧
    (storeUser id (mkRegisterRequest "Eve Ray" "eve@example.com" "secret2")
       "$2a$10$hash2" "2024-02-02T00:00:00.100Z"
       (storeUser id (mkRegisterRequest "Bob Lee" "bob@example.com" "secret1")
          "$2a$10$hash1" "2024-02-02T00:00:00.000Z" sampleUsers).1).1
    = <[id := User.mk id "Eve Ray" "eve@example.com" (Some "$2a$10$hash2")
                 (Some "2024-02-02T00:00:00.100Z")]> sampleUsers ∧
    getUserByEmail "bob@example.com"
      (storeUser id (mkRegisterRequest "Eve Ray" "eve@example.com" "secret2")
         "$2a$10$hash2" "2024-02-02T00:00:00.100Z"
         (storeUser id (mkRegisterRequest "Bob Lee" "bob@example.com" "secret1")
            "$2a$10$hash1" "2024-02-02T00:00:00.000Z" sampleUsers).1).1
    = None.
Proof.
  apply (overlapping_createUser_calls_share_id
           (mkRegisterRequest "Bob Lee" "bob@example.com" "secret1")
           (mkRegisterRequest "Eve Ray" "eve@example.com" "secret2")
           "$2a$10$hash1" "$2a$10$hash2"
           "2024-02-02T00:00:00.000Z" "2024-02-02T00:00:00.100Z" sampleUsers).
  - by vm_compute.
  - by vm_compute.
  - discriminate.
Defined.

Lemma getUserByEmail_created req hashed createdAt users :
  getUserByEmail (email req) users = None →
  getUserByEmail (email req) (createUser req hashed createdAt users).1
  = Some (User.mk (nextId users) (name req) (email req) (Some hashed)
            (Some createdAt)).
Proof.
  intros Hnone. unfold createUser, chooseId. rewrite Hnone. cbn [storeUser fst].
  apply (getUserByEmail_only _ _ (nextId users)).
  - by rewrite lookup_insert_eq.
  - done.
  - intros k u. destruct (decide (k = nextId users)) as [->|Hk].
    + rewrite lookup_insert_eq. by intros [= <-].
    + rewrite lookup_insert_ne by done. intros Hu He.
      by destruct (proj1 (getUserByEmail_None _ _) Hnone k u Hu).
Qed.

(** X18: after a [createUser] that succeeded, [verifyLogin] with the
    email of the new user returns the user that [createUser] returned,
    without the password, when [comparePassword] accepts the password
    for the stored hash, and null when it does not. *)
Theorem verifyLogin_after_createUser
  (comparePassword : string → string → bool) req hashed createdAt users pw :
  getUserByEmail (email req) users = None → hashed ≠ EmptyString →
  verifyLogin comparePassword (email req) pw
    (createUser req hashed createdAt users).1
  = if comparePassword pw hashed
    then Some (User.mk (nextId users) (name req) (email req) None
                 (Some createdAt))
    else None.
Proof.
  intros Hnone Hhash. unfold verifyLogin.
  rewrite getUserByEmail_created by done. cbn.
  by rewrite bool_decide_eq_false_2.
Qed.

Lemma verifyLogin_after_createUser_witness :
  verifyLogin (λ pw hash, String.eqb hash ("hash of " +:+ pw))
    "bob@example.com" "secret1"
    (createUser (mkRegisterRequest "Bob Lee" "bob@example.com" "secret1")
       "hash of secret1" "2024-02-02T00:00:00.000Z" sampleUsers).1
  = if (λ pw hash, String.eqb hash ("hash of " +:+ pw))
         "secret1" "hash of secret1"
    then Some (User.mk (nextId sampleUsers) "Bob Lee" "bob@example.com" None
                 (Some "2024-02-02T00:00:00.000Z"))
    else None.
Proof.
  apply (verifyLogin_after_createUser
           (λ pw hash, String.eqb hash ("hash of " +:+ pw))
           (mkRegisterRequest "Bob Lee" "bob@example.com" "secret1")
           "hash of secret1" "2024-02-02T00:00:00.000Z" sampleUsers "secret1").
  - by vm_compute.
  - discriminate.
Defined.

(** X19: [verifyLogin] returns a user only when the store has a user
    with that email whose stored hash [comparePassword] accepts for the
    password; the user it returns is that one, without its password. *)
Theorem verifyLogin_returns_only_checked_user
  (comparePassword : string → string → bool) e pw users u :
  verifyLogin comparePassword e pw users = Some u →
  User.password u = None ∧
  ∃ k stored hash,
    users !! k = Some stored ∧ User.email stored = e ∧
    User.password stored = Some hash ∧ comparePassword pw hash = true ∧
    User.id u = User.id stored ∧ User.name u = User.name stored ∧
    User.email u = e ∧ User.createdAt u = User.createdAt stored.
Proof.
  unfold verifyLogin.
  destruct (getUserByEmail e users) as [stored|] eqn:Hf; [|done].
  apply getUserByEmail_Some in Hf as (k & Hk & He).
  destruct (User.password stored) as [hash|] eqn:Hpw; [|done].
  case_bool_decide; [done|].
  destruct (comparePassword pw hash) eqn:Hcmp; [|done].
  intros [= <-]. split; [done|]. exists k, stored, hash. by split_and!.
Qed.

Lemma verifyLogin_returns_only_checked_user_witness :
  User.password
    (User.mk 1 "John Doe" "john@example.com" None
       (Some "2024-01-01T00:00:00.000Z")) = None ∧
  ∃ k stored hash,
    sampleUsers !! k = Some stored ∧ User.email stored = "john@example.com" ∧
    User.password stored = Some hash ∧
    (λ _ _ : string, true) "password123" hash = true ∧
    User.id (User.mk 1 "John Doe" "john@example.com" None
               (Some "2024-01-01T00:00:00.000Z")) = User.id stored ∧
    User.name (User.mk 1 "John Doe" "john@example.com" None
                 (Some "2024-01-01T00:00:00.000Z")) = User.name stored ∧
    User.email (User.mk 1 "John Doe" "john@example.com" None
                  (Some "2024-01-01T00:00:00.000Z")) = "john@example.com" ∧
    User.createdAt (User.mk 1 "John Doe" "john@example.com" None
                      (Some "2024-01-01T00:00:00.000Z"))
    = User.createdAt stored.
Proof.
  apply (verifyLogin_returns_only_checked_user (λ _ _ : string, true)
           "john@example.com" "password123" sampleUsers).
  by vm_compute.
Defined.

End UserAccountsFacts.

Section UserListFacts.
Import UserService.

Implicit Types (users : gmap Z User.t).

#[local] Instance byKey_trans : Transitive byKey.
Proof. intros a b c. unfold byKey. lia. Qed.

#[local] Instance byKey_total : Total byKey.
Proof. intros a b. unfold byKey. lia. Qed.




End UserListFacts.

Section ServerFacts.
Import UserService Server.

Implicit Types (s : Server.t) (q : QueuedRequest) (now : Z).

Lemma nextInQueue_singleFlight s :
  singleFlight (userService s) → singleFlight (userService (nextInQueue s)).
Proof.
  intros Hs. unfold nextInQueue. destruct (queue s) as [|q rest]; simpl; [done|].
  by apply getUserById_singleFlight.
Qed.

Lemma enqueue_singleFlight q s :
  singleFlight (userService s) → singleFlight (userService (enqueue q s)).
Proof.
  intros Hs. unfold enqueue, processQueue. simpl.
  destruct (processing s || _); [done|]. by apply nextInQueue_singleFlight.
Qed.

Lemma afterEnqueue_userService q o now s :
  userService (afterEnqueue q o now s) = userService s.
Proof. by destruct o as [[user|]|msg]. Qed.

Lemma resume_singleFlight now s co :
  singleFlight (userService s) → singleFlight (userService (resume now s co)).
Proof.
  intros Hs. unfold resume. destruct (awaiting s) as [q|]; [|done].
  case_bool_decide; [|done].
  apply nextInQueue_singleFlight. by rewrite afterEnqueue_userService.
Qed.

Lemma lookup_userService q now s s' :
  lookup q now s = Some s' → userService s' = userService s.
Proof.
  unfold lookup. destruct (CacheManager.get _ _ _) as [c [user|]]; [|done].
  by intros [= <-].
Qed.

Lemma step_singleFlight s ev :
  singleFlight (userService s) → singleFlight (userService (Server.step s ev)).
Proof.
  intros Hs. destruct ev as [r [id|] now|r now|p now]; simpl.
  - destruct (lookup _ now s) as [s'|] eqn:Hl.
    + by rewrite (lookup_userService _ _ _ _ Hl).
    + case_match; [done|]. by apply enqueue_singleFlight.
  - done.
  - destruct (List.find _ (sleeping s)) as [q|]; [|done].
    destruct (lookup q now _) as [s'|] eqn:Hl.
    + by rewrite (lookup_userService _ _ _ _ Hl).
    + by apply enqueue_singleFlight.
  - pose proof (fire_singleFlight p _ Hs) as Hfired.
    revert Hfired. generalize (fire p (userService s)).1.
    generalize (fire p (userService s)).2. intros outs.
    generalize (cache s) (queue s) (processing s) (awaiting s) (sleeping s)
               (responses s).
    intros c qu pr aw sl rs svc Hsvc.
    assert (singleFlight (userService (Server.mk c svc qu pr aw sl rs))) as H0
      by done.
    revert H0. generalize (Server.mk c svc qu pr aw sl rs).
    induction outs as [|co outs IH]; intros s0 H0; simpl; [done|].
    apply IH. by apply resume_singleFlight.
Qed.

Lemma server_run_snoc (users : gmap Z User.t) evs ev :
  Server.run users (evs ++ [ev]) = Server.step (Server.run users evs) ev.
Proof. unfold Server.run. by rewrite foldl_app. Qed.

Lemma server_singleFlight (users : gmap Z User.t) evs :
  singleFlight (userService (Server.run users evs)).
Proof.
  induction evs as [|ev evs IH] using rev_ind; [apply singleFlight_init|].
  rewrite server_run_snoc. by apply step_singleFlight.
Qed.

(** Behind the queue no call of [getUserById] ever finds a fetch
    pending: the loop starts the next call after the timer of the
    last one has cleared [pendingRequests]. *)
Lemma nextInQueue_serial s :
  timers (userService s) = [] → pendingRequests (userService s) = ∅ →
  waiters (userService s) = [] → serial (nextInQueue s).
Proof.
  intros Ht Hp Hw. unfold nextInQueue, serial.
  destruct (queue s) as [|q rest]; simpl; [done|].
  split; [done|]. unfold getUserById. rewrite Hp, lookup_empty. simpl.
  rewrite Ht, Hw. by exists (storeCalls (userService s)).
Qed.

Lemma enqueue_serial q s : serial s → serial (enqueue q s).
Proof.
  intros Hs. unfold enqueue, processQueue. cbn [processing queue].
  unfold serial in Hs. destruct (awaiting s) as [q0|] eqn:Ha.
  - destruct Hs as [Hproc Hrest]. rewrite Hproc. cbn [orb].
    unfold serial. cbn [awaiting processing userService]. by split.
  - destruct Hs as (Hproc & Hq & Ht & Hp & Hw). rewrite Hproc, Hq.
    cbn [orb app]. rewrite bool_decide_eq_false_2 by discriminate.
    by apply nextInQueue_serial.
Qed.

Lemma serial_same s s' :
  awaiting s' = awaiting s → processing s' = processing s →
  queue s' = queue s → userService s' = userService s →
  serial s → serial s'.
Proof. unfold serial. by intros -> -> -> ->. Qed.

Lemma lookup_serial q now s s' : lookup q now s = Some s' → serial s → serial s'.
Proof.
  unfold lookup. destruct (CacheManager.get _ _ _) as [c [user|]]; [|done].
  intros [= <-]. by apply serial_same.
Qed.

Lemma afterEnqueue_fields q o now s :
  queue (afterEnqueue q o now s) = queue s ∧
  userService (afterEnqueue q o now s) = userService s.
Proof. by destruct o as [[user|]|msg]. Qed.

Lemma step_serial s ev : serial s → serial (Server.step s ev).
Proof.
  intros Hs. destruct ev as [r [id|] now|r now|p now]; cbn [Server.step].
  - destruct (lookup _ now s) as [s'|] eqn:Hl; [by eapply lookup_serial|].
    case_match.
    + revert Hs. by apply serial_same.
    + apply enqueue_serial. revert Hs. by apply serial_same.
  - revert Hs. by apply serial_same.
  - destruct (List.find _ (sleeping s)) as [q|]; [|done].
    destruct (lookup q now _) as [s'|] eqn:Hl.
    + eapply lookup_serial; [exact Hl|]. revert Hs. by apply serial_same.
    + apply enqueue_serial. revert Hs. by apply serial_same.
  - unfold serial in Hs. unfold fire.
    destruct (awaiting s) as [q|] eqn:Ha.
    + destruct Hs as (Hproc & p0 & Ht & Hp & Hw). rewrite Ht.
      cbn [List.find promise]. case_bool_decide as Hpp.
      * subst p0. rewrite Hw. cbn [fst snd].
        rewrite (filter_cons_True (λ w, awaited w = p)) by done.
        rewrite filter_nil. cbn [fmap list_fmap foldl].
        unfold resume. cbn [awaiting fst snd]. rewrite ?Ha.
        rewrite bool_decide_eq_true_2.
        2:{ by destruct (users (userService s) !! _). }
        apply nextInQueue_serial;
          rewrite (proj2 (afterEnqueue_fields _ _ _ _)); cbn.
        -- by case_decide.
        -- rewrite Hp. apply delete_singleton_eq.
        -- by case_decide.
      * cbn. unfold serial. cbn. rewrite ?Ha. split; [done|]. by exists p0.
    + destruct Hs as (Hproc & Hq & Ht & Hp & Hw). rewrite Ht. cbn.
      unfold serial. cbn. by rewrite ?Ha.
Qed.

Lemma server_serial (users : gmap Z User.t) evs : serial (Server.run users evs).
Proof.
  induction evs as [|ev evs IH] using rev_ind; [done|].
  rewrite server_run_snoc. by apply step_serial.
Qed.

(** So at most one backing-store call is in flight behind the queue,
    whatever the keys, and its only waiter is the loop of the queue. *)
Lemma server_one_fetch (users : gmap Z User.t) evs :
  (length (timers (userService (Server.run users evs))) ≤ 1)%nat ∧
  Forall (λ w, role w = Leader) (waiters (userService (Server.run users evs))).
Proof.
  pose proof (server_serial users evs) as Hs. unfold serial in Hs.
  destruct (awaiting (Server.run users evs)) as [q|].
  - destruct Hs as (_ & p & -> & _ & ->). simpl. split; [lia|].
    by repeat constructor.
  - destruct Hs as (_ & _ & -> & _ & ->). simpl. split; [lia|constructor].
Qed.

(** C5. After any calls of [getUserById] and timers firing, in any
    order and for any number of callers, at most one backing-store call
    is in flight for a key; the same holds of the service behind the
    queue after any requests, wake-ups and timers. *)
Theorem at_most_one_store_call_in_flight_per_key
  (users : gmap Z User.t) (calls : list UserService.Event)
  (evs : list Server.Event) (id : Z) :
  (inFlight id (UserService.run users calls).1 ≤ 1)%nat ∧
  (inFlight id (userService (Server.run users evs)) ≤ 1)%nat.
Proof.
  split; apply singleFlight_inFlight.
  - apply run_singleFlight.
  - apply server_singleFlight.
Qed.

(** C3, at two overlapping calls for an id the store does not have:
    the caller that started the fetch gets [null], the caller that
    joined it gets the rejection of the fetch promise.  Nothing stays
    registered, and the next call starts a new fetch. *)
Theorem joiner_of_missing_user_gets_rejection (db : gmap Z User.t) id :
  db !! id = None →
  (UserService.run db [Call 0 id; Call 1 id; Fire 0]).2
  = [(0%nat, Returned None); (1%nat, Threw "User not found")] ∧
  pendingRequests (UserService.run db [Call 0 id; Call 1 id; Fire 0]).1 = ∅ ∧
  storeCalls (UserService.run db [Call 0 id; Call 1 id; Fire 0; Call 2 id]).1
  = 2%nat.
Proof.
  intros Hid.
  assert (getUserById 1 id (getUserById 0 id (UserService.init db))
          = UserService.mk db {[id := 0%nat]} [mkFetch 0 id]
              [mkWaiter 0 0 Leader; mkWaiter 1 0 Joiner] 1) as Hcalls.
  { unfold getUserById at 2. cbn. rewrite lookup_empty, insert_empty.
    unfold getUserById. cbn. by rewrite lookup_singleton_eq. }
  assert (fire 0 (UserService.mk db {[id := 0%nat]} [mkFetch 0 id]
                    [mkWaiter 0 0 Leader; mkWaiter 1 0 Joiner] 1)
          = (UserService.mk db ∅ [] [] 1,
             [(0%nat, Returned None); (1%nat, Threw "User not found")]))
    as Hfire.
  { unfold fire. simpl. rewrite Hid, delete_singleton_eq. done. }
  unfold UserService.run. cbn [foldl UserService.step fst snd].
  rewrite Hcalls, Hfire. cbn [fst snd app]. by split_and!.
Qed.

Lemma joiner_of_missing_user_gets_rejection_witness :
  (UserService.run sampleUsers [Call 0 99; Call 1 99; Fire 0]).2
  = [(0%nat, Returned None); (1%nat, Threw "User not found")].
Proof.
  apply (joiner_of_missing_user_gets_rejection sampleUsers 99). reflexivity.
Defined.

(** When the user exists, the leader and the joiners get the same user. *)
Lemma joiner_outcome_found (db : gmap Z User.t) id user :
  db !! id = Some user →
  (UserService.run db [Call 0 id; Call 1 id; Fire 0]).2
  = [(0%nat, Returned (Some user)); (1%nat, Returned (Some user))].
Proof.
  intros Hid. unfold UserService.run. simpl.
  unfold getUserById at 2. simpl. rewrite lookup_empty. simpl.
  unfold getUserById. simpl. rewrite lookup_insert_eq. simpl.
  unfold fire. simpl. rewrite Hid. reflexivity.
Qed.

(** A cached user that has a password is sent with it; the response of
    the miss path never has one. *)
Lemma hit_body_has_password (user : User.t) pw :
  User.password user = Some pw →
  ("password", JString pw) ∈ userJson user ∧
  (∀ v, ("password", v) ∉ userResponseJson (getUserResponse user)) ∧
  userJson user ≠ userResponseJson (getUserResponse user).
Proof.
  intros Hpw.
  assert (∀ v, ("password", v) ∉ userResponseJson (getUserResponse user)) as Hno.
  { intros v. unfold userResponseJson, getUserResponse. simpl.
    destruct (User.createdAt user); simpl;
      repeat (apply not_elem_of_cons; split; [discriminate|]);
      apply not_elem_of_nil. }
  assert (("password", JString pw) ∈ userJson user) as Hin.
  { unfold userJson. rewrite Hpw. simpl. do 3 right. left. }
  split_and!; [done|done|]. intros Heq. rewrite Heq in Hin. by apply Hno in Hin.
Qed.

(** The [n] requests find the cache empty: the first starts the loop
    of the queue and its fetch, the others join the queue. *)
Lemma arrival_first (db : gmap Z User.t) id now resp :
  fetching db id now resp 1 0
    (Server.step (Server.init db) (Request 0 (Some id) now)) ∧
  CacheManager.cache
    (cache (Server.step (Server.init db) (Request 0 (Some id) now))) = [].
Proof. cbn. unfold fetching. cbn. by split_and!. Qed.

Lemma arrival_next (db : gmap Z User.t) id now resp m s :
  fetching db id now resp (S m) 0 s → CacheManager.cache (cache s) = [] →
  fetching db id now resp (S (S m)) 0
    (Server.step s (Request (S m) (Some id) now)) ∧
  CacheManager.cache (cache (Server.step s (Request (S m) (Some id) now))) = [].
Proof.
  intros (Hsvc & Hq & Hproc & Haw & Hresp) Hc.
  cbn [Server.step]. unfold lookup, missed, CacheManager.get, CacheManager.has.
  cbn [userId request]. rewrite Hc. cbn.
  unfold enqueue, processQueue. cbn. rewrite Hproc. cbn.
  unfold fetching. cbn. split_and!; try done.
  rewrite Hq. replace (S m - 1)%nat with m by lia.
  transitivity ((λ r : nat, mkQueued r id now) <$> seq 1 (S m)); [|done].
  by rewrite seq_S, fmap_app.
Qed.

Lemma fire_only (db : gmap Z User.t) id user (k calls : nat) :
  db !! id = Some user →
  fire k (UserService.mk db {[id := k]} [mkFetch k id]
            [mkWaiter k k Leader] calls)
  = (UserService.mk db ∅ [] [] calls, [(k, Returned (Some user))]).
Proof.
  intros Hid. unfold fire. cbn [timers List.find promise].
  rewrite bool_decide_eq_true_2 by done.
  cbn [fetched waiters pendingRequests storeCalls UserService.users].
  rewrite Hid, delete_singleton_eq.
  rewrite (filter_cons_True (λ w, awaited w = k)) by done.
  rewrite (filter_cons_False (λ w, awaited w ≠ k)) by (cbn; tauto).
  rewrite (filter_cons_False (λ f, promise f ≠ k)) by (cbn; tauto).
  by rewrite !filter_nil.
Qed.

Lemma getUserById_idle (db : gmap Z User.t) id (who calls : nat) :
  getUserById who id (UserService.mk db ∅ [] [] calls)
  = UserService.mk db {[id := calls]} [mkFetch calls id]
      [mkWaiter who calls Leader] (S calls).
Proof.
  unfold getUserById. cbn [pendingRequests]. rewrite lookup_empty.
  cbn. by rewrite insert_empty.
Qed.

(** The timer of the fetch of request [k]: the request is answered,
    and the loop starts the fetch of request [k + 1], if there is one. *)
Lemma timer_next (db : gmap Z User.t) id now later user n k s :
  db !! id = Some user → (S k < n)%nat →
  fetching db id now
    (mkResponse 200 (userResponseJson (getUserResponse user))) n k s →
  fetching db id now
    (mkResponse 200 (userResponseJson (getUserResponse user))) n (S k)
    (Server.step s (Timer k later)).
Proof.
  intros Hid Hk (Hsvc & Hq & Hproc & Haw & Hresp).
  cbn [Server.step]. rewrite Hsvc, (fire_only _ _ user) by done.
  cbn [fst snd foldl]. unfold resume. cbn [awaiting fst snd]. rewrite Haw.
  cbn [request]. rewrite bool_decide_eq_true_2 by done.
  unfold nextInQueue, afterEnqueue, respond, withCache.
  cbn [queue userService cache sleeping responses processing awaiting request userId].
  rewrite Hq. destruct (n - S k)%nat as [|d] eqn:Hd; [lia|].
  cbn [seq fmap list_fmap]. rewrite getUserById_idle.
  unfold fetching.
  cbn [queue userService cache sleeping responses processing awaiting].
  split_and!; try done.
  - do 2 f_equal. lia.
  - rewrite fmap_app, Hresp. cbn. by rewrite <- replicate_S_end.
Qed.

(** The timer of the fetch of the last request. *)
Lemma timer_last (db : gmap Z User.t) id now later user n k s :
  db !! id = Some user → S k = n →
  fetching db id now
    (mkResponse 200 (userResponseJson (getUserResponse user))) n k s →
  storeCalls (userService (Server.step s (Timer k later))) = n ∧
  (responses (Server.step s (Timer k later))).*2
  = replicate n (mkResponse 200 (userResponseJson (getUserResponse user))).
Proof.
  intros Hid Hk (Hsvc & Hq & Hproc & Haw & Hresp).
  cbn [Server.step]. rewrite Hsvc, (fire_only _ _ user) by done.
  cbn [fst snd foldl]. unfold resume. cbn [awaiting fst snd]. rewrite Haw.
  cbn [request]. rewrite bool_decide_eq_true_2 by done.
  unfold nextInQueue, afterEnqueue, respond, withCache.
  cbn [queue userService cache sleeping responses processing awaiting request userId].
  rewrite Hq. replace (n - S k)%nat with 0%nat by lia.
  cbn [seq fmap list_fmap userService responses storeCalls].
  split; [done|]. rewrite fmap_app, Hresp. cbn. rewrite <- Hk.
  by rewrite <- replicate_S_end.
Qed.

Lemma arrivals_queued (db : gmap Z User.t) id now resp (n : nat) :
  fetching db id now resp (S n) 0
    (foldl Server.step (Server.init db)
       ((λ r : nat, Request r (Some id) now) <$> seq 0 (S n))) ∧
  CacheManager.cache
    (cache (foldl Server.step (Server.init db)
              ((λ r : nat, Request r (Some id) now) <$> seq 0 (S n)))) = [].
Proof.
  induction n as [|m IH].
  - apply arrival_first.
  - rewrite seq_S, fmap_app, foldl_app. cbn [fmap list_fmap foldl Nat.add].
    destruct IH as [Hf Hc]. by apply arrival_next.
Qed.

Lemma timers_drain (db : gmap Z User.t) id now user (n d k : nat) s :
  db !! id = Some user → (k + S d = n)%nat →
  fetching db id now
    (mkResponse 200 (userResponseJson (getUserResponse user))) n k s →
  storeCalls
    (userService
       (foldl Server.step s
          ((λ p : nat, Timer p (now + DB_DELAY_MS * Z.of_nat (S p)))
             <$> seq k (S d)))) = n ∧
  (responses
     (foldl Server.step s
        ((λ p : nat, Timer p (now + DB_DELAY_MS * Z.of_nat (S p)))
           <$> seq k (S d)))).*2
  = replicate n (mkResponse 200 (userResponseJson (getUserResponse user))).
Proof.
  intros Hid. revert k s. induction d as [|d IH]; intros k s Hn Hf.
  - cbn [seq fmap list_fmap foldl]. eapply timer_last; [done|lia|done].
  - change (seq k (S (S d))) with (k :: seq (S k) (S d)).
    cbn [fmap list_fmap foldl]. apply IH; [lia|].
    eapply timer_next; [done|lia|done].
Qed.

(** A request that finds its user cached and live is answered from the
    cache, with the object that was cached. *)
Lemma request_hit r id now s entry used c' :
  CacheManager.cache (cache s)
  = c' ++ [LRUCache.mkSlot (cacheKey id) entry used] →
  LRUCache.find (cacheKey id) c' = None →
  now - used ≤ CacheManager.CACHE_TTL →
  responses (Server.step s (Request r (Some id) now))
  = responses s ++ [(r, mkResponse 200 (userJson (data entry)))] ∧
  CacheManager.cache (cache (Server.step s (Request r (Some id) now)))
  = c' ++ [LRUCache.mkSlot (cacheKey id) entry now] ∧
  CacheManager.hits (CacheManager.stats (cache (Server.step s (Request r (Some id) now))))
  = CacheManager.hits (CacheManager.stats (cache s)) + 1.
Proof.
  intros Hc Hnone Hage. cbn [Server.step]. unfold lookup.
  cbn [userId request startTime].
  unfold CacheManager.get, LRUCache.get. rewrite Hc.
  rewrite find_snoc by done.
  unfold LRUCache.isStale. cbn [LRUCache.start LRUCache.ttl CacheManager.options].
  replace (CacheManager.CACHE_TTL <? now - used) with false
    by (symmetry; apply Z.ltb_ge; lia).
  cbn. 
  split_and!; try done.
  unfold LRUCache.delete. rewrite filter_app.
  rewrite (filter_cons_False _ (LRUCache.mkSlot (cacheKey id) entry used)) by (cbn; tauto).
  rewrite filter_nil, app_nil_r.
  fold (LRUCache.delete (cacheKey id) c'). by rewrite delete_absent.
Qed.

(** The first request for a stored user, on an empty cache: the fetch
    is made, the user is cached, and the answer has no password. *)
Lemma miss_then_fetch (db : gmap Z User.t) id user (t0 t1 : Z) :
  db !! id = Some user →
  responses (Server.run db [Request 0 (Some id) t0; Timer 0 t1])
  = [(0%nat, mkResponse 200 (userResponseJson (getUserResponse user)))] ∧
  CacheManager.cache (cache (Server.run db [Request 0 (Some id) t0; Timer 0 t1]))
  = [] ++ [LRUCache.mkSlot (cacheKey id) (mkCacheEntry user t1) t1] ∧
  CacheManager.hits
    (CacheManager.stats (cache (Server.run db [Request 0 (Some id) t0; Timer 0 t1])))
  = 0.
Proof.
  intros Hid. unfold Server.run. cbn [foldl].
  destruct (arrival_first db id t0
              (mkResponse 200 (userResponseJson (getUserResponse user))))
    as [(Hsvc & Hq & Hproc & Haw & Hresp) Hc].
  set (s1 := Server.step (Server.init db) (Request 0 (Some id) t0)) in *.
  assert (responses s1 = []) as Hr1 by (by destruct (responses s1)).
  assert (CacheManager.hits (CacheManager.stats (cache s1)) = 0) as Hh1 by done.
  clearbody s1.
  cbn [Server.step]. rewrite Hsvc, (fire_only _ _ user) by done.
  cbn [fst snd foldl]. unfold resume. cbn [awaiting fst snd]. rewrite Haw.
  cbn [request]. rewrite bool_decide_eq_true_2 by done.
  unfold nextInQueue, afterEnqueue, respond, withCache.
  cbn [queue userService cache sleeping responses processing awaiting request
       userId startTime].
  rewrite Hq, Hr1. cbn [seq fmap list_fmap Nat.sub responses cache app].
  unfold CacheManager.recordResponseTime, CacheManager.set.
  cbn [CacheManager.cache CacheManager.stats CacheManager.hits].
  rewrite Hc, Hh1. split_and!; try done.
Qed.

(** C2, as the code runs, for a stored user with a password: the
    lookup that misses is answered without the password, the lookups
    that hit within the TTL are answered with the cached object, which
    has it.  So a hit is not answered as the miss was; the hits are
    answered alike, and the hit counter goes up by one at each. *)
Theorem cache_hit_response_differs_from_miss
  (db : gmap Z User.t) id user pw (t0 t1 t2 t3 : Z) :
  db !! id = Some user → User.password user = Some pw →
  t2 - t1 ≤ CacheManager.CACHE_TTL → t3 - t2 ≤ CacheManager.CACHE_TTL →
  responses (Server.run db [Request 0 (Some id) t0; Timer 0 t1;
                            Request 1 (Some id) t2; Request 2 (Some id) t3])
  = [(0%nat, mkResponse 200 (userResponseJson (getUserResponse user)));
     (1%nat, mkResponse 200 (userJson user));
     (2%nat, mkResponse 200 (userJson user))] ∧
  userJson user ≠ userResponseJson (getUserResponse user) ∧
  CacheManager.hits
    (CacheManager.stats
       (cache (Server.run db [Request 0 (Some id) t0; Timer 0 t1;
                              Request 1 (Some id) t2])))
  = 1 ∧
  CacheManager.hits
    (CacheManager.stats
       (cache (Server.run db [Request 0 (Some id) t0; Timer 0 t1;
                              Request 1 (Some id) t2; Request 2 (Some id) t3])))
  = 2.
Proof.
  intros Hid Hpw H12 H23.
  destruct (miss_then_fetch db id user t0 t1 Hid) as (Hr & Hc & Hh).
  change (Server.run db [Request 0 (Some id) t0; Timer 0 t1;
                         Request 1 (Some id) t2; Request 2 (Some id) t3])
    with (Server.step
            (Server.step (Server.run db [Request 0 (Some id) t0; Timer 0 t1])
               (Request 1 (Some id) t2))
            (Request 2 (Some id) t3)).
  change (Server.run db [Request 0 (Some id) t0; Timer 0 t1;
                         Request 1 (Some id) t2])
    with (Server.step (Server.run db [Request 0 (Some id) t0; Timer 0 t1])
            (Request 1 (Some id) t2)).
  set (s2 := Server.run db [Request 0 (Some id) t0; Timer 0 t1]) in *.
  clearbody s2.
  destruct (request_hit 1 id t2 s2 _ _ _ Hc eq_refl H12) as (Hr' & Hc' & Hh').
  set (s3 := Server.step s2 (Request 1 (Some id) t2)) in *. clearbody s3.
  destruct (request_hit 2 id t3 s3 _ _ _ Hc' eq_refl H23) as (Hr'' & Hc'' & Hh'').
  split_and!.
  - rewrite Hr'', Hr', Hr. reflexivity.
  - by apply (hit_body_has_password user pw).
  - rewrite Hh', Hh. reflexivity.
  - rewrite Hh'', Hh', Hh. reflexivity.
Qed.

Lemma cache_hit_response_differs_from_miss_witness :
  responses (Server.run sampleUsers
               [Request 0 (Some 1) 1000; Timer 0 1200;
                Request 1 (Some 1) 2000; Request 2 (Some 1) 3000])
  = [(0%nat,
      mkResponse 200
        [("id", JNumber 1); ("name", JString "John Doe");
         ("email", JString "john@example.com");
         ("createdAt", JString "2024-01-01T00:00:00.000Z")]);
     (1%nat,
      mkResponse 200
        [("id", JNumber 1); ("name", JString "John Doe");
         ("email", JString "john@example.com");
         ("password",
          JString "$2a$10$N9qo8uLOickgx2ZMRZoMyeIjZAgcfl7p92ldGxad68LJZdL17lhWy");
         ("createdAt", JString "2024-01-01T00:00:00.000Z")]);
     (2%nat,
      mkResponse 200
        [("id", JNumber 1); ("name", JString "John Doe");
         ("email", JString "john@example.com");
         ("password",
          JString "$2a$10$N9qo8uLOickgx2ZMRZoMyeIjZAgcfl7p92ldGxad68LJZdL17lhWy");
         ("createdAt", JString "2024-01-01T00:00:00.000Z")])].
Proof.
  apply (cache_hit_response_differs_from_miss sampleUsers 1
           (User.mk 1 "John Doe" "john@example.com"
              (Some "$2a$10$N9qo8uLOickgx2ZMRZoMyeIjZAgcfl7p92ldGxad68LJZdL17lhWy")
              (Some "2024-01-01T00:00:00.000Z"))
           "$2a$10$N9qo8uLOickgx2ZMRZoMyeIjZAgcfl7p92ldGxad68LJZdL17lhWy"
           1000 1200 2000 3000).
  - reflexivity.
  - reflexivity.
  - unfold CacheManager.CACHE_TTL. lia.
  - unfold CacheManager.CACHE_TTL. lia.
Defined.

(** C4, as the code runs, for every [n] from 1 on (so for 2 to 100):
    [n] lookups of a stored user that arrive together on an empty cache
    make the queue call the backing store [n] times, one call after the
    other; the [n] callers do get the same response. *)
Theorem simultaneous_lookups_call_store_each_time
  (db : gmap Z User.t) id now user (n : nat) :
  db !! id = Some user → (1 ≤ n)%nat →
  storeCalls (userService (Server.run db (simultaneous n id now))) = n ∧
  (responses (Server.run db (simultaneous n id now))).*2
  = replicate n (mkResponse 200 (userResponseJson (getUserResponse user))).
Proof.
  intros Hid Hn. destruct n as [|m]; [lia|].
  unfold Server.run, simultaneous. rewrite foldl_app.
  destruct (arrivals_queued db id now
              (mkResponse 200 (userResponseJson (getUserResponse user))) m)
    as [Hf _].
  by apply (timers_drain db id now user (S m) m 0).
Qed.

Lemma simultaneous_lookups_call_store_each_time_witness :
  storeCalls (userService (Server.run sampleUsers (simultaneous 5 2 1000)))
  = 5%nat ∧
  (responses (Server.run sampleUsers (simultaneous 5 2 1000))).*2
  = replicate 5
      (mkResponse 200
         [("id", JNumber 2); ("name", JString "Jane Smith");
          ("email", JString "jane@example.com");
          ("createdAt", JString "2024-01-01T00:00:00.000Z")]).
Proof.
  apply (simultaneous_lookups_call_store_each_time sampleUsers 2 1000
           (User.mk 2 "Jane Smith" "jane@example.com"
              (Some "$2a$10$N9qo8uLOickgx2ZMRZoMyeIjZAgcfl7p92ldGxad68LJZdL17lhWy")
              (Some "2024-01-01T00:00:00.000Z")) 5).
  - reflexivity.
  - lia.
Defined.

(** Two lookups are enough: two calls of the backing store. *)
Example two_lookups_two_store_calls :
  storeCalls (userService (Server.run sampleUsers (simultaneous 2 2 1000)))
  = 2%nat.
Proof. by vm_compute. Qed.

End ServerFacts.

Section ServerTaskFacts.
Import UserService Server.

Implicit Types (s : Server.t) (q : QueuedRequest) (now : Z)
  (db : gmap Z User.t) (tasks : list Task).

Lemma cacheKey_inj id1 id2 : cacheKey id1 = cacheKey id2 → id1 = id2.
Proof.
  unfold cacheKey. intros H%(inj (String.append "user:")).
  by apply (inj pretty) in H.
Qed.

Lemma runTasks_snoc db tasks task :
  runTasks db (tasks ++ [task]) = perform (runTasks db tasks) task.
Proof. unfold runTasks. by rewrite foldl_app. Qed.

Lemma requested_snoc tasks task r id :
  requested tasks r id → requested (tasks ++ [task]) r id.
Proof. intros [now H]. exists now. apply elem_of_app. by left. Qed.

Lemma requested_last tasks r id now :
  requested (tasks ++ [Handle (Request r id now)]) r id.
Proof. exists now. apply elem_of_app. right. by apply list_elem_of_singleton. Qed.

Lemma arrivals_snoc tasks task :
  arrivals (tasks ++ [task])
  = (arrivals tasks + if isRequest task then 1 else 0)%nat.
Proof.
  unfold arrivals. rewrite filter_app, length_app. f_equal.
  by destruct task as [[r id now|r now|p now]| |now].
Qed.

(** The cache operations keep the cache coherent with the store. *)
Lemma coherent_get db now k m :
  coherent db m → coherent db (CacheManager.get now k m).1.
Proof.
  intros Hm slot. rewrite get_cache. unfold LRUCache.get.
  destruct (LRUCache.find k (CacheManager.cache m)) as [s0|] eqn:Hf; [|apply Hm].
  apply find_Some in Hf as [Hin Hk].
  destruct (LRUCache.isStale _ now s0); cbn [fst].
  - intros Hs%delete_subseteq. by apply Hm.
  - intros [Hs%delete_subseteq| ->%list_elem_of_singleton]%elem_of_app;
      [by apply Hm|].
    cbn. rewrite <- Hk. by apply Hm.
Qed.

Lemma coherent_set db now id user m :
  db !! id = Some user → coherent db m →
  coherent db (CacheManager.set now (cacheKey id) user m).
Proof.
  intros Hid Hm slot. unfold CacheManager.set, LRUCache.set. cbn [CacheManager.cache].
  assert (∀ c : list (LRUCache.Slot CacheEntry),
            c ⊆ CacheManager.cache m →
            slot ∈ c ++ [LRUCache.mkSlot (cacheKey id) (mkCacheEntry user now) now] →
            ∃ id0, LRUCache.key slot = cacheKey id0 ∧
                   db !! id0 = Some (data (LRUCache.value slot))) as Hgen.
  { intros c Hc [Hs| ->%list_elem_of_singleton]%elem_of_app.
    - by apply Hm, Hc.
    - by exists id. }
  destruct (LRUCache.find _ _).
  - apply Hgen, delete_subseteq.
  - case_match; apply Hgen; [apply tail_subseteq|done].
Qed.

Lemma coherent_hit db now id m user :
  coherent db m →
  (CacheManager.get now (cacheKey id) m).2 = Some user →
  db !! id = Some user.
Proof.
  intros Hm (slot & Hf & Hdata & _)%get_hit.
  apply find_Some in Hf as [Hin Hk].
  destruct (Hm slot Hin) as (id0 & Hk0 & Hid0).
  rewrite Hk0 in Hk. apply cacheKey_inj in Hk as ->. by rewrite <- Hdata.
Qed.

Lemma coherent_record db time m :
  coherent db m → coherent db (CacheManager.recordResponseTime time m).
Proof. done. Qed.

(** The handler on the arrival of a request with a number: a hit is
    answered at once, a miss goes to the queue; the 50 ms wait is on
    neither path. *)
Lemma step_request s r id now :
  Server.step s (Request r (Some id) now)
  = match (CacheManager.get now (cacheKey id) (cache s)).2 with
    | Some user =>
        respond r (mkResponse 200 (userJson user))
          (withCache
             (CacheManager.recordResponseTime (now - now)
                (CacheManager.get now (cacheKey id) (cache s)).1) s)
    | None =>
        enqueue (mkQueued r id now)
          (withCache (CacheManager.get now (cacheKey id) (cache s)).1 s)
    end.
Proof.
  cbn [Server.step]. unfold lookup, missed. cbn [userId request startTime].
  pose proof (get_miss_has now now (cacheKey id) (cache s)) as Hhas.
  destruct (CacheManager.get now (cacheKey id) (cache s)) as [c [user|]];
    cbn [fst snd] in *; [done|].
  cbn [withCache cache]. by rewrite Hhas.
Qed.

(** The queue on a new element: it waits behind the fetch in flight, or
    the loop starts with it. *)
Lemma enqueue_busy q q0 s :
  serial s → awaiting s = Some q0 →
  enqueue q s
  = Server.mk (cache s) (userService s) (queue s ++ [q]) (processing s)
      (awaiting s) (sleeping s) (responses s).
Proof.
  unfold serial. intros Hs Ha. rewrite Ha in Hs. destruct Hs as [Hproc _].
  unfold enqueue, processQueue. cbn [processing queue]. by rewrite Hproc.
Qed.

Lemma enqueue_idle q s :
  serial s → awaiting s = None →
  enqueue q s
  = Server.mk (cache s)
      (getUserById (request q) (userId q) (userService s))
      [] true (Some q) (sleeping s) (responses s).
Proof.
  unfold serial. intros Hs Ha. rewrite Ha in Hs.
  destruct Hs as (Hproc & Hq & _).
  unfold enqueue, processQueue. cbn [processing queue]. rewrite Hproc, Hq.
  cbn [orb app]. rewrite bool_decide_eq_false_2 by discriminate.
  unfold nextInQueue. by cbn [queue cache userService sleeping responses].
Qed.

Lemma getUserById_users who id (svc : UserService.t) :
  users (getUserById who id svc) = users svc.
Proof. unfold getUserById. by destruct (pendingRequests svc !! id). Qed.

(** A fetch timer: it is the timer of the fetch the loop awaits, whose
    element is answered from the store before the loop goes on, or it is
    no timer in flight and nothing happens. *)
Lemma step_timer s p now :
  serial s →
  (∃ q svc, awaiting s = Some q ∧
     timers (userService s) = [mkFetch p (userId q)] ∧
     users svc = users (userService s) ∧ timers svc = [] ∧
     pendingRequests svc = ∅ ∧ waiters svc = [] ∧
     Server.step s (Timer p now)
     = nextInQueue
         (afterEnqueue q (Returned (users (userService s) !! userId q)) now
            (Server.mk (cache s) svc (queue s) (processing s) (awaiting s)
               (sleeping s) (responses s)))) ∨
  ((∀ f, f ∈ timers (userService s) → promise f ≠ p) ∧
   cache (Server.step s (Timer p now)) = cache s ∧
   userService (Server.step s (Timer p now)) = userService s ∧
   queue (Server.step s (Timer p now)) = queue s ∧
   processing (Server.step s (Timer p now)) = processing s ∧
   awaiting (Server.step s (Timer p now)) = awaiting s ∧
   sleeping (Server.step s (Timer p now)) = sleeping s ∧
   responses (Server.step s (Timer p now)) = responses s).
Proof.
  intros Hs. unfold serial in Hs. cbn [Server.step]. unfold fire.
  destruct (awaiting s) as [q|] eqn:Ha.
  - destruct Hs as (Hproc & p0 & Ht & Hp & Hw). rewrite Ht.
    cbn [List.find promise]. case_bool_decide as Hpp.
    + left. subst p0. exists q.
      exists (UserService.mk (users (userService s)) ∅ [] []
                (storeCalls (userService s))).
      split; [done|]. split; [done|].
      rewrite Hw, Hp. cbn [fst snd fetched].
      rewrite (filter_cons_True (λ w, awaited w = p)) by done.
      rewrite (filter_cons_False (λ w, awaited w ≠ p)) by (cbn; tauto).
      rewrite (filter_cons_False (λ f, promise f ≠ p)) by (cbn; tauto).
      rewrite !filter_nil, delete_singleton_eq.
      cbn [fmap list_fmap foldl]. unfold resume. cbn [awaiting fst snd].
      rewrite ?Ha.
      assert (deliver (users (userService s) !! userId q)
                (mkWaiter (request q) p Leader)
              = (request q, Returned (users (userService s) !! userId q)))
        as -> by (by destruct (users (userService s) !! userId q)).
      cbn [fst snd]. rewrite bool_decide_eq_true_2 by done.
      by split_and!.
    + right. split.
      { intros f ->%list_elem_of_singleton. cbn. congruence. }
      cbn. by rewrite ?Ha.
  - right. destruct Hs as (_ & _ & Ht & _). rewrite Ht. split.
    { by intros f ?%elem_of_nil. }
    cbn. by rewrite ?Ha.
Qed.

Lemma perform_serial s task : serial s → serial (perform s task).
Proof.
  destruct task as [ev| |now]; cbn [perform].
  - apply step_serial.
  - by apply serial_same.
  - by apply serial_same.
Qed.

Lemma answered_snoc db tasks task (rs : list (nat * Response)) r0 id0 resp0 :
  (∀ r resp, (r, resp) ∈ rs → ∃ id, requested tasks r id ∧ answers db id resp) →
  requested (tasks ++ [task]) r0 id0 → answers db id0 resp0 →
  ∀ r resp, (r, resp) ∈ rs ++ [(r0, resp0)] →
            ∃ id, requested (tasks ++ [task]) r id ∧ answers db id resp.
Proof.
  intros Hrs Hreq Hans r resp [Hin|[= -> ->]%list_elem_of_singleton]%elem_of_app.
  - destruct (Hrs r resp Hin) as (id & ? & ?). exists id.
    split; [by apply requested_snoc|done].
  - by exists id0.
Qed.

Lemma answered_keep db tasks task (rs : list (nat * Response)) :
  (∀ r resp, (r, resp) ∈ rs → ∃ id, requested tasks r id ∧ answers db id resp) →
  ∀ r resp, (r, resp) ∈ rs →
            ∃ id, requested (tasks ++ [task]) r id ∧ answers db id resp.
Proof.
  intros Hrs r resp Hin. destruct (Hrs r resp Hin) as (id & ? & ?).
  exists id. split; [by apply requested_snoc|done].
Qed.

Lemma perform_sound db tasks task s :
  sound db tasks s → sound db (tasks ++ [task]) (perform s task).
Proof.
  intros (Hs & Hsl & Hu & Hc & Hq & Hr & Hn).
  split; [by apply perform_serial|].
  unfold held in *. rewrite arrivals_snoc.
  destruct task as [[r [id|] now|r now|p now]| |now]; cbn [perform isRequest].
  - (* a request with a number *)
    rewrite step_request.
    destruct ((CacheManager.get now (cacheKey id) (cache s)).2) as [user|] eqn:Hg.
    + cbn [respond withCache sleeping userService cache queue awaiting responses].
      split_and!; [done|done| | | |].
      * by apply coherent_record, coherent_get.
      * intros q Hq'. by apply requested_snoc, Hq.
      * apply (answered_snoc db tasks _ _ r (Some id)); [done|apply requested_last|].
        unfold answers. rewrite (coherent_hit db now id (cache s) user) by done.
        by left.
      * rewrite length_app. simpl. lia.
    + set (s1 := withCache (CacheManager.get now (cacheKey id) (cache s)).1 s).
      assert (serial s1) as Hs1 by (revert Hs; by apply serial_same).
      destruct (awaiting s) as [q0|] eqn:Ha.
      * rewrite (enqueue_busy _ q0) by done.
        cbn [s1 withCache sleeping userService cache queue awaiting responses].
        rewrite Ha. split_and!; [done|done| | | |].
        -- by apply coherent_get.
        -- intros q [[Hin| ->%list_elem_of_singleton]%elem_of_app|Hin].
           ++ apply requested_snoc, Hq. by left.
           ++ apply requested_last.
           ++ apply requested_snoc, Hq. by right.
        -- by apply answered_keep.
        -- rewrite length_app. simpl. lia.
      * rewrite enqueue_idle by done.
        cbn [s1 withCache sleeping userService cache queue awaiting responses
             request userId].
        unfold serial in Hs. rewrite Ha in Hs. destruct Hs as (_ & Hqe & _).
        rewrite Hqe in Hn. simpl in Hn.
        split_and!; [done| | | | |].
        -- by rewrite getUserById_users.
        -- by apply coherent_get.
        -- intros q [Hin|[= <-]]; [by apply elem_of_nil in Hin|].
           apply requested_last.
        -- by apply answered_keep.
        -- simpl. lia.
  - (* a request whose id is no number *)
    cbn [Server.step respond sleeping userService cache queue awaiting responses].
    split_and!; [done|done|done| | |].
    + intros q Hq'. by apply requested_snoc, Hq.
    + apply (answered_snoc db tasks _ _ r None); [done|apply requested_last|done].
    + rewrite length_app. simpl. lia.
  - (* the end of a 50 ms wait: no handler is waiting *)
    cbn [Server.step]. rewrite Hsl. cbn [List.find].
    split_and!; [done|done|done| | |].
    + intros q Hq'. by apply requested_snoc, Hq.
    + by apply answered_keep.
    + lia.
  - (* a fetch timer *)
    destruct (step_timer s p now Hs)
      as [(q & svc & Ha & _ & Hsvc & _ & _ & _ & ->)
         |(_ & Hc' & Hu' & Hq' & _ & Ha' & Hsl' & Hr')].
    + assert (requested (tasks ++ [Handle (Timer p now)]) (request q)
                (Some (userId q))) as Hreq.
      { apply requested_snoc, Hq. by right. }
      assert (∀ q', q' ∈ queue s →
                requested (tasks ++ [Handle (Timer p now)]) (request q')
                  (Some (userId q'))) as Hqueue.
      { intros q' Hin. apply requested_snoc, Hq. by left. }
      rewrite Ha in Hn. rewrite Hu.
      unfold nextInQueue.
      destruct (db !! userId q) as [user|] eqn:Hid;
        cbn [afterEnqueue respond withCache sleeping userService cache queue
             awaiting responses];
        destruct (queue s) as [|q' rest];
        cbn [sleeping userService cache queue awaiting responses];
        (split_and!;
         [done
         |by rewrite ?getUserById_users, Hsvc
         |try done; by apply coherent_record, coherent_set
         |
         |apply (answered_snoc db tasks _ _ (request q) (Some (userId q)));
            [done|done|unfold answers; rewrite Hid; tauto]
         |rewrite length_app; simpl in *; lia]).
      * intros q0 [Hin|Hin]; [by apply elem_of_nil in Hin|done].
      * intros q0 [Hin|[= <-]]; apply Hqueue; [by right|by left].
      * intros q0 [Hin|Hin]; [by apply elem_of_nil in Hin|done].
      * intros q0 [Hin|[= <-]]; apply Hqueue; [by right|by left].
    + rewrite Hc', Hu', Hq', Ha', Hsl', Hr'.
      split_and!; [done|done|done| | |].
      * intros q Hq0. by apply requested_snoc, Hq.
      * by apply answered_keep.
      * lia.
  - (* DELETE /cache *)
    cbn [withCache sleeping userService cache queue awaiting responses].
    split_and!; [done|done| | | |].
    + by intros slot ?%elem_of_nil.
    + intros q Hq'. by apply requested_snoc, Hq.
    + by apply answered_keep.
    + lia.
  - (* the sweep of the background task *)
    cbn [withCache sleeping userService cache queue awaiting responses].
    split_and!; [done|done| | | |].
    + intros slot Hin%sweep_subseteq. by apply Hc.
    + intros q Hq'. by apply requested_snoc, Hq.
    + by apply answered_keep.
    + lia.
Qed.

Lemma runTasks_sound db tasks : sound db tasks (runTasks db tasks).
Proof.
  induction tasks as [|task tasks IH] using rev_ind.
  - split_and!; try done.
    + by intros slot ?%elem_of_nil.
    + intros q [Hin|Hin]; [by apply elem_of_nil in Hin|done].
    + by intros r resp ?%elem_of_nil.
  - rewrite runTasks_snoc. by apply perform_sound.
Qed.

Lemma runTasks_count db tasks :
  (length (responses (runTasks db tasks)) + held (runTasks db tasks)
   = arrivals tasks)%nat.
Proof. by destruct (runTasks_sound db tasks) as (_ & _ & _ & _ & _ & _ & Hn). Qed.

(** X21: the handler of GET /users/:id never takes its 50 ms wait: when
    [cache.get] has returned nothing, [cache.has] is false for the same
    key, so the request goes to the queue at once. *)
Theorem handler_never_takes_the_50ms_wait db tasks :
  sleeping (runTasks db tasks) = [].
Proof. by destruct (runTasks_sound db tasks) as (_ & Hsl & _). Qed.



(** X23: no request is lost and none is answered twice: at every moment
    the responses sent and the requests that wait in the queue or for
    the fetch in flight add up to the requests that have arrived. *)
Theorem every_request_is_answered_or_held db tasks :
  (length (responses (runTasks db tasks)) + held (runTasks db tasks)
   = arrivals tasks)%nat.
Proof. apply runTasks_count. Qed.

(** X24: the cache only ever holds users of the store under the key of
    their id: what [cache.get] returns for [user:<id>] is the user that
    the store has under [id]; an id without user is never cached. *)
Theorem cache_returns_the_user_of_the_store db tasks now id user :
  (CacheManager.get now (cacheKey id) (cache (runTasks db tasks))).2 = Some user →
  db !! id = Some user.
Proof.
  destruct (runTasks_sound db tasks) as (_ & _ & _ & Hc & _).
  by apply coherent_hit.
Qed.

Lemma cache_returns_the_user_of_the_store_witness :
  sampleUsers !! 1
  = Some (User.mk 1 "John Doe" "john@example.com"
            (Some "$2a$10$N9qo8uLOickgx2ZMRZoMyeIjZAgcfl7p92ldGxad68LJZdL17lhWy")
            (Some "2024-01-01T00:00:00.000Z")).
Proof.
  apply (cache_returns_the_user_of_the_store sampleUsers
           [Handle (Request 0 (Some 1) 1000); Handle (Timer 0 1200);
            CleanStale 30000]
           40000 1).
  by vm_compute.
Defined.

Lemma held_zero s : serial s → awaiting s = None → held s = 0%nat.
Proof.
  unfold serial, held. intros Hs Ha. rewrite Ha in *.
  by destruct Hs as (_ & -> & _).
Qed.

(** X25: no request waits for ever: after any tasks, once the timers of
    the fetches have fired, one for each request that the queue holds,
    every request that arrived has its response. *)
Theorem fetch_timers_answer_every_request db tasks :
  ∃ timers,
    Forall (λ task, isTimer task = true) timers ∧
    length timers = held (runTasks db tasks) ∧
    held (runTasks db (tasks ++ timers)) = 0%nat ∧
    length (responses (runTasks db (tasks ++ timers))) = arrivals tasks.
Proof.
  remember (held (runTasks db tasks)) as n eqn:Hn.
  revert tasks Hn. induction n as [|n IH]; intros tasks Hn.
  - exists []. rewrite app_nil_r.
    pose proof (runTasks_count db tasks) as Hcount.
    split_and!; [constructor|done|done|lia].
  - destruct (runTasks_sound db tasks) as (Hs & _).
    destruct (awaiting (runTasks db tasks)) as [q|] eqn:Ha;
      [|rewrite held_zero in Hn; done].
    pose proof Hs as Hs'. unfold serial in Hs'. rewrite Ha in Hs'.
    destruct Hs' as (_ & p & Ht & _).
    set (task := Handle (Timer p 0)).
    pose proof (runTasks_count db tasks) as Hcount.
    pose proof (runTasks_count db (tasks ++ [task])) as Hcount'.
    rewrite arrivals_snoc in Hcount'. cbn [task isRequest] in Hcount'.
    assert (length (responses (runTasks db (tasks ++ [task])))
            = S (length (responses (runTasks db tasks)))) as Hone.
    { rewrite runTasks_snoc. cbn [task perform].
      destruct (step_timer _ p 0 Hs)
        as [(q' & svc & _ & _ & _ & _ & _ & _ & ->)|(Hno & _)].
      - unfold nextInQueue.
        destruct (users (userService (runTasks db tasks)) !! userId q');
          cbn [afterEnqueue respond withCache queue responses];
          destruct (queue (runTasks db tasks)); cbn [responses];
          rewrite length_app; simpl; lia.
      - exfalso. apply (Hno (mkFetch p (userId q))); [|done].
        rewrite Ht. by left. }
    destruct (IH (tasks ++ [task])) as (timers & Hall & Hlen & Hheld & Hresp);
      [lia|].
    exists (task :: timers). rewrite <- app_assoc in Hheld, Hresp.
    cbn [app] in Hheld, Hresp.
    split_and!.
    + by constructor.
    + simpl. lia.
    + done.
    + rewrite Hresp, arrivals_snoc. simpl. lia.
Qed.

End ServerTaskFacts.

Section ServerOrderFacts.
Import UserService Server.

Implicit Types (s : Server.t) (q : QueuedRequest) (now : Z)
  (db : gmap Z User.t) (tasks : list Task).

Lemma follow_runTasks db tasks :
  (foldl follow (Server.init db, [], []) tasks).1.1 = runTasks db tasks.
Proof.
  induction tasks as [|task tasks IH] using rev_ind; [done|].
  rewrite foldl_app, runTasks_snoc. cbn. by rewrite IH.
Qed.

Lemma sentToQueue_snoc db tasks task :
  sentToQueue db (tasks ++ [task])
  = sentToQueue db tasks ++ queuedBy (runTasks db tasks) task.
Proof. unfold sentToQueue. rewrite foldl_app. cbn. by rewrite follow_runTasks. Qed.

Lemma answeredByQueue_snoc db tasks task :
  answeredByQueue db (tasks ++ [task])
  = answeredByQueue db tasks ++ answeredBy (runTasks db tasks) task.
Proof. unfold answeredByQueue. rewrite foldl_app. cbn. by rewrite follow_runTasks. Qed.

(** One task: what the queue holds afterwards is what it held, less the
    request answered, plus the request sent to it. *)
Lemma perform_waiting s task :
  serial s → sleeping s = [] →
  answeredBy s task ++ waiting (perform s task) = waiting s ++ queuedBy s task.
Proof.
  intros Hs Hsl. unfold waiting.
  destruct task as [[r [id|] now|r now|p now]| |now];
    cbn [perform answeredBy queuedBy app].
  - rewrite step_request.
    destruct ((CacheManager.get now (cacheKey id) (cache s)).2) as [user|].
    + cbn [respond withCache awaiting queue]. by rewrite app_nil_r.
    + set (s1 := withCache (CacheManager.get now (cacheKey id) (cache s)).1 s).
      assert (serial s1) as Hs1 by (revert Hs; by apply serial_same).
      destruct (awaiting s) as [q0|] eqn:Ha.
      * rewrite (enqueue_busy _ q0) by done.
        cbn [s1 withCache awaiting queue]. rewrite Ha.
        by rewrite !fmap_app, <- app_assoc.
      * rewrite enqueue_idle by done. cbn [awaiting queue].
        unfold serial in Hs. rewrite Ha in Hs. destruct Hs as (_ & -> & _).
        done.
  - cbn [Server.step respond awaiting queue]. by rewrite app_nil_r.
  - cbn [Server.step]. rewrite Hsl. cbn [List.find]. by rewrite app_nil_r.
  - rewrite app_nil_r.
    destruct (step_timer s p now Hs)
      as [(q & svc & Ha & _ & _ & _ & _ & _ & ->)
         |(_ & _ & _ & Hq' & _ & Ha' & _ & Hr')].
    + rewrite Ha. unfold nextInQueue.
      destruct (users (userService s) !! userId q);
        cbn [afterEnqueue respond withCache queue responses awaiting cache
             userService sleeping];
        destruct (queue s) as [|q' rest]; cbn [responses awaiting queue];
        by rewrite drop_app_length.
    + rewrite Hr', Hq', Ha', drop_all. done.
  - cbn [withCache awaiting queue]. by rewrite app_nil_r.
  - cbn [withCache awaiting queue]. by rewrite app_nil_r.
Qed.

(** X26: the queue is first in, first out: the requests that missed the
    cache are answered in their order of arrival, and those not yet
    answered are the ones the queue holds, in that order. *)
Theorem queue_answers_in_order_of_arrival db tasks :
  answeredByQueue db tasks ++ waiting (runTasks db tasks)
  = sentToQueue db tasks.
Proof.
  induction tasks as [|task tasks IH] using rev_ind; [done|].
  destruct (runTasks_sound db tasks) as (Hs & Hsl & _).
  rewrite answeredByQueue_snoc, sentToQueue_snoc, runTasks_snoc, <- IH.
  rewrite <- !app_assoc. f_equal. by apply perform_waiting.
Qed.

End ServerOrderFacts.
